(** * Numerical-methods library of ApproximateMath: a shallow embedding

    The repository carries its library [lib/math-utils.ts] in two variants:

    - [src/lib/math-utils.ts]: the root finders are hard-wired to
      [f(x) = ln(x) - 1] and take an unused [targetValue]; the derivative
      approximator guards every call into the expression engine with
      [safeEvaluate] / [safeDerivative].  Embedded as [Module MathUtils].
    - the expression-driven variant (root finders take the expression as a
      string and call the engine's [evaluate] / [derivative]; the derivative
      approximator has one enclosing [try]/[catch] only).  Embedded as
      [Module MathUtilsExpr].

    JavaScript numbers are IEEE-754 binary64 values, which is what Rocq's
    primitive [float] is, so the arithmetic of the source ([-], [/], [*],
    [Math.abs], [<]) is embedded by the primitive operations themselves.
    Where the source applies them to a result of the engine, whose static
    type is [any], the operand is first converted as JavaScript converts it.
    Exceptions are explicit: every function that can throw returns a
    [completion]. *)

From Stdlib Require Import ZArith List String Ascii Bool Lia.
From Stdlib Require Import Floats.
Import ListNotations.

Set Implicit Arguments.

(** ** The JavaScript runtime, as far as the library uses it *)

Module JS.

Definition number := float.

(** What [instanceof] can tell about a thrown value. *)
Inductive error_class :=
| SyntaxErrorClass
| RangeErrorClass
| TypeErrorClass
| PlainErrorClass
| NotAnErrorClass.

Record exn := mkExn { exn_class : error_class; exn_message : string }.

Definition instanceof_Error (e : exn) : bool :=
  match exn_class e with
  | NotAnErrorClass => false
  | _ => true
  end.

Definition instanceof_SyntaxError (e : exn) : bool :=
  match exn_class e with
  | SyntaxErrorClass => true
  | _ => false
  end.

(** The outcome of running a piece of code: a value, or a thrown exception. *)
Inductive completion (A : Type) :=
| Normal (a : A)
| Throw (e : exn).

Arguments Normal {A} a.
Arguments Throw {A} e.

Definition bind {A B} (c : completion A) (k : A -> completion B) : completion B :=
  match c with
  | Normal a => k a
  | Throw e => Throw e
  end.

(** [try { body } catch (error) { handler }] *)
Definition try_catch {A} (body : completion A) (handler : exn -> completion A)
  : completion A :=
  match body with
  | Normal a => Normal a
  | Throw e => handler e
  end.

(** A value of static type [any]: a number, or something whose [typeof] is
    not ["number"] (a mathjs Complex, Matrix, Unit, a boolean, a string...). *)
Inductive any :=
| Num (x : number)
| NotNum.

Definition Math_abs (x : number) : number := PrimFloat.abs x.

(** The global [isFinite], on a number. *)
Definition isFinite (x : number) : bool :=
  negb (PrimFloat.is_nan x) && negb (PrimFloat.is_infinity x).

(** [String.prototype.includes] *)
Fixpoint includes (hay needle : string) : bool :=
  String.prefix needle hay
  || match hay with
     | EmptyString => false
     | String _ rest => includes rest needle
     end.

(** *** [parseFloat(x.toFixed(p))]

    [Number.prototype.toFixed(p)] throws a [RangeError] unless
    [0 <= p <= 100]; it prints NaN and the infinities by name and numbers of
    magnitude at least [1e21] in exponent notation, all of which [parseFloat]
    reads back unchanged.  Otherwise it prints the integer [n] for which
    [n / 10^p] is closest to the exact value of [x] (the larger [n] on a
    tie) with [p] digits after the point, and [parseFloat] returns the
    double nearest to that decimal. *)

Definition toFixed_range_error : exn :=
  mkExn RangeErrorClass "toFixed() digits argument must be between 0 and 100".

(** [n] with [n / 10^p] closest to [m * 2^e], the larger one on a tie. *)
Definition toFixed_integer (m : positive) (e p : Z) : Z :=
  if (0 <=? e)%Z then (Zpos m * 2 ^ e * 10 ^ p)%Z
  else ((2 * Zpos m * 10 ^ p + 2 ^ (- e)) / (2 * 2 ^ (- e)))%Z.

(** [10^21 <= m * 2^e] *)
Definition at_least_1e21 (m : positive) (e : Z) : bool :=
  if (0 <=? e)%Z then (10 ^ 21 <=? Zpos m * 2 ^ e)%Z
  else (10 ^ 21 * 2 ^ (- e) <=? Zpos m)%Z.

(** The double nearest to [n / 10^p] for [n > 0] (ties to even), with sign
    [s]: the quotient is taken with 1100 extra binary digits and a sticky
    bit, then rounded once. *)
Definition nearest_decimal (s : bool) (n p : Z) : number :=
  match n with
  | Zpos _ =>
      let scaled := (n * 2 ^ 1100)%Z in
      let q := (scaled / 10 ^ p)%Z in
      let sticky := if (scaled mod 10 ^ p =? 0)%Z then 0%Z else 1%Z in
      let mant := (2 * q + sticky)%Z in
      SF2Prim (binary_normalize prec emax (if s then (- mant)%Z else mant)
                 (- 1101) s)
  | _ => if s then neg_zero else zero
  end.

Definition toFixed_parseFloat (x : number) (p : Z) : completion number :=
  if ((p <? 0) || (100 <? p))%Z then Throw toFixed_range_error
  else
    match Prim2SF x with
    | S754_finite s m e =>
        if at_least_1e21 m e then Normal x
        else Normal (nearest_decimal s (toFixed_integer m e p) p)
    | S754_zero _ => Normal zero
    | _ => Normal x
    end.

End JS.

Import JS.

Declare Scope js_scope.
Delimit Scope js_scope with js.
Notation "x <- c ;; k" := (bind c (fun x => k))
  (at level 61, c at next level, right associativity) : js_scope.
Local Open Scope js_scope.

#[local] Set Warnings "-inexact-float".

(** ** Values that are used as numbers

    The expression-driven variant takes whatever the engine returns (static
    type [any]) for a number: the value is fed to [-], [*], [/], [Math.abs]
    and [toFixed] without a test.  Such a value is a number, [undefined],
    [null], or something else (a boolean, a string, a mathjs Complex,
    BigNumber, Fraction, Matrix, ...), which is seen here through the two
    things the library does with it. *)

Record foreign := mkForeign
  { (** [ToNumber], which the arithmetic operators and [Math.abs] apply; the
        conversion of an object can throw *)
    ToNumber : completion number;
    (** [parseFloat(v.toFixed(p))], for a value that has a method [toFixed] *)
    toFixed : option (Z -> completion number) }.

Inductive value :=
| VNumber (x : number)
| VUndefined
| VNull
| VOther (o : foreign).

Definition to_number (v : value) : completion number :=
  match v with
  | VNumber x => Normal x
  | VUndefined => Normal nan
  | VNull => Normal zero
  | VOther o => ToNumber o
  end.

(** A result of the engine, used as a number. *)
Definition as_number (c : completion value) : completion number :=
  v <- c ;; to_number v.

(** [l - r], [l * r] and [l / r]: the left operand is converted first. *)
Definition js_sub (l r : value) : completion number :=
  a <- to_number l ;; b <- to_number r ;; Normal (a - b)%float.

Definition js_mul (l r : value) : completion number :=
  a <- to_number l ;; b <- to_number r ;; Normal (a * b)%float.

Definition js_div (l r : value) : completion number :=
  a <- to_number l ;; b <- to_number r ;; Normal (a / b)%float.

(** [Math.abs(v)] *)
Definition Math_abs_of (v : value) : completion number :=
  a <- to_number v ;; Normal (Math_abs a).

(** [parseFloat(v.toFixed(p))], [receiver] being the text of [v] in the
    source: a value without the method makes the call a [TypeError]. *)
Definition call_toFixed (receiver : string) (v : value) (p : Z)
  : completion number :=
  match v with
  | VNumber x => toFixed_parseFloat x p
  | VUndefined =>
      Throw (mkExn TypeErrorClass
               "Cannot read properties of undefined (reading 'toFixed')")
  | VNull =>
      Throw (mkExn TypeErrorClass
               "Cannot read properties of null (reading 'toFixed')")
  | VOther o =>
      match toFixed o with
      | Some method => method p
      | None =>
          Throw (mkExn TypeErrorClass (receiver ++ ".toFixed is not a function"))
      end
  end.

(** ** Data model: the two exported interfaces *)

Record IterationResult := mkIterationResult
  { iteration : Z;
    approximation : number;
    relativeError : option number }.

Record DerivativeResult := mkDerivativeResult
  { forward : number;
    backward : number;
    centered : number;
    forwardError : option number;
    backwardError : option number;
    centeredError : option number;
    symbolic : option number }.

(** [DerivativeResult | { error: string }] *)
Inductive derivative_outcome :=
| Result (r : DerivativeResult)
| ErrorObject (error : string).

(** [v !== null ? parseFloat(v.toFixed(precision)) : null] *)
Definition round_nullable (v : option number) (precision : Z)
  : completion (option number) :=
  match v with
  | Some e => r <- toFixed_parseFloat e precision ;; Normal (Some r)
  | None => Normal None
  end.

(** [Math.abs((next - prev) / next) * 100] *)
Definition percent_change (next prev : number) : number :=
  (Math_abs ((next - prev) / next) * 100)%float.

(** The same expression on values that are used as numbers. *)
Definition percent_change_any (next prev : value) : completion number :=
  difference <- js_sub next prev ;;
  quotient <- js_div (VNumber difference) next ;;
  Normal (Math_abs quotient * 100)%float.

(** ** The counted loop [for (let i = 1; i <= iterations; i++) { ... }]

    The body either falls through to the next pass or leaves with [break].
    For an integer [iterations] the loop makes [Z.to_nat iterations] passes
    with [i = 1, 2, ...]. *)

Inductive pass (S : Type) :=
| Next (s : S)
| Break (s : S).

Arguments Next {S} s.
Arguments Break {S} s.

Fixpoint for_loop {S} (body : Z -> S -> completion (pass S))
  (passes : nat) (i : Z) (s : S) : completion S :=
  match passes with
  | O => Normal s
  | Datatypes.S passes' =>
      r <- body i s ;;
      match r with
      | Next s' => for_loop body passes' (i + 1) s'
      | Break s' => Normal s'
      end
  end.

(** ** The expression engine (mathjs), an external collaborator

    [X] is the type of what the caller binds [x] to in the scope, [R] what
    the caller looks at in an evaluation result. *)

Record engine (X R : Type) := mkEngine
  { MathNode : Type;
    (** [compile(expression)] *)
    compile : string -> completion MathNode;
    (** [node.evaluate({ x: v })] *)
    node_evaluate : MathNode -> X -> completion R;
    (** [evaluate(expression, { x: v })] *)
    evaluate : string -> X -> completion R;
    (** [derivative(expression, variable)] *)
    derivative : string -> string -> completion MathNode;
    (** [node.toString()] *)
    node_toString : MathNode -> string }.

(** ** [src/lib/math-utils.ts] *)

Module MathUtils.

Section RootFinders.

(** [Math.log] is implementation-approximated, so it stays a parameter. *)
Variable Math_log : number -> number.

Definition f (val : number) : number := (Math_log val - 1)%float.
Definition G (val : number) : number := (val - Math_log val + 1)%float.
Definition fPrime (val : number) : number := (1 / val)%float.

(** *** fixedPointIteration *)

Record fp_state := mkFp
  { fp_x : number;
    fp_prevX : option number;
    fp_results : list IterationResult }.

Definition fixedPointIteration_pass (precision : Z) (i : Z) (s : fp_state)
  : completion (pass fp_state) :=
  let x := fp_x s in
  let nextX := G x in
  let relativeError :=
    match fp_prevX s with
    | Some _ => Some (percent_change nextX x)
    | None => None
    end in
  approx <- toFixed_parseFloat nextX precision ;;
  relErr <- round_nullable relativeError precision ;;
  Normal (Next (mkFp nextX (Some x)
                  (fp_results s ++ [mkIterationResult i approx relErr]))).

Definition fixedPointIteration
  (initialGuess : number) (iterations : Z) (targetValue : number)
  (precision : Z) : completion (list IterationResult) :=
  s <- for_loop (fixedPointIteration_pass precision) (Z.to_nat iterations) 1
         (mkFp initialGuess None []) ;;
  Normal (fp_results s).

(** *** newtonRaphson *)

Record nr_state := mkNr
  { nr_x : number;
    nr_results : list IterationResult }.

Definition newtonRaphson_pass (precision : Z) (i : Z) (s : nr_state)
  : completion (pass nr_state) :=
  let x := nr_x s in
  let fx := f x in
  let fpx := fPrime x in
  if (Math_abs fpx <? 1e-10)%float then
    Normal (Break (mkNr x (nr_results s ++ [mkIterationResult i x None])))
  else
    let nextX := (x - fx / fpx)%float in
    let relativeError := percent_change nextX x in
    approx <- toFixed_parseFloat nextX precision ;;
    relErr <- toFixed_parseFloat relativeError precision ;;
    Normal (Next (mkNr nextX
                    (nr_results s ++ [mkIterationResult i approx (Some relErr)]))).

Definition newtonRaphson
  (initialGuess : number) (iterations : Z) (targetValue : number)
  (precision : Z) : completion (list IterationResult) :=
  s <- for_loop (newtonRaphson_pass precision) (Z.to_nat iterations) 1
         (mkNr initialGuess []) ;;
  Normal (nr_results s).

(** *** secantMethod *)

Record sec_state := mkSec
  { sec_x0 : number;
    sec_x1 : number;
    sec_results : list IterationResult }.

Definition secantMethod_pass (precision : Z) (i : Z) (s : sec_state)
  : completion (pass sec_state) :=
  let x0 := sec_x0 s in
  let x1 := sec_x1 s in
  let fx0 := f x0 in
  let fx1 := f x1 in
  if (Math_abs (fx1 - fx0) <? 1e-10)%float then
    Normal (Break (mkSec x0 x1
                     (sec_results s ++ [mkIterationResult i x1 None])))
  else
    let nextX := (x1 - fx1 * (x1 - x0) / (fx1 - fx0))%float in
    let relativeError := percent_change nextX x1 in
    approx <- toFixed_parseFloat nextX precision ;;
    relErr <- toFixed_parseFloat relativeError precision ;;
    Normal (Next (mkSec x1 nextX
                    (sec_results s ++ [mkIterationResult i approx (Some relErr)]))).

Definition secantMethod
  (guess1 guess2 : number) (iterations : Z) (targetValue : number)
  (precision : Z) : completion (list IterationResult) :=
  s <- for_loop (secantMethod_pass precision) (Z.to_nat iterations) 1
         (mkSec guess1 guess2 []) ;;
  Normal (sec_results s).

End RootFinders.

Section DerivativeApproximation.

(** Evaluation results are of type [any] here: [safeEvaluate] inspects them.
    The scopes hold numbers. *)
Variable E : engine number any.

Definition safeEvaluate (node : MathNode E) (x : number)
  : completion (option number) :=
  try_catch
    (result <- node_evaluate E node x ;;
     match result with
     | Num r => if negb (isFinite r) then Normal None else Normal (Some r)
     | NotNum => Normal None
     end)
    (fun error => Normal None).

Definition safeDerivative (expression variable : string)
  : completion (option (MathNode E)) :=
  try_catch
    (node <- derivative E expression variable ;; Normal (Some node))
    (fun error => Normal None).

Definition calculateError (approx : number) (exact : option number)
  : option number :=
  match exact with
  | None => None
  | Some exact =>
      if (Math_abs exact <? 1e-10)%float then None
      else Some (Math_abs ((approx - exact) / exact) * 100)%float
  end.

Definition evaluation_failed_message : string :=
  "Failed to evaluate expression at necessary points. Check expression syntax and ensure it's valid for the given x values.".

Definition approximateDerivative_catch (error : exn)
  : completion derivative_outcome :=
  if instanceof_Error error && includes (exn_message error) "Undefined symbol"
  then Normal (ErrorObject
                 ("Invalid expression: " ++ exn_message error
                  ++ ". Ensure all variables and functions are defined."))
  else if instanceof_SyntaxError error
  then Normal (ErrorObject
                 ("Syntax error in expression: " ++ exn_message error))
  else Normal (ErrorObject
                 "An error occurred during derivative calculation. Please check the expression and inputs.").

Definition approximateDerivative
  (expression : string) (guessValue h : number) (precision : Z)
  : completion derivative_outcome :=
  try_catch
    (compiledExpr <- compile E expression ;;
     f_x <- safeEvaluate compiledExpr guessValue ;;
     f_x_plus_h <- safeEvaluate compiledExpr (guessValue + h)%float ;;
     f_x_minus_h <- safeEvaluate compiledExpr (guessValue - h)%float ;;
     match f_x, f_x_plus_h, f_x_minus_h with
     | Some f_x, Some f_x_plus_h, Some f_x_minus_h =>
         let forwardDiff := ((f_x_plus_h - f_x) / h)%float in
         let backwardDiff := ((f_x - f_x_minus_h) / h)%float in
         let centeredDiff := ((f_x_plus_h - f_x_minus_h) / (2 * h))%float in
         symbolicDerivativeNode <- safeDerivative expression "x" ;;
         symbolicDerivativeValue <-
           match symbolicDerivativeNode with
           | Some node => safeEvaluate node guessValue
           | None => Normal None
           end ;;
         let forwardError := calculateError forwardDiff symbolicDerivativeValue in
         let backwardError := calculateError backwardDiff symbolicDerivativeValue in
         let centeredError := calculateError centeredDiff symbolicDerivativeValue in
         fwd <- toFixed_parseFloat forwardDiff precision ;;
         bwd <- toFixed_parseFloat backwardDiff precision ;;
         ctr <- toFixed_parseFloat centeredDiff precision ;;
         fwdE <- round_nullable forwardError precision ;;
         bwdE <- round_nullable backwardError precision ;;
         ctrE <- round_nullable centeredError precision ;;
         sym <- round_nullable symbolicDerivativeValue precision ;;
         Normal (Result (mkDerivativeResult fwd bwd ctr fwdE bwdE ctrE sym))
     | _, _, _ => Normal (ErrorObject evaluation_failed_message)
     end)
    approximateDerivative_catch.

End DerivativeApproximation.

End MathUtils.

(** ** The expression-driven variant of [lib/math-utils.ts] *)

Module MathUtilsExpr.

Section WithEngine.

(** This variant uses every evaluation result as a number at once: it is fed
    to [-], [/], [Math.abs] and [toFixed] unchecked.  [fixedPointIteration]
    also binds [x] to the result of the previous evaluation. *)
Variable E : engine value value.

(** *** fixedPointIteration *)

Record fp_state := mkFp
  { fp_x : value;
    fp_prevX : value;
    fp_results : list IterationResult }.

Definition fixedPointIteration_pass (gExpression : string) (precision : Z)
  (i : Z) (s : fp_state) : completion (pass fp_state) :=
  let x := fp_x s in
  nextX <- evaluate E gExpression x ;;
  relativeError <-
    match fp_prevX s with
    | VNull => Normal None
    | _ => e <- percent_change_any nextX x ;; Normal (Some e)
    end ;;
  approx <- call_toFixed "nextX" nextX precision ;;
  relErr <- round_nullable relativeError precision ;;
  Normal (Next (mkFp nextX x
                  (fp_results s ++ [mkIterationResult i approx relErr]))).

Definition fixedPointIteration
  (gExpression : string) (initialGuess : number) (iterations : Z)
  (precision : Z) : completion (list IterationResult) :=
  s <- for_loop (fixedPointIteration_pass gExpression precision)
         (Z.to_nat iterations) 1 (mkFp (VNumber initialGuess) VNull []) ;;
  Normal (fp_results s).

(** *** newtonRaphson *)

Record nr_state := mkNr
  { nr_x : number;
    nr_results : list IterationResult }.

(** The closure [fPrime]: differentiate the expression symbolically, print
    the derivative and evaluate it at [val]. *)
Definition fPrime (expression : string) (val : number) : completion value :=
  symbolicDerivativeNode <- derivative E expression "x" ;;
  evaluate E (node_toString E symbolicDerivativeNode) (VNumber val).

Definition newtonRaphson_pass (expression : string) (precision : Z)
  (i : Z) (s : nr_state) : completion (pass nr_state) :=
  let x := nr_x s in
  fx <- evaluate E expression (VNumber x) ;;
  fpx <- fPrime expression x ;;
  magnitude <- Math_abs_of fpx ;;
  if (magnitude <? 1e-10)%float then Normal (Break s)
  else
    quotient <- js_div fx fpx ;;
    let nextX := (x - quotient)%float in
    let relativeError := percent_change nextX x in
    approx <- toFixed_parseFloat nextX precision ;;
    relErr <- toFixed_parseFloat relativeError precision ;;
    Normal (Next (mkNr nextX
                    (nr_results s ++ [mkIterationResult i approx (Some relErr)]))).

Definition newtonRaphson
  (expression : string) (initialGuess : number) (iterations : Z)
  (precision : Z) : completion (list IterationResult) :=
  s <- for_loop (newtonRaphson_pass expression precision)
         (Z.to_nat iterations) 1 (mkNr initialGuess []) ;;
  Normal (nr_results s).

(** *** secantMethod *)

Record sec_state := mkSec
  { sec_x0 : number;
    sec_x1 : number;
    sec_results : list IterationResult }.

Definition secantMethod_pass (expression : string) (precision : Z)
  (i : Z) (s : sec_state) : completion (pass sec_state) :=
  let x0 := sec_x0 s in
  let x1 := sec_x1 s in
  fx0 <- evaluate E expression (VNumber x0) ;;
  fx1 <- evaluate E expression (VNumber x1) ;;
  difference <- js_sub fx1 fx0 ;;
  if (Math_abs difference <? 1e-10)%float then Normal (Break s)
  else
    product <- js_mul fx1 (VNumber (x1 - x0)%float) ;;
    denominator <- js_sub fx1 fx0 ;;
    let nextX := (x1 - product / denominator)%float in
    let relativeError := percent_change nextX x1 in
    approx <- toFixed_parseFloat nextX precision ;;
    relErr <- toFixed_parseFloat relativeError precision ;;
    Normal (Next (mkSec x1 nextX
                    (sec_results s ++ [mkIterationResult i approx (Some relErr)]))).

Definition secantMethod
  (expression : string) (guess1 guess2 : number) (iterations : Z)
  (precision : Z) : completion (list IterationResult) :=
  s <- for_loop (secantMethod_pass expression precision)
         (Z.to_nat iterations) 1 (mkSec guess1 guess2 []) ;;
  Normal (sec_results s).

(** *** approximateDerivative *)

Definition calcError (approx : number) (exact : value)
  : completion (option number) :=
  match exact with
  | VNull => Normal None
  | _ =>
      magnitude <- Math_abs_of exact ;;
      if (magnitude <? 1e-10)%float then Normal None
      else
        difference <- js_sub (VNumber approx) exact ;;
        quotient <- js_div (VNumber difference) exact ;;
        Normal (Some (Math_abs quotient * 100)%float)
  end.

Definition approximateDerivative
  (expression : string) (guessValue h : number) (precision : Z)
  : completion derivative_outcome :=
  try_catch
    (compiledExpr <- compile E expression ;;
     f_x <- node_evaluate E compiledExpr (VNumber guessValue) ;;
     f_x_plus_h <-
       node_evaluate E compiledExpr (VNumber (guessValue + h)%float) ;;
     f_x_minus_h <-
       node_evaluate E compiledExpr (VNumber (guessValue - h)%float) ;;
     forwardStep <- js_sub f_x_plus_h f_x ;;
     let forwardDiff := (forwardStep / h)%float in
     backwardStep <- js_sub f_x f_x_minus_h ;;
     let backwardDiff := (backwardStep / h)%float in
     centeredStep <- js_sub f_x_plus_h f_x_minus_h ;;
     let centeredDiff := (centeredStep / (2 * h))%float in
     symbolicDerivativeNode <- derivative E expression "x" ;;
     symbolicDerivativeValue <-
       evaluate E (node_toString E symbolicDerivativeNode) (VNumber guessValue) ;;
     fwd <- toFixed_parseFloat forwardDiff precision ;;
     bwd <- toFixed_parseFloat backwardDiff precision ;;
     ctr <- toFixed_parseFloat centeredDiff precision ;;
     fwdE <- calcError forwardDiff symbolicDerivativeValue ;;
     bwdE <- calcError backwardDiff symbolicDerivativeValue ;;
     ctrE <- calcError centeredDiff symbolicDerivativeValue ;;
     sym <- call_toFixed "symbolicDerivativeValue" symbolicDerivativeValue
              precision ;;
     Normal (Result (mkDerivativeResult fwd bwd ctr fwdE bwdE ctrE (Some sym))))
    (fun error =>
       Normal (ErrorObject "An error occurred during derivative calculation.")).

End WithEngine.

End MathUtilsExpr.

(** ** [Math.log] as V8 computes it

    ECMAScript leaves [Math.log] implementation-approximated.  V8 computes
    it by its port of fdlibm's [e_log.c]: the argument is reduced to
    [2^k * (1 + f)] with [sqrt(2)/2 < 1 + f < sqrt(2)], and [log(1 + f)] is
    a polynomial in [s = f / (2 + f)]; every operation below is the double
    operation of the C source, in its order. *)

Module V8.

Definition ln2_hi : number := 0x1.62e42fee00000p-1%float.
Definition ln2_lo : number := 0x1.a39ef35793c76p-33%float.
Definition two54 : number := 0x1p54%float.
Definition Lg1 : number := 0x1.5555555555593p-1%float.
Definition Lg2 : number := 0x1.999999997fa04p-2%float.
Definition Lg3 : number := 0x1.2492494229359p-2%float.
Definition Lg4 : number := 0x1.c71c51d8e78afp-3%float.
Definition Lg5 : number := 0x1.7466496cb03dep-3%float.
Definition Lg6 : number := 0x1.39a09d078c69fp-3%float.
Definition Lg7 : number := 0x1.2f112df3e5244p-3%float.

(** [(double) k] *)
Definition of_int (k : Z) : number :=
  match k with
  | Z0 => zero
  | Zpos p => SF2Prim (binary_normalize prec emax (Zpos p) 0 false)
  | Zneg p => SF2Prim (binary_normalize prec emax (Zneg p) 0 true)
  end.

(** [log(m * 2^e)] for a significand [2^52 <= m < 2^53], after [k0] was
    taken off the exponent.  [hx] is the high word of the significand. *)
Definition log_normal (k0 : Z) (m : positive) (e : Z) : number :=
  let hx := ((Zpos m - 2 ^ 52) / 2 ^ 32)%Z in
  let i := Z.land (hx + 0x95f64) 0x100000 in
  let k := (k0 + (e + 52) + Z.shiftr i 20)%Z in
  let x := SF2Prim (S754_finite false m (if (i =? 0)%Z then -52 else -53)) in
  let f := (x - 1)%float in
  let dk := of_int k in
  if (Z.land 0xfffff (2 + hx) <? 3)%Z then
    if (f =? 0)%float then
      if (k =? 0)%Z then zero else (dk * ln2_hi + dk * ln2_lo)%float
    else
      let R := (f * f * (0.5 - 0.33333333333333333 * f))%float in
      if (k =? 0)%Z then (f - R)%float
      else (dk * ln2_hi - ((R - dk * ln2_lo) - f))%float
  else
    let s := (f / (2 + f))%float in
    let z := (s * s)%float in
    let w := (z * z)%float in
    let t1 := (w * (Lg2 + w * (Lg4 + w * Lg6)))%float in
    let t2 := (z * (Lg1 + w * (Lg3 + w * (Lg5 + w * Lg7))))%float in
    let R := (t2 + t1)%float in
    if ((0x6147a <=? hx) && (hx <=? 0x6b851))%Z then
      let hfsq := (0.5 * f * f)%float in
      if (k =? 0)%Z then (f - (hfsq - s * (hfsq + R)))%float
      else (dk * ln2_hi - ((hfsq - (s * (hfsq + R) + dk * ln2_lo)) - f))%float
    else
      if (k =? 0)%Z then (f - s * (f - R))%float
      else (dk * ln2_hi - ((s * (f - R) - dk * ln2_lo) - f))%float.

Definition Math_log (x : number) : number :=
  match Prim2SF x with
  | S754_nan => nan
  | S754_infinity false => infinity
  | S754_infinity true => nan
  | S754_zero _ => neg_infinity
  | S754_finite true _ _ => nan
  | S754_finite false m e =>
      if (Zpos m <? 2 ^ 52)%Z then
        (* a subnormal number is scaled up by [2^54] first *)
        match Prim2SF (x * two54)%float with
        | S754_finite false m' e' => log_normal (-54) m' e'
        | _ => nan
        end
      else log_normal 0 m e
  end.

End V8.

(** ** A fragment of mathjs to run the library on

    The engine below knows a handful of expressions and evaluates them as
    mathjs does in its default configuration: the operators are the double
    operations, [abs] is [Math.abs], and [log] is [Math.log] on a number
    that is not negative and a Complex on a negative one.  [derivative]
    gives, for each of the expressions, the derivative mathjs prints.  The
    table stops there: another string is reported as a syntax error, the
    second derivatives of [1 / x] and [abs(x)] are not in it, and no
    arithmetic is done on a scope that is not a number (mathjs goes on in
    each of these cases; none of them occurs in a run below). *)

Module SampleEngine.

Inductive node :=
| Quadratic      (* x^2 + 3*x + 2 *)
| QuadraticD     (* 2 * x + 3 *)
| Square         (* x^2 - 2 *)
| SquareD        (* 2 * x *)
| Reciprocal     (* 1 / x *)
| ReciprocalD    (* -(1 / x ^ 2) *)
| HalfPlusOne    (* x / 2 + 1 *)
| Half           (* 1 / 2 *)
| Flat           (* 7 *)
| Two            (* 2 *)
| Zero           (* 0 *)
| Log            (* log(x) *)
| Abs            (* abs(x) *)
| AbsD           (* abs(x) / x *)
| Unbound.       (* y + 1 *)

Definition parse (expression : string) : completion node :=
  if String.eqb expression "x^2 + 3*x + 2" then Normal Quadratic
  else if String.eqb expression "2 * x + 3" then Normal QuadraticD
  else if String.eqb expression "x^2 - 2" then Normal Square
  else if String.eqb expression "2 * x" then Normal SquareD
  else if String.eqb expression "1 / x" then Normal Reciprocal
  else if String.eqb expression "-(1 / x ^ 2)" then Normal ReciprocalD
  else if String.eqb expression "x / 2 + 1" then Normal HalfPlusOne
  else if String.eqb expression "1 / 2" then Normal Half
  else if String.eqb expression "7" then Normal Flat
  else if String.eqb expression "2" then Normal Two
  else if String.eqb expression "0" then Normal Zero
  else if String.eqb expression "log(x)" then Normal Log
  else if String.eqb expression "abs(x)" then Normal Abs
  else if String.eqb expression "abs(x) / x" then Normal AbsD
  else if String.eqb expression "y + 1" then Normal Unbound
  else Throw (mkExn SyntaxErrorClass "Value expected (char 1)").

Definition print (n : node) : string :=
  match n with
  | Quadratic => "x^2 + 3*x + 2"
  | QuadraticD => "2 * x + 3"
  | Square => "x^2 - 2"
  | SquareD => "2 * x"
  | Reciprocal => "1 / x"
  | ReciprocalD => "-(1 / x ^ 2)"
  | HalfPlusOne => "x / 2 + 1"
  | Half => "1 / 2"
  | Flat => "7"
  | Two => "2"
  | Zero => "0"
  | Log => "log(x)"
  | Abs => "abs(x)"
  | AbsD => "abs(x) / x"
  | Unbound => "y + 1"
  end.

(** A Complex of mathjs: it has no method [toFixed], and it is NaN where
    it is used as a number.  The outcome of no run below depends on that
    number. *)
Definition complex : value :=
  VOther (mkForeign (Normal nan) None).

Definition value_at (n : node) (x : number) : completion value :=
  match n with
  | Quadratic => Normal (VNumber (x * x + 3 * x + 2)%float)
  | QuadraticD => Normal (VNumber (2 * x + 3)%float)
  | Square => Normal (VNumber (x * x - 2)%float)
  | SquareD => Normal (VNumber (2 * x)%float)
  | Reciprocal => Normal (VNumber (1 / x)%float)
  | ReciprocalD => Normal (VNumber (- (1 / (x * x)))%float)
  | HalfPlusOne => Normal (VNumber (x / 2 + 1)%float)
  | Half => Normal (VNumber (1 / 2)%float)
  | Flat => Normal (VNumber 7%float)
  | Two => Normal (VNumber 2%float)
  | Zero => Normal (VNumber 0%float)
  | Log =>
      if (0 <=? x)%float then Normal (VNumber (V8.Math_log x))
      else Normal complex
  | Abs => Normal (VNumber (Math_abs x))
  | AbsD => Normal (VNumber (Math_abs x / x)%float)
  | Unbound => Throw (mkExn PlainErrorClass "Undefined symbol y")
  end.

Definition value_in (n : node) (scope : value) : completion value :=
  match scope with
  | VNumber x => value_at n x
  | _ => Throw (mkExn TypeErrorClass "Unexpected type of argument")
  end.

Definition differentiate (expression variable : string) : completion node :=
  n <- parse expression ;;
  match n with
  | Quadratic => Normal QuadraticD
  | QuadraticD => Normal Two
  | Square => Normal SquareD
  | SquareD => Normal Two
  | Reciprocal => Normal ReciprocalD
  | HalfPlusOne => Normal Half
  | Log => Normal Reciprocal
  | Abs => Normal AbsD
  | Half | Flat | Two | Zero | Unbound => Normal Zero
  | ReciprocalD | AbsD =>
      Throw (mkExn PlainErrorClass "The sample goes no further")
  end.

(** The engine as the expression-driven variant uses it ... *)
Definition mathjs : engine value value :=
  {| MathNode := node;
     compile := parse;
     node_evaluate := value_in;
     evaluate := fun expression scope => n <- parse expression ;; value_in n scope;
     derivative := differentiate;
     node_toString := print |}.

(** ... and as [src/lib/math-utils.ts] does, which binds [x] to numbers and
    asks of a result whether it is a number. *)
Definition as_any (c : completion value) : completion any :=
  v <- c ;;
  match v with
  | VNumber r => Normal (Num r)
  | _ => Normal NotNum
  end.

Definition untyped : engine number any :=
  {| MathNode := node;
     compile := parse;
     node_evaluate := fun n x => as_any (value_at n x);
     evaluate := fun expression x => n <- parse expression ;; as_any (value_at n x);
     derivative := differentiate;
     node_toString := print |}.

End SampleEngine.

(** ** Reading a run of the loop

    [advance body k i s] is the state after [k] passes that all fell
    through, started at index [i] in state [s]; [None] when one of them
    threw or left with [break]. *)

Fixpoint advance {S} (body : Z -> S -> completion (pass S))
  (k : nat) (i : Z) (s : S) : option S :=
  match k with
  | O => Some s
  | Datatypes.S k' =>
      match body i s with
      | Normal (Next s') => advance body k' (i + 1) s'
      | _ => None
      end
  end.

(** The indices [first, first + 1, ...] of [count] consecutive passes. *)
Definition indices (first : Z) (count : nat) : list Z :=
  map (fun k => (first + Z.of_nat k)%Z) (seq 0 count).

(** ** The contracts, in the words of the specification *)

Module Contract.

(** [k] applications of a total step function. *)
Fixpoint iterate (step : number -> number) (k : nat) (x : number) : number :=
  match k with
  | O => x
  | S k' => iterate step k' (step x)
  end.

(** [k] applications of a step that may fail; the first failure is the
    outcome. *)
Fixpoint iterate_checked (step : number -> completion number)
  (k : nat) (x : number) : completion number :=
  match k with
  | O => Normal x
  | S k' => x' <- step x ;; iterate_checked step k' x'
  end.

Section NewtonContract.

Variable E : engine value value.
Variable expression : string.

(** [f(x)]: the expression evaluated at [x], used as a number. *)
Definition value_at (x : number) : completion number :=
  as_number (evaluate E expression (VNumber x)).

(** [f'(x)]: the expression is differentiated symbolically with respect to
    [x] and the derivative expression is evaluated at [x]. *)
Definition symbolic_derivative_at (x : number) : completion number :=
  d <- derivative E expression "x" ;;
  as_number (evaluate E (node_toString E d) (VNumber x)).

(** [x_{k+1} = x_k - f(x_k) / f'(x_k)] *)
Definition newton_step (x : number) : completion number :=
  fx <- value_at x ;;
  dfx <- symbolic_derivative_at x ;;
  Normal (x - fx / dfx)%float.

End NewtonContract.

(** The hard-wired target: [x_{k+1} = x_k - (ln(x_k) - 1) / (1 / x_k)]. *)
Definition newton_step_ln (ln : number -> number) (x : number) : number :=
  (x - (ln x - 1) / (1 / x))%float.

(** Valid configuration inputs. *)
Definition valid_iterations (iterations : Z) : Prop :=
  (1 <= iterations <= 1000)%Z.

Definition valid_precision (precision : Z) : Prop :=
  (1 <= precision <= 15)%Z.

(** The [iteration] fields form the contiguous run [1..k], [k] the length. *)
Definition numbered_run (rs : list IterationResult) : Prop :=
  map iteration rs = map Z.of_nat (seq 1 (Datatypes.length rs)).

(** At most [iterations] records, numbered [1..k]. *)
Definition bounded_run (iterations : Z) (rs : list IterationResult) : Prop :=
  (Z.of_nat (Datatypes.length rs) <= iterations)%Z /\ numbered_run rs.

(** Exactly [iterations] records, numbered [1..iterations]. *)
Definition full_run (iterations : Z) (rs : list IterationResult) : Prop :=
  Z.of_nat (Datatypes.length rs) = iterations /\ numbered_run rs.

(** The record of the completed step number [i] that went from [prev] to
    [next]: both stored fields are roundings, of [next] and of the
    percentage change. *)
Definition step_record (precision : Z) (i : Z) (prev next : number)
  (r : IterationResult) : Prop :=
  iteration r = i
  /\ toFixed_parseFloat next precision = Normal (approximation r)
  /\ exists relErr,
       toFixed_parseFloat (percent_change next prev) precision = Normal relErr
       /\ relativeError r = Some relErr.

(** [|next - prev| / |next| * 100] *)
Definition relative_error_percent (next prev : number) : number :=
  (Math_abs (next - prev) / Math_abs next * 100)%float.

(** [|approx - symbolic| / |symbolic| * 100] *)
Definition error_percent (approx symbolic : number) : number :=
  (Math_abs (approx - symbolic) / Math_abs symbolic * 100)%float.

(** The error of a finite-difference estimate: computed only when there is a
    symbolic value with [|symbolic| >= 1e-10], null otherwise. *)
Definition error_or_null (approx : number) (symbolic : option number)
  : option number :=
  match symbolic with
  | Some s =>
      if (1e-10 <=? Math_abs s)%float then Some (error_percent approx s)
      else None
  | None => None
  end.

(** A stored field that went through the rounding to [precision] digits. *)
Definition rounded_to (precision : Z) (v : number) : Prop :=
  exists raw, toFixed_parseFloat raw precision = Normal v.

Definition rounded_or_null (precision : Z) (v : option number) : Prop :=
  match v with
  | Some x => rounded_to precision x
  | None => True
  end.

End Contract.

(** ** Where a run stands, and what its passes append *)

Section ExprNewtonReading.

Variable E : engine value value.
Variable expression : string.
Variable precision : Z.
Variable x0 : number.

(** The record appended by the pass of index [i]: it is the record of the
    Newton step taken from the iterate [x_(i-1)] of the contract. *)
Definition expr_newton_record (i : Z) (r : IterationResult) : Prop :=
  exists k xk xk1,
    i = (1 + Z.of_nat k)%Z
    /\ Contract.iterate_checked (Contract.newton_step E expression) k x0
       = Normal xk
    /\ Contract.newton_step E expression xk = Normal xk1
    /\ Contract.step_record precision i xk xk1 r.

Definition expr_newton_at (i : Z) (s : MathUtilsExpr.nr_state) : Prop :=
  exists k,
    i = (1 + Z.of_nat k)%Z
    /\ Contract.iterate_checked (Contract.newton_step E expression) k x0
       = Normal (MathUtilsExpr.nr_x s).

End ExprNewtonReading.

Section HardWiredNewtonReading.

Variable Math_log : number -> number.
Variable precision : Z.
Variable x0 : number.

(** The record appended by a pass of index [i] that fell through. *)
Definition hardwired_newton_record (i : Z) (r : IterationResult) : Prop :=
  exists k,
    i = (1 + Z.of_nat k)%Z
    /\ Contract.step_record precision i
         (Contract.iterate (Contract.newton_step_ln Math_log) k x0)
         (Contract.iterate (Contract.newton_step_ln Math_log) (S k) x0) r.

Definition hardwired_newton_at (i : Z) (s : MathUtils.nr_state) : Prop :=
  exists k,
    i = (1 + Z.of_nat k)%Z
    /\ MathUtils.nr_x s = Contract.iterate (Contract.newton_step_ln Math_log) k x0.

End HardWiredNewtonReading.

(** The record the hard-wired variant appends when it leaves the loop on a
    degenerate step: the current point as it is, and no error. *)
Definition degenerate_marker (i : Z) (x : number) : IterationResult :=
  mkIterationResult i x None.

(** Before the pass of index [i]: no previous point on the first pass only. *)
Definition first_pass_only (i : Z) (prevX : option number) : Prop :=
  (i = 1%Z /\ prevX = None) \/ ((1 < i)%Z /\ prevX <> None).

(** The same in the expression-driven variant, where the previous point is
    a value, and the current point is never [null]. *)
Definition first_pass_only_any (i : Z) (s : MathUtilsExpr.fp_state) : Prop :=
  ((i = 1%Z /\ MathUtilsExpr.fp_prevX s = VNull)
   \/ ((1 < i)%Z /\ MathUtilsExpr.fp_prevX s <> VNull))
  /\ MathUtilsExpr.fp_x s <> VNull.

(** The record of the pass of index [i] has no error on the first pass only. *)
Definition null_on_first_only (i : Z) (r : IterationResult) : Prop :=
  relativeError r = None <-> i = 1%Z.

(** ** The rest of the library and the forms that call it *)

(** [getErrorColor], the same in both variants. *)
Definition getErrorColor (error : option number) : string :=
  match error with
  | None => "text-muted-foreground"
  | Some e =>
      if (e <? 1)%float then "text-green-600"
      else if (e <? 10)%float then "text-yellow-600"
      else "text-red-600"
  end.

(** The recurrences behind Fixed-Point Iteration and the secant method, on
    the unrounded points. *)
Module Recurrence.

Fixpoint steps {A : Type} (step : A -> completion A) (k : nat) (a : A)
  : completion A :=
  match k with
  | O => Normal a
  | S k' => a' <- step a ;; steps step k' a'
  end.

(** A step that cannot fail. *)
Definition total {A : Type} (step : A -> A) (a : A) : completion A :=
  Normal (step a).

(** [x_next = x1 - f(x1) * (x1 - x0) / (f(x1) - f(x0))] *)
Definition secant_next (fx0 fx1 x0 x1 : number) : number :=
  (x1 - fx1 * (x1 - x0) / (fx1 - fx0))%float.

(** One secant step on the pair [(x0, x1)]: [f] at [x0], then at [x1], then
    the shift [x0 <- x1], [x1 <- x_next]. *)
Definition secant_step (f : number -> completion number)
  (points : number * number) : completion (number * number) :=
  fx0 <- f (fst points) ;;
  fx1 <- f (snd points) ;;
  Normal (snd points, secant_next fx0 fx1 (fst points) (snd points)).

(** The record of the [k+1]-th pass of Fixed-Point Iteration, which went
    from [prev] to [next]: no error on the first pass. *)
Definition fixed_point_record (precision : Z) (k : nat) (prev next : number)
  (r : IterationResult) : Prop :=
  iteration r = (1 + Z.of_nat k)%Z
  /\ toFixed_parseFloat next precision = Normal (approximation r)
  /\ round_nullable
       (match k with
        | O => None
        | S _ => Some (percent_change next prev)
        end) precision = Normal (relativeError r).

(** The same record in the expression-driven variant, whose points are the
    values the engine returned. *)
Definition fixed_point_record_any (precision : Z) (k : nat) (prev next : value)
  (r : IterationResult) : Prop :=
  iteration r = (1 + Z.of_nat k)%Z
  /\ call_toFixed "nextX" next precision = Normal (approximation r)
  /\ match k with
     | O => relativeError r = None
     | S _ =>
         exists change,
           percent_change_any next prev = Normal change
           /\ round_nullable (Some change) precision = Normal (relativeError r)
     end.

(** [k] steps from the number [x], every one of which gave a number. *)
Fixpoint number_steps (step : value -> completion value) (k : nat) (x : number)
  : option number :=
  match k with
  | O => Some x
  | S k' =>
      match step (VNumber x) with
      | Normal (VNumber x') => number_steps step k' x'
      | _ => None
      end
  end.

End Recurrence.

(** The form [ApproximateE] ([components/approximate-e.tsx]) and the form
    [ApproximateDerivative] ([components/approximate-derivative.tsx]): what
    a submission leaves in the component state, and the toasts it raises. *)
Module Forms.

Inductive method :=
| fixed_point
| newton_raphson
| secant.

Record toast := mkToast
  { destructive : bool;
    title : string;
    description : string }.

(** The state [results] / [error] after the handler, and the toasts. *)
Record view (R : Type) := mkView
  { results : option R;
    error : option string;
    toasts : list toast }.

Arguments mkView {R} results error toasts.

(** [e.message || "Unknown error"] *)
Definition message_or_unknown (e : exn) : string :=
  if String.eqb (exn_message e) "" then "Unknown error" else exn_message e.

(** The [catch] block shared by the three [onSubmit] handlers; [results]
    and [error] were reset to null on entry. *)
Definition calculation_failed {R} (toast_prefix : string) (e : exn)
  : completion (view R) :=
  Normal (mkView None
            (Some ("Calculation failed: " ++ message_or_unknown e)%string)
            [mkToast true "Calculation Error"
               (toast_prefix ++ message_or_unknown e)%string]).

(** *** The expression-driven [ApproximateE] *)

Record FormData := mkFormData
  { form_method : method;
    functionExpression : string;
    initialGuess1 : number;
    initialGuess2 : option number;
    form_iterations : Z;
    form_precision : Z }.

(** [compile] returns an object, so the test [!compiledExpr] never throws;
    the closure [df] is built for Newton-Raphson only and never called, so
    the test [!df] never throws either.  The schema lets [method] take the
    three values only. *)
Definition onSubmit (E : engine value value) (values : FormData)
  : completion (view (list IterationResult)) :=
  try_catch
    (let expr := functionExpression values in
     compiledExpr <- compile E expr ;;
     calculatedResults <-
       match form_method values with
       | fixed_point =>
           MathUtilsExpr.fixedPointIteration E expr (initialGuess1 values)
             (form_iterations values) (form_precision values)
       | newton_raphson =>
           MathUtilsExpr.newtonRaphson E expr (initialGuess1 values)
             (form_iterations values) (form_precision values)
       | secant =>
           match initialGuess2 values with
           | None =>
               Throw (mkExn PlainErrorClass
                        "Second initial guess (x1) is required for Secant method")
           | Some guess2 =>
               MathUtilsExpr.secantMethod E expr (initialGuess1 values) guess2
                 (form_iterations values) (form_precision values)
           end
       end ;;
     Normal (mkView (Some calculatedResults) None []))
    (calculation_failed "Failed to calculate approximation: ").

(** *** The hard-wired [ApproximateE] *)

Record FormDataE := mkFormDataE
  { e_method : method;
    e_initialGuess1 : number;
    e_initialGuess2 : option number;
    e_iterations : Z;
    e_precision : Z }.

Definition onSubmitE (Math_log : number -> number) (values : FormDataE)
  : completion (view (list IterationResult)) :=
  try_catch
    (let targetValue := 0%float in
     match e_method values, e_initialGuess2 values with
     | fixed_point, _ =>
         calculatedResults <-
           MathUtils.fixedPointIteration Math_log (e_initialGuess1 values)
             (e_iterations values) targetValue (e_precision values) ;;
         Normal (mkView (Some calculatedResults) None [])
     | newton_raphson, _ =>
         calculatedResults <-
           MathUtils.newtonRaphson Math_log (e_initialGuess1 values)
             (e_iterations values) targetValue (e_precision values) ;;
         Normal (mkView (Some calculatedResults) None [])
     | secant, Some guess2 =>
         calculatedResults <-
           MathUtils.secantMethod Math_log (e_initialGuess1 values) guess2
             (e_iterations values) targetValue (e_precision values) ;;
         Normal (mkView (Some calculatedResults) None [])
     | secant, None =>
         Normal (mkView None
                   (Some "Invalid method or missing input for Secant method."%string)
                   [])
     end)
    (calculation_failed "Failed to calculate approximation: ").

(** [results && results.length > 0
      ? results[results.length - 1].approximation : null] *)
Definition finalApproximation (results : option (list IterationResult))
  : option number :=
  match results with
  | None => None
  | Some rs =>
      if (0 <? Datatypes.length rs)%nat
      then option_map approximation (nth_error rs (Datatypes.length rs - 1))
      else None
  end.

(** *** [ApproximateDerivative] *)

Record FormDataD := mkFormDataD
  { d_expression : string;
    d_guessValue : number;
    d_h : number;
    d_precision : Z }.

(** The handler, over whichever [approximateDerivative] the build links. *)
Definition onSubmitD
  (approximateDerivative :
     string -> number -> number -> Z -> completion derivative_outcome)
  (values : FormDataD) : completion (view DerivativeResult) :=
  try_catch
    (calculationResult <-
       approximateDerivative (d_expression values) (d_guessValue values)
         (d_h values) (d_precision values) ;;
     match calculationResult with
     | ErrorObject message =>
         Normal (mkView None (Some message)
                   [mkToast true "Calculation Error" message])
     | Result r => Normal (mkView (Some r) None [])
     end)
    (calculation_failed "Calculation failed: ").

End Forms.

(** * Facts *)

(** ** The rounding never throws on a precision [toFixed] accepts *)

Lemma toFixed_parseFloat_total (x : number) (p : Z) :
  (0 <= p <= 100)%Z -> exists r, toFixed_parseFloat x p = Normal r.
Proof.
  intros Hp. unfold toFixed_parseFloat.
  replace ((p <? 0)%Z || (100 <? p)%Z) with false
    by (symmetry; apply orb_false_intro; apply Z.ltb_ge; lia).
  destruct (Prim2SF x) as [s | s | | s m e]; eauto.
  destruct (at_least_1e21 m e); eauto.
Qed.

Lemma toFixed_parseFloat_throws (x : number) (p : Z) (e : exn) :
  toFixed_parseFloat x p = Throw e ->
  e = toFixed_range_error /\ ((p < 0)%Z \/ (100 < p)%Z).
Proof.
  unfold toFixed_parseFloat.
  destruct (p <? 0)%Z eqn:Hlo; simpl.
  - intros [= <-]. split; [reflexivity | left; now apply Z.ltb_lt].
  - destruct (100 <? p)%Z eqn:Hhi; simpl.
    + intros [= <-]. split; [reflexivity | right; now apply Z.ltb_lt].
    + destruct (Prim2SF x) as [s | s | | s m ex]; try discriminate.
      destruct (at_least_1e21 m ex); discriminate.
Qed.

Lemma round_nullable_total (v : option number) (p : Z) :
  (0 <= p <= 100)%Z ->
  exists r, round_nullable v p = Normal r /\ (r = None <-> v = None).
Proof.
  intros Hp. destruct v as [x |]; simpl.
  - destruct (toFixed_parseFloat_total x Hp) as [r ->]. simpl.
    eexists; split; [reflexivity | split; discriminate].
  - eexists; split; [reflexivity | tauto].
Qed.

Lemma round_nullable_Normal (v r : option number) (p : Z) :
  round_nullable v p = Normal r ->
  match v, r with
  | Some x, Some y => toFixed_parseFloat x p = Normal y
  | None, None => True
  | _, _ => False
  end.
Proof.
  destruct v as [x |]; simpl.
  - destruct (toFixed_parseFloat x p) as [y | e]; simpl; [| discriminate].
    now intros [= <-].
  - now intros [= <-].
Qed.

(** ** The counted loop *)

Section LoopFacts.

Context {S : Type} (body : Z -> S -> completion (pass S)).

Lemma advance_for_loop (k : nat) : forall i s sk,
  advance body k i s = Some sk -> for_loop body k i s = Normal sk.
Proof.
  induction k as [| k IH]; intros i s sk; simpl.
  - now intros [= ->].
  - destruct (body i s) as [[s1 | s1] | e]; simpl; try discriminate.
    apply IH.
Qed.

Lemma for_loop_break (n : nat) : forall k i s sk s',
  (k < n)%nat ->
  advance body k i s = Some sk ->
  body (i + Z.of_nat k)%Z sk = Normal (Break s') ->
  for_loop body n i s = Normal s'.
Proof.
  induction n as [| n IH]; intros k i s sk s' Hk Hadv Hbody; [lia |].
  destruct k as [| k]; simpl in Hadv |- *.
  - injection Hadv as ->. rewrite Z.add_0_r in Hbody. now rewrite Hbody.
  - destruct (body i s) as [[s1 | s1] | e]; simpl; try discriminate.
    apply (IH k (i + 1)%Z s1 sk s'); [lia | assumption |].
    rewrite <- Hbody. f_equal. lia.
Qed.

Lemma for_loop_throw (n : nat) : forall k i s sk e,
  (k < n)%nat ->
  advance body k i s = Some sk ->
  body (i + Z.of_nat k)%Z sk = Throw e ->
  for_loop body n i s = Throw e.
Proof.
  induction n as [| n IH]; intros k i s sk e Hk Hadv Hbody; [lia |].
  destruct k as [| k]; simpl in Hadv |- *.
  - injection Hadv as ->. rewrite Z.add_0_r in Hbody. now rewrite Hbody.
  - destruct (body i s) as [[s1 | s1] | e1]; simpl; try discriminate.
    apply (IH k (i + 1)%Z s1 sk e); [lia | assumption |].
    rewrite <- Hbody. f_equal. lia.
Qed.

(** A loop that returns either made all its passes or left with [break]. *)
Lemma for_loop_Normal_inv (n : nat) : forall i s s',
  for_loop body n i s = Normal s' ->
  advance body n i s = Some s'
  \/ exists k sk, (k < n)%nat /\ advance body k i s = Some sk
                  /\ body (i + Z.of_nat k)%Z sk = Normal (Break s').
Proof.
  induction n as [| n IH]; intros i s s'; simpl.
  - intros [= ->]. now left.
  - destruct (body i s) as [[s1 | s1] | e] eqn:Hbody; simpl; try discriminate.
    + intros Hloop. destruct (IH _ _ _ Hloop) as [Hall | (k & sk & Hk & Hadv & Hbrk)].
      * now left.
      * right. exists (Datatypes.S k), sk. split; [lia |]. split.
        -- simpl. now rewrite Hbody.
        -- rewrite <- Hbrk. f_equal. lia.
    + intros [= ->]. right. exists O, s. split; [lia |]. split; [reflexivity |].
      now rewrite Z.add_0_r.
Qed.

(** A loop whose passes never throw returns. *)
Lemma for_loop_total (Inv : Z -> S -> Prop) :
  (forall i s, Inv i s ->
     exists r, body i s = Normal r
               /\ forall s', r = Next s' -> Inv (i + 1)%Z s') ->
  forall n i s, Inv i s -> exists s', for_loop body n i s = Normal s'.
Proof.
  intros Hbody. induction n as [| n IH]; intros i s Hinv; simpl.
  - eauto.
  - destruct (Hbody i s Hinv) as (r & -> & Hr). simpl.
    destruct r as [s1 | s1]; [| eauto].
    apply IH. now apply Hr.
Qed.

Section Records.

Variable results : S -> list IterationResult.
Variable Inv : Z -> S -> Prop.
Variable P : Z -> IterationResult -> Prop.

Hypothesis Hnext : forall i s s',
  Inv i s -> body i s = Normal (Next s') ->
  Inv (i + 1)%Z s' /\ exists r, results s' = results s ++ [r] /\ P i r.

(** [k] passes that fell through appended [k] records, the [j]-th of them
    by the pass of index [i + j]. *)
Lemma advance_records (k : nat) : forall i s sk,
  Inv i s -> advance body k i s = Some sk ->
  Inv (i + Z.of_nat k)%Z sk
  /\ exists new, results sk = results s ++ new /\ Datatypes.length new = k
       /\ forall j r, nth_error new j = Some r -> P (i + Z.of_nat j)%Z r.
Proof.
  induction k as [| k IH]; intros i s sk Hinv; simpl advance.
  - intros [= <-]. split; [now rewrite Z.add_0_r |].
    exists []. rewrite app_nil_r. repeat split.
    intros [| j] r; discriminate.
  - destruct (body i s) as [[s1 | s1] | e] eqn:Hbody; try discriminate.
    intros Hadv. destruct (Hnext Hinv Hbody) as (Hinv1 & r1 & Hres1 & HP1).
    destruct (IH _ _ _ Hinv1 Hadv) as (Hinvk & new & Hres & Hlen & Hnew).
    split.
    + replace (i + Z.of_nat (Datatypes.S k))%Z with (i + 1 + Z.of_nat k)%Z by lia.
      assumption.
    + exists (r1 :: new). split; [| split].
      * rewrite Hres, Hres1, <- app_assoc. reflexivity.
      * simpl. now rewrite Hlen.
      * intros [| j] r; simpl nth_error.
        -- intros [= <-]. now rewrite Z.add_0_r.
        -- intros Hj. apply Hnew in Hj.
           replace (i + Z.of_nat (Datatypes.S j))%Z with (i + 1 + Z.of_nat j)%Z by lia.
           assumption.
Qed.

End Records.

End LoopFacts.

(** Records numbered by their pass carry the indices of the passes. *)
Lemma map_iteration_indices (first : Z) (rs : list IterationResult) :
  (forall j r, nth_error rs j = Some r -> iteration r = (first + Z.of_nat j)%Z) ->
  map iteration rs = indices first (Datatypes.length rs).
Proof.
  revert first. induction rs as [| r rs IH]; intros first Hrs; [reflexivity |].
  unfold indices. simpl. rewrite <- seq_shift, map_map. f_equal.
  - apply (Hrs O r). reflexivity.
  - rewrite (IH (first + 1)%Z).
    + unfold indices. apply map_ext. intros k. lia.
    + intros j r' Hj. rewrite (Hrs (Datatypes.S j) r' Hj). lia.
Qed.

Lemma indices_snoc (first : Z) (count : nat) :
  indices first (S count) = indices first count ++ [(first + Z.of_nat count)%Z].
Proof.
  unfold indices. rewrite seq_S, map_app. reflexivity.
Qed.

Lemma indices_from_1 (count : nat) :
  indices 1 count = map Z.of_nat (seq 1 count).
Proof.
  unfold indices. rewrite <- seq_shift, map_map.
  apply map_ext. intros k. lia.
Qed.

(** Case analysis on the outcome of a pass: every call that can throw and
    every guard is split, and the impossible branches are closed. *)
Ltac split_pass H :=
  repeat match type of H with
    | bind ?c _ = _ =>
        let v := fresh "v" in
        let e := fresh "e" in
        let Hc := fresh "Hcall" in
        destruct c as [v | e] eqn:Hc; simpl bind in H; try discriminate H
    | (if ?b then _ else _) = _ =>
        let Hb := fresh "Hguard" in
        destruct b eqn:Hb; try discriminate H
    end.

(** ** Passes of the hard-wired root finders *)

Section HardWiredPasses.

Variable Math_log : number -> number.
Variable precision : Z.

Lemma hardwired_fixedPoint_Next (i : Z) (s s' : MathUtils.fp_state) :
  MathUtils.fixedPointIteration_pass Math_log precision i s = Normal (Next s') ->
  let nextX := MathUtils.G Math_log (MathUtils.fp_x s) in
  exists approx relErr,
    toFixed_parseFloat nextX precision = Normal approx
    /\ round_nullable
         (match MathUtils.fp_prevX s with
          | Some _ => Some (percent_change nextX (MathUtils.fp_x s))
          | None => None
          end) precision = Normal relErr
    /\ s' = MathUtils.mkFp nextX (Some (MathUtils.fp_x s))
              (MathUtils.fp_results s ++ [mkIterationResult i approx relErr]).
Proof.
  unfold MathUtils.fixedPointIteration_pass. intros H. split_pass H.
  injection H as <-. eauto.
Qed.

Lemma hardwired_fixedPoint_no_Break (i : Z) (s s' : MathUtils.fp_state) :
  MathUtils.fixedPointIteration_pass Math_log precision i s <> Normal (Break s').
Proof.
  unfold MathUtils.fixedPointIteration_pass. intros H. split_pass H.
Qed.

Lemma hardwired_fixedPoint_total (i : Z) (s : MathUtils.fp_state) :
  (0 <= precision <= 100)%Z ->
  exists s', MathUtils.fixedPointIteration_pass Math_log precision i s
             = Normal (Next s').
Proof.
  intros Hp. unfold MathUtils.fixedPointIteration_pass.
  destruct (toFixed_parseFloat_total (MathUtils.G Math_log (MathUtils.fp_x s)) Hp)
    as [approx ->]. simpl.
  match goal with
  | |- context [round_nullable ?v precision] =>
      destruct (round_nullable_total v Hp) as (relErr & -> & _)
  end.
  simpl. eauto.
Qed.

Lemma hardwired_newton_Next (i : Z) (s s' : MathUtils.nr_state) :
  MathUtils.newtonRaphson_pass Math_log precision i s = Normal (Next s') ->
  let x := MathUtils.nr_x s in
  let nextX := (x - MathUtils.f Math_log x / MathUtils.fPrime x)%float in
  exists approx relErr,
    (Math_abs (MathUtils.fPrime x) <? 1e-10)%float = false
    /\ toFixed_parseFloat nextX precision = Normal approx
    /\ toFixed_parseFloat (percent_change nextX x) precision = Normal relErr
    /\ s' = MathUtils.mkNr nextX
              (MathUtils.nr_results s ++ [mkIterationResult i approx (Some relErr)]).
Proof.
  unfold MathUtils.newtonRaphson_pass. intros H. split_pass H.
  injection H as <-. eauto 6.
Qed.

Lemma hardwired_newton_Break (i : Z) (s s' : MathUtils.nr_state) :
  MathUtils.newtonRaphson_pass Math_log precision i s = Normal (Break s') ->
  let x := MathUtils.nr_x s in
  (Math_abs (MathUtils.fPrime x) <? 1e-10)%float = true
  /\ s' = MathUtils.mkNr x
            (MathUtils.nr_results s ++ [mkIterationResult i x None]).
Proof.
  unfold MathUtils.newtonRaphson_pass. intros H. split_pass H.
  injection H as <-. split; reflexivity.
Qed.

Lemma hardwired_newton_total (i : Z) (s : MathUtils.nr_state) :
  (0 <= precision <= 100)%Z ->
  exists r, MathUtils.newtonRaphson_pass Math_log precision i s = Normal r.
Proof.
  intros Hp. unfold MathUtils.newtonRaphson_pass.
  destruct (Math_abs _ <? _)%float; [eauto |].
  match goal with
  | |- context [bind (toFixed_parseFloat ?v precision) _] =>
      destruct (toFixed_parseFloat_total v Hp) as [approx ->]
  end. simpl.
  match goal with
  | |- context [bind (toFixed_parseFloat ?v precision) _] =>
      destruct (toFixed_parseFloat_total v Hp) as [relErr ->]
  end. simpl. eauto.
Qed.

Lemma hardwired_secant_Next (i : Z) (s s' : MathUtils.sec_state) :
  MathUtils.secantMethod_pass Math_log precision i s = Normal (Next s') ->
  let x0 := MathUtils.sec_x0 s in
  let x1 := MathUtils.sec_x1 s in
  let fx0 := MathUtils.f Math_log x0 in
  let fx1 := MathUtils.f Math_log x1 in
  let nextX := (x1 - fx1 * (x1 - x0) / (fx1 - fx0))%float in
  exists approx relErr,
    (Math_abs (fx1 - fx0) <? 1e-10)%float = false
    /\ toFixed_parseFloat nextX precision = Normal approx
    /\ toFixed_parseFloat (percent_change nextX x1) precision = Normal relErr
    /\ s' = MathUtils.mkSec x1 nextX
              (MathUtils.sec_results s ++ [mkIterationResult i approx (Some relErr)]).
Proof.
  unfold MathUtils.secantMethod_pass. intros H. split_pass H.
  injection H as <-. eauto 6.
Qed.

Lemma hardwired_secant_Break (i : Z) (s s' : MathUtils.sec_state) :
  MathUtils.secantMethod_pass Math_log precision i s = Normal (Break s') ->
  let x0 := MathUtils.sec_x0 s in
  let x1 := MathUtils.sec_x1 s in
  (Math_abs (MathUtils.f Math_log x1 - MathUtils.f Math_log x0) <? 1e-10)%float
  = true
  /\ s' = MathUtils.mkSec x0 x1
            (MathUtils.sec_results s ++ [mkIterationResult i x1 None]).
Proof.
  unfold MathUtils.secantMethod_pass. intros H. split_pass H.
  injection H as <-. split; reflexivity.
Qed.

Lemma hardwired_secant_total (i : Z) (s : MathUtils.sec_state) :
  (0 <= precision <= 100)%Z ->
  exists r, MathUtils.secantMethod_pass Math_log precision i s = Normal r.
Proof.
  intros Hp. unfold MathUtils.secantMethod_pass.
  destruct (Math_abs _ <? _)%float; [eauto |].
  match goal with
  | |- context [bind (toFixed_parseFloat ?v precision) _] =>
      destruct (toFixed_parseFloat_total v Hp) as [approx ->]
  end. simpl.
  match goal with
  | |- context [bind (toFixed_parseFloat ?v precision) _] =>
      destruct (toFixed_parseFloat_total v Hp) as [relErr ->]
  end. simpl. eauto.
Qed.

End HardWiredPasses.

(** ** Values used as numbers *)

Lemma as_number_Normal (c : completion value) (a : number) :
  as_number c = Normal a <-> exists v, c = Normal v /\ to_number v = Normal a.
Proof.
  unfold as_number. destruct c as [v | e]; simpl.
  - split; [eauto | now intros (v' & [= <-] & H)].
  - split; [discriminate | now intros (v' & [=] & _)].
Qed.

Lemma Math_abs_of_Normal (v : value) (m : number) :
  Math_abs_of v = Normal m <-> exists a, to_number v = Normal a /\ m = Math_abs a.
Proof.
  unfold Math_abs_of. destruct (to_number v) as [a | e]; simpl.
  - split; [intros [= <-]; eauto | now intros (a' & [= <-] & ->)].
  - split; [discriminate | now intros (a' & [=] & _)].
Qed.

Lemma js_sub_Normal (l r : value) (d : number) :
  js_sub l r = Normal d
  <-> exists a b, to_number l = Normal a /\ to_number r = Normal b
                  /\ d = (a - b)%float.
Proof.
  unfold js_sub.
  destruct (to_number l) as [a | e]; simpl;
    [destruct (to_number r) as [b | e]; simpl |].
  - split; [intros [= <-]; eauto | now intros (a' & b' & [= <-] & [= <-] & ->)].
  - split; [discriminate | now intros (a' & b' & _ & [=] & _)].
  - split; [discriminate | now intros (a' & b' & [=] & _)].
Qed.

Lemma js_mul_Normal (l r : value) (d : number) :
  js_mul l r = Normal d
  <-> exists a b, to_number l = Normal a /\ to_number r = Normal b
                  /\ d = (a * b)%float.
Proof.
  unfold js_mul.
  destruct (to_number l) as [a | e]; simpl;
    [destruct (to_number r) as [b | e]; simpl |].
  - split; [intros [= <-]; eauto | now intros (a' & b' & [= <-] & [= <-] & ->)].
  - split; [discriminate | now intros (a' & b' & _ & [=] & _)].
  - split; [discriminate | now intros (a' & b' & [=] & _)].
Qed.

Lemma js_div_Normal (l r : value) (d : number) :
  js_div l r = Normal d
  <-> exists a b, to_number l = Normal a /\ to_number r = Normal b
                  /\ d = (a / b)%float.
Proof.
  unfold js_div.
  destruct (to_number l) as [a | e]; simpl;
    [destruct (to_number r) as [b | e]; simpl |].
  - split; [intros [= <-]; eauto | now intros (a' & b' & [= <-] & [= <-] & ->)].
  - split; [discriminate | now intros (a' & b' & _ & [=] & _)].
  - split; [discriminate | now intros (a' & b' & [=] & _)].
Qed.

(** A value whose [toFixed] was called without a throw is not [null]. *)
Lemma call_toFixed_not_null (receiver : string) (v : value) (p : Z) (a : number) :
  call_toFixed receiver v p = Normal a -> v <> VNull.
Proof. intros H ->. discriminate. Qed.

(** ** Passes of the expression-driven root finders *)

Section ExprPasses.

Variable E : engine value value.
Variable expression : string.
Variable precision : Z.

Lemma expr_fixedPoint_Next (i : Z) (s s' : MathUtilsExpr.fp_state) :
  MathUtilsExpr.fixedPointIteration_pass E expression precision i s
  = Normal (Next s') ->
  exists nextX approx relativeError relErr,
    evaluate E expression (MathUtilsExpr.fp_x s) = Normal nextX
    /\ match MathUtilsExpr.fp_prevX s with
       | VNull => Normal None
       | _ =>
           e <- percent_change_any nextX (MathUtilsExpr.fp_x s) ;;
           Normal (Some e)
       end = Normal relativeError
    /\ call_toFixed "nextX" nextX precision = Normal approx
    /\ round_nullable relativeError precision = Normal relErr
    /\ s' = MathUtilsExpr.mkFp nextX (MathUtilsExpr.fp_x s)
              (MathUtilsExpr.fp_results s ++ [mkIterationResult i approx relErr]).
Proof.
  unfold MathUtilsExpr.fixedPointIteration_pass. intros H. split_pass H.
  injection H as <-. eauto 10.
Qed.

Lemma expr_fixedPoint_no_Break (i : Z) (s s' : MathUtilsExpr.fp_state) :
  MathUtilsExpr.fixedPointIteration_pass E expression precision i s
  <> Normal (Break s').
Proof.
  unfold MathUtilsExpr.fixedPointIteration_pass. intros H. split_pass H.
Qed.

(** What a pass of Newton-Raphson got from the engine, used as numbers. *)
Lemma expr_newton_calls (x : number) (fx fpx : value) (magnitude : number) :
  evaluate E expression (VNumber x) = Normal fx ->
  MathUtilsExpr.fPrime E expression x = Normal fpx ->
  Math_abs_of fpx = Normal magnitude ->
  exists b,
    as_number (MathUtilsExpr.fPrime E expression x) = Normal b
    /\ to_number fpx = Normal b
    /\ magnitude = Math_abs b.
Proof.
  intros Hfx Hfpx Hm. apply Math_abs_of_Normal in Hm.
  destruct Hm as (b & Hb & ->). exists b. split; [| auto].
  apply as_number_Normal. eauto.
Qed.

Lemma expr_newton_Next (i : Z) (s s' : MathUtilsExpr.nr_state) :
  MathUtilsExpr.newtonRaphson_pass E expression precision i s
  = Normal (Next s') ->
  let x := MathUtilsExpr.nr_x s in
  exists fx fpx approx relErr,
    as_number (evaluate E expression (VNumber x)) = Normal fx
    /\ as_number (MathUtilsExpr.fPrime E expression x) = Normal fpx
    /\ (Math_abs fpx <? 1e-10)%float = false
    /\ toFixed_parseFloat (x - fx / fpx)%float precision = Normal approx
    /\ toFixed_parseFloat (percent_change (x - fx / fpx)%float x) precision
       = Normal relErr
    /\ s' = MathUtilsExpr.mkNr (x - fx / fpx)%float
              (MathUtilsExpr.nr_results s
               ++ [mkIterationResult i approx (Some relErr)]).
Proof.
  unfold MathUtilsExpr.newtonRaphson_pass. intros H. split_pass H.
  injection H as <-.
  destruct (expr_newton_calls _ Hcall Hcall0 Hcall1) as (b & Hb & Hb' & ->).
  apply js_div_Normal in Hcall2.
  destruct Hcall2 as (a & b' & Ha & Hb'' & ->).
  rewrite Hb' in Hb''. injection Hb'' as <-.
  exists a, b, v3, v4.
  repeat split; try assumption; try (apply as_number_Normal; eauto).
Qed.

Lemma expr_newton_Break (i : Z) (s s' : MathUtilsExpr.nr_state) :
  MathUtilsExpr.newtonRaphson_pass E expression precision i s
  = Normal (Break s') ->
  s' = s.
Proof.
  unfold MathUtilsExpr.newtonRaphson_pass. intros H. split_pass H.
  now injection H as <-.
Qed.

Lemma expr_secant_Next (i : Z) (s s' : MathUtilsExpr.sec_state) :
  MathUtilsExpr.secantMethod_pass E expression precision i s
  = Normal (Next s') ->
  let x0 := MathUtilsExpr.sec_x0 s in
  let x1 := MathUtilsExpr.sec_x1 s in
  exists fx0 fx1 approx relErr,
    as_number (evaluate E expression (VNumber x0)) = Normal fx0
    /\ as_number (evaluate E expression (VNumber x1)) = Normal fx1
    /\ (Math_abs (fx1 - fx0) <? 1e-10)%float = false
    /\ toFixed_parseFloat (x1 - fx1 * (x1 - x0) / (fx1 - fx0))%float precision
       = Normal approx
    /\ toFixed_parseFloat
         (percent_change (x1 - fx1 * (x1 - x0) / (fx1 - fx0))%float x1) precision
       = Normal relErr
    /\ s' = MathUtilsExpr.mkSec x1 (x1 - fx1 * (x1 - x0) / (fx1 - fx0))%float
              (MathUtilsExpr.sec_results s
               ++ [mkIterationResult i approx (Some relErr)]).
Proof.
  unfold MathUtilsExpr.secantMethod_pass. intros H. split_pass H.
  injection H as <-.
  apply js_sub_Normal in Hcall1. destruct Hcall1 as (b & a & Hb & Ha & ->).
  apply js_mul_Normal in Hcall2. destruct Hcall2 as (b' & d & Hb' & Hd & ->).
  rewrite Hb in Hb'. injection Hb' as <-. injection Hd as <-.
  exists a, b, v3, v4.
  repeat split; try assumption; try (apply as_number_Normal; eauto).
Qed.

Lemma expr_secant_Break (i : Z) (s s' : MathUtilsExpr.sec_state) :
  MathUtilsExpr.secantMethod_pass E expression precision i s
  = Normal (Break s') ->
  s' = s.
Proof.
  unfold MathUtilsExpr.secantMethod_pass. intros H. split_pass H.
  now injection H as <-.
Qed.

End ExprPasses.

Section ExprPassesTotal.

Variable E : engine value value.
Variable expression : string.
Variable precision : Z.
Hypothesis precision_ok : (0 <= precision <= 100)%Z.
Hypothesis evaluate_total :
  forall x, exists v, evaluate E expression (VNumber x) = Normal (VNumber v).

Ltac round_step :=
  match goal with
  | |- context [bind (toFixed_parseFloat ?v precision) _] =>
      let r := fresh "r" in
      destruct (toFixed_parseFloat_total v precision_ok) as [r ->]; simpl bind
  | |- context [bind (round_nullable ?v precision) _] =>
      let r := fresh "r" in
      destruct (round_nullable_total v precision_ok) as (r & -> & _); simpl bind
  end.

(** With a number for [x], a pass of Fixed-Point Iteration falls through
    and leaves a number for [x]. *)
Lemma expr_fixedPoint_total (i : Z) (s : MathUtilsExpr.fp_state) :
  (exists x, MathUtilsExpr.fp_x s = VNumber x) ->
  exists s',
    MathUtilsExpr.fixedPointIteration_pass E expression precision i s
    = Normal (Next s')
    /\ exists x', MathUtilsExpr.fp_x s' = VNumber x'.
Proof.
  intros [x Hx]. unfold MathUtilsExpr.fixedPointIteration_pass. cbv zeta.
  rewrite Hx. destruct (evaluate_total x) as [nextX ->]. simpl bind.
  destruct (MathUtilsExpr.fp_prevX s);
    cbn [bind percent_change_any js_sub js_div to_number call_toFixed];
    repeat round_step;
    (eexists; split; [reflexivity | simpl; eauto]).
Qed.

Lemma expr_newton_total (i : Z) (s : MathUtilsExpr.nr_state) :
  (forall x, exists v,
     MathUtilsExpr.fPrime E expression x = Normal (VNumber v)) ->
  exists r, MathUtilsExpr.newtonRaphson_pass E expression precision i s
            = Normal r.
Proof.
  intros HfPrime. unfold MathUtilsExpr.newtonRaphson_pass.
  destruct (evaluate_total (MathUtilsExpr.nr_x s)) as [fx ->]. simpl bind.
  destruct (HfPrime (MathUtilsExpr.nr_x s)) as [fpx ->]. simpl bind.
  destruct (Math_abs fpx <? 1e-10)%float; [eauto |].
  simpl bind. repeat round_step. eauto.
Qed.

Lemma expr_secant_total (i : Z) (s : MathUtilsExpr.sec_state) :
  exists r, MathUtilsExpr.secantMethod_pass E expression precision i s
            = Normal r.
Proof.
  unfold MathUtilsExpr.secantMethod_pass.
  destruct (evaluate_total (MathUtilsExpr.sec_x0 s)) as [fx0 ->]. simpl bind.
  destruct (evaluate_total (MathUtilsExpr.sec_x1 s)) as [fx1 ->]. simpl bind.
  destruct (Math_abs (fx1 - fx0) <? 1e-10)%float; [eauto |].
  simpl bind. repeat round_step. eauto.
Qed.

End ExprPassesTotal.

(** ** Numbering of the records *)

Section LoopNumbering.

Context {S : Type} (body : Z -> S -> completion (pass S)).
Variable results : S -> list IterationResult.

Hypothesis Hnext : forall i s s',
  body i s = Normal (Next s') ->
  exists r, results s' = results s ++ [r] /\ iteration r = i.

Hypothesis Hbreak : forall i s s',
  body i s = Normal (Break s') ->
  results s' = results s
  \/ exists r, results s' = results s ++ [r] /\ iteration r = i.

Lemma advance_numbering (k : nat) (s sk : S) :
  results s = [] -> advance body k 1 s = Some sk ->
  Datatypes.length (results sk) = k
  /\ map iteration (results sk) = indices 1 k.
Proof.
  intros Hempty Hadv.
  assert (Hstep : forall i s1 s2, True -> body i s1 = Normal (Next s2) ->
            True /\ exists r, results s2 = results s1 ++ [r] /\ iteration r = i)
    by (intros i s1 s2 _ Hb; split; [exact I | now apply Hnext]).
  destruct (advance_records body results (fun _ _ => True)
              (fun i r => iteration r = i) Hstep k 1%Z s I Hadv)
    as (_ & new & Hres & Hlen & Hnew).
  rewrite Hres, Hempty. simpl. split; [assumption |].
  rewrite <- Hlen. now apply map_iteration_indices.
Qed.

Lemma loop_numbering (n : nat) (s s' : S) :
  results s = [] -> for_loop body n 1 s = Normal s' ->
  (Datatypes.length (results s') <= n)%nat
  /\ Contract.numbered_run (results s')
  /\ ((forall i s1 s2, body i s1 <> Normal (Break s2)) ->
      Datatypes.length (results s') = n).
Proof.
  intros Hempty Hloop. unfold Contract.numbered_run.
  destruct (for_loop_Normal_inv body _ _ _ Hloop)
    as [Hall | (k & sk & Hk & Hadv & Hbrk)].
  - destruct (advance_numbering _ Hempty Hall) as (Hlen & Hmap).
    rewrite Hmap, Hlen, indices_from_1. repeat split; auto; lia.
  - destruct (advance_numbering _ Hempty Hadv) as (Hlen & Hmap).
    split; [| split].
    + apply Hbreak in Hbrk. destruct Hbrk as [-> | (r & -> & _)];
        [| rewrite length_app; simpl]; lia.
    + apply Hbreak in Hbrk. destruct Hbrk as [-> | (r & -> & Hr)].
      * now rewrite Hmap, Hlen, indices_from_1.
      * rewrite map_app, Hmap, length_app, Hlen. simpl.
        rewrite Nat.add_1_r, <- indices_from_1, indices_snoc, Hr. reflexivity.
    + intros Hno. now destruct (Hno _ _ _ Hbrk).
Qed.

End LoopNumbering.

Section RunsOfTheRootFinders.

Variable iterations : Z.
Variable precision : Z.

Lemma hardwired_fixedPoint_run Math_log x0 targetValue rs :
  (0 <= iterations)%Z ->
  MathUtils.fixedPointIteration Math_log x0 iterations targetValue precision
  = Normal rs ->
  Contract.full_run iterations rs.
Proof.
  unfold MathUtils.fixedPointIteration. intros Hn H.
  destruct (for_loop _ _ _ _) as [s' | e] eqn:Hloop; [| discriminate].
  injection H as <-.
  apply (loop_numbering _ MathUtils.fp_results) in Hloop; [| | | reflexivity].
  - destruct Hloop as (_ & Hrun & Hlen). split; [| assumption].
    rewrite Hlen; [lia |]. intros i s1 s2. apply hardwired_fixedPoint_no_Break.
  - intros i s1 s2 Hb. apply hardwired_fixedPoint_Next in Hb.
    destruct Hb as (approx & relErr & _ & _ & ->). simpl. eauto.
  - intros i s1 s2 Hb. now apply hardwired_fixedPoint_no_Break in Hb.
Qed.

Lemma hardwired_newton_run Math_log x0 targetValue rs :
  (0 <= iterations)%Z ->
  MathUtils.newtonRaphson Math_log x0 iterations targetValue precision
  = Normal rs ->
  Contract.bounded_run iterations rs.
Proof.
  unfold MathUtils.newtonRaphson. intros Hn H.
  destruct (for_loop _ _ _ _) as [s' | e] eqn:Hloop; [| discriminate].
  injection H as <-.
  apply (loop_numbering _ MathUtils.nr_results) in Hloop; [| | | reflexivity].
  - destruct Hloop as (Hle & Hrun & _). split; [lia | assumption].
  - intros i s1 s2 Hb. apply hardwired_newton_Next in Hb.
    destruct Hb as (approx & relErr & _ & _ & _ & ->). simpl. eauto.
  - intros i s1 s2 Hb. apply hardwired_newton_Break in Hb.
    destruct Hb as (_ & ->). simpl. eauto.
Qed.

Lemma hardwired_secant_run Math_log x0 x1 targetValue rs :
  (0 <= iterations)%Z ->
  MathUtils.secantMethod Math_log x0 x1 iterations targetValue precision
  = Normal rs ->
  Contract.bounded_run iterations rs.
Proof.
  unfold MathUtils.secantMethod. intros Hn H.
  destruct (for_loop _ _ _ _) as [s' | e] eqn:Hloop; [| discriminate].
  injection H as <-.
  apply (loop_numbering _ MathUtils.sec_results) in Hloop; [| | | reflexivity].
  - destruct Hloop as (Hle & Hrun & _). split; [lia | assumption].
  - intros i s1 s2 Hb. apply hardwired_secant_Next in Hb.
    destruct Hb as (approx & relErr & _ & _ & _ & ->). simpl. eauto.
  - intros i s1 s2 Hb. apply hardwired_secant_Break in Hb.
    destruct Hb as (_ & ->). simpl. eauto.
Qed.

Lemma hardwired_returns Math_log x0 x1 targetValue :
  (0 <= precision <= 100)%Z ->
  (exists rs, MathUtils.fixedPointIteration Math_log x0 iterations targetValue
                precision = Normal rs)
  /\ (exists rs, MathUtils.newtonRaphson Math_log x0 iterations targetValue
                   precision = Normal rs)
  /\ (exists rs, MathUtils.secantMethod Math_log x0 x1 iterations targetValue
                   precision = Normal rs).
Proof.
  intros Hp.
  unfold MathUtils.fixedPointIteration, MathUtils.newtonRaphson,
    MathUtils.secantMethod.
  split; [| split].
  - edestruct (for_loop_total (MathUtils.fixedPointIteration_pass Math_log precision)
                 (fun _ _ => True)) as [s' ->]; [| exact I | simpl; eauto].
    intros i s _.
    destruct (hardwired_fixedPoint_total Math_log i s Hp) as [s1 ->]. eauto.
  - edestruct (for_loop_total (MathUtils.newtonRaphson_pass Math_log precision)
                 (fun _ _ => True)) as [s' ->]; [| exact I | simpl; eauto].
    intros i s _.
    destruct (hardwired_newton_total Math_log i s Hp) as [r ->]. eauto.
  - edestruct (for_loop_total (MathUtils.secantMethod_pass Math_log precision)
                 (fun _ _ => True)) as [s' ->]; [| exact I | simpl; eauto].
    intros i s _.
    destruct (hardwired_secant_total Math_log i s Hp) as [r ->]. eauto.
Qed.

Variable E : engine value value.
Variable expression : string.

Lemma expr_fixedPoint_run x0 rs :
  (0 <= iterations)%Z ->
  MathUtilsExpr.fixedPointIteration E expression x0 iterations precision
  = Normal rs ->
  Contract.full_run iterations rs.
Proof.
  unfold MathUtilsExpr.fixedPointIteration. intros Hn H.
  destruct (for_loop _ _ _ _) as [s' | e] eqn:Hloop; [| discriminate].
  injection H as <-.
  apply (loop_numbering _ MathUtilsExpr.fp_results) in Hloop; [| | | reflexivity].
  - destruct Hloop as (_ & Hrun & Hlen). split; [| assumption].
    rewrite Hlen; [lia |]. intros i s1 s2. apply expr_fixedPoint_no_Break.
  - intros i s1 s2 Hb. apply expr_fixedPoint_Next in Hb.
    destruct Hb as (nextX & approx & relativeError & relErr & _ & _ & _ & _ & ->).
    simpl. eauto.
  - intros i s1 s2 Hb. now apply expr_fixedPoint_no_Break in Hb.
Qed.

Lemma expr_newton_run x0 rs :
  (0 <= iterations)%Z ->
  MathUtilsExpr.newtonRaphson E expression x0 iterations precision = Normal rs ->
  Contract.bounded_run iterations rs.
Proof.
  unfold MathUtilsExpr.newtonRaphson. intros Hn H.
  destruct (for_loop _ _ _ _) as [s' | e] eqn:Hloop; [| discriminate].
  injection H as <-.
  apply (loop_numbering _ MathUtilsExpr.nr_results) in Hloop; [| | | reflexivity].
  - destruct Hloop as (Hle & Hrun & _). split; [lia | assumption].
  - intros i s1 s2 Hb. apply expr_newton_Next in Hb.
    destruct Hb as (fx & fpx & approx & relErr & _ & _ & _ & _ & _ & ->).
    simpl. eauto.
  - intros i s1 s2 Hb. apply expr_newton_Break in Hb. subst. now left.
Qed.

Lemma expr_secant_run x0 x1 rs :
  (0 <= iterations)%Z ->
  MathUtilsExpr.secantMethod E expression x0 x1 iterations precision
  = Normal rs ->
  Contract.bounded_run iterations rs.
Proof.
  unfold MathUtilsExpr.secantMethod. intros Hn H.
  destruct (for_loop _ _ _ _) as [s' | e] eqn:Hloop; [| discriminate].
  injection H as <-.
  apply (loop_numbering _ MathUtilsExpr.sec_results) in Hloop; [| | | reflexivity].
  - destruct Hloop as (Hle & Hrun & _). split; [lia | assumption].
  - intros i s1 s2 Hb. apply expr_secant_Next in Hb.
    destruct Hb as (fx0 & fx1 & approx & relErr & _ & _ & _ & _ & _ & ->).
    simpl. eauto.
  - intros i s1 s2 Hb. apply expr_secant_Break in Hb. subst. now left.
Qed.

Lemma expr_returns x0 x1 :
  (0 <= precision <= 100)%Z ->
  (forall x, exists v, evaluate E expression (VNumber x) = Normal (VNumber v)) ->
  (exists rs, MathUtilsExpr.fixedPointIteration E expression x0 iterations
                precision = Normal rs)
  /\ (exists rs, MathUtilsExpr.secantMethod E expression x0 x1 iterations
                   precision = Normal rs)
  /\ ((forall x, exists v,
         MathUtilsExpr.fPrime E expression x = Normal (VNumber v)) ->
      exists rs, MathUtilsExpr.newtonRaphson E expression x0 iterations
                   precision = Normal rs).
Proof.
  intros Hp Heval.
  unfold MathUtilsExpr.fixedPointIteration, MathUtilsExpr.newtonRaphson,
    MathUtilsExpr.secantMethod.
  split; [| split].
  - edestruct (for_loop_total
                 (MathUtilsExpr.fixedPointIteration_pass E expression precision)
                 (fun _ s => exists x, MathUtilsExpr.fp_x s = VNumber x))
      as [s' ->]; [| simpl; eauto | simpl; eauto].
    intros i s Hx.
    destruct (expr_fixedPoint_total E expression Hp Heval i s Hx)
      as (s1 & -> & Hx1).
    eexists. split; [reflexivity |]. now intros s' [= <-].
  - edestruct (for_loop_total
                 (MathUtilsExpr.secantMethod_pass E expression precision)
                 (fun _ _ => True)) as [s' ->]; [| exact I | simpl; eauto].
    intros i s _.
    destruct (expr_secant_total E expression Hp Heval i s) as [r ->]. eauto.
  - intros HfPrime.
    edestruct (for_loop_total
                 (MathUtilsExpr.newtonRaphson_pass E expression precision)
                 (fun _ _ => True)) as [s' ->]; [| exact I | simpl; eauto].
    intros i s _.
    destruct (expr_newton_total E expression Hp Heval i s HfPrime) as [r ->]. eauto.
Qed.

End RunsOfTheRootFinders.

(** C4. For valid inputs each of [fixedPointIteration], [newtonRaphson] and
    [secantMethod] returns at most [iterations] records whose [iteration]
    fields are the contiguous run [1..k], [k <= iterations]; for
    [fixedPointIteration], which has no convergence check, [k = iterations].
    The hard-wired variant always returns; the expression-driven variant
    returns whenever the engine evaluates the expression (and, for
    Newton-Raphson, its derivative) to a number everywhere, and whatever it
    returns has the stated shape. *)
Theorem iteration_fields_contiguous
  (iterations precision : Z)
  (Hiterations : Contract.valid_iterations iterations)
  (Hprecision : Contract.valid_precision precision) :
  (forall Math_log x0 x1 targetValue,
     (exists rs,
        MathUtils.fixedPointIteration Math_log x0 iterations targetValue precision
        = Normal rs /\ Contract.full_run iterations rs)
     /\ (exists rs,
           MathUtils.newtonRaphson Math_log x0 iterations targetValue precision
           = Normal rs /\ Contract.bounded_run iterations rs)
     /\ (exists rs,
           MathUtils.secantMethod Math_log x0 x1 iterations targetValue precision
           = Normal rs /\ Contract.bounded_run iterations rs))
  /\ (forall (E : engine value value) expression x0 x1,
        (forall rs,
           MathUtilsExpr.fixedPointIteration E expression x0 iterations precision
           = Normal rs -> Contract.full_run iterations rs)
        /\ (forall rs,
              MathUtilsExpr.newtonRaphson E expression x0 iterations precision
              = Normal rs -> Contract.bounded_run iterations rs)
        /\ (forall rs,
              MathUtilsExpr.secantMethod E expression x0 x1 iterations precision
              = Normal rs -> Contract.bounded_run iterations rs)
        /\ ((forall x, exists v,
               evaluate E expression (VNumber x) = Normal (VNumber v)) ->
            (exists rs,
               MathUtilsExpr.fixedPointIteration E expression x0 iterations
                 precision = Normal rs)
            /\ (exists rs,
                  MathUtilsExpr.secantMethod E expression x0 x1 iterations
                    precision = Normal rs)
            /\ ((forall x, exists v,
                   MathUtilsExpr.fPrime E expression x = Normal (VNumber v)) ->
                exists rs,
                  MathUtilsExpr.newtonRaphson E expression x0 iterations
                    precision = Normal rs))).
Proof.
  assert (Hn : (0 <= iterations)%Z) by (unfold Contract.valid_iterations in *; lia).
  assert (Hp : (0 <= precision <= 100)%Z) by (unfold Contract.valid_precision in *; lia).
  split.
  - intros Math_log x0 x1 targetValue.
    destruct (hardwired_returns iterations Math_log x0 x1 targetValue Hp)
      as ((rs1 & H1) & (rs2 & H2) & (rs3 & H3)).
    split; [| split].
    + exists rs1. split; [assumption |]. eapply hardwired_fixedPoint_run; eauto.
    + exists rs2. split; [assumption |]. eapply hardwired_newton_run; eauto.
    + exists rs3. split; [assumption |]. eapply hardwired_secant_run; eauto.
  - intros E expression x0 x1. split; [| split; [| split]].
    + intros rs H. eapply expr_fixedPoint_run; eauto.
    + intros rs H. eapply expr_newton_run; eauto.
    + intros rs H. eapply expr_secant_run; eauto.
    + intros Heval. now apply expr_returns.
Qed.

Lemma iteration_fields_contiguous_witness :
  (exists rs,
     MathUtils.newtonRaphson V8.Math_log 2%float 5 0%float 6
     = Normal rs /\ Contract.bounded_run 5 rs)
  /\ (exists rs,
        MathUtilsExpr.fixedPointIteration SampleEngine.mathjs "x / 2 + 1"
          1%float 5 6
        = Normal rs /\ Contract.full_run 5 rs).
Proof.
  assert (Hiterations : Contract.valid_iterations 5)
    by (unfold Contract.valid_iterations; lia).
  assert (Hprecision : Contract.valid_precision 6)
    by (unfold Contract.valid_precision; lia).
  destruct (iteration_fields_contiguous Hiterations Hprecision) as [Hhard Hexpr].
  split.
  - destruct (Hhard V8.Math_log 2%float 3%float 0%float)
      as (_ & Hnewton & _).
    exact Hnewton.
  - destruct (Hexpr SampleEngine.mathjs "x / 2 + 1"%string 1%float 2%float)
      as (Hshape & _ & _ & Hreturns).
    destruct Hreturns as ((rs & Hrs) & _).
    + intros x. eexists. reflexivity.
    + exists rs. split; [exact Hrs | exact (Hshape rs Hrs)].
Defined.

(** ** What the records of Newton-Raphson hold *)

Lemma iterate_snoc (step : number -> number) (k : nat) (x : number) :
  Contract.iterate step (S k) x = step (Contract.iterate step k x).
Proof.
  revert x. induction k as [| k IH]; intros x; [reflexivity |].
  change (Contract.iterate step (S (S k)) x)
    with (Contract.iterate step (S k) (step x)).
  now rewrite IH.
Qed.

Lemma iterate_checked_snoc (step : number -> completion number)
  (k : nat) (x : number) :
  Contract.iterate_checked step (S k) x
  = (xk <- Contract.iterate_checked step k x ;; step xk).
Proof.
  revert x. induction k as [| k IH]; intros x.
  - simpl. now destruct (step x).
  - change (Contract.iterate_checked step (S (S k)) x)
      with (x' <- step x ;; Contract.iterate_checked step (S k) x').
    change (Contract.iterate_checked step (S k) x)
      with (x' <- step x ;; Contract.iterate_checked step k x').
    destruct (step x) as [x' | e]; [| reflexivity].
    exact (IH x').
Qed.

Section ExprNewtonRecords.

Variable E : engine value value.
Variable expression : string.
Variable precision : Z.
Variable x0 : number.

Local Abbreviation newton_at := (expr_newton_at E expression x0).
Local Abbreviation newton_record := (expr_newton_record E expression precision x0).

(** The closure [fPrime] is the symbolic derivative of the contract. *)
Lemma fPrime_symbolic (x : number) :
  as_number (MathUtilsExpr.fPrime E expression x)
  = Contract.symbolic_derivative_at E expression x.
Proof.
  unfold MathUtilsExpr.fPrime, Contract.symbolic_derivative_at.
  now destruct (derivative E expression "x").
Qed.

Lemma newton_step_of_calls (x fx fpx : number) :
  as_number (evaluate E expression (VNumber x)) = Normal fx ->
  as_number (MathUtilsExpr.fPrime E expression x) = Normal fpx ->
  Contract.newton_step E expression x = Normal (x - fx / fpx)%float.
Proof.
  intros Hfx Hfpx. unfold Contract.newton_step, Contract.value_at.
  rewrite Hfx. simpl bind. now rewrite <- fPrime_symbolic, Hfpx.
Qed.

Lemma expr_newton_pass_record (i : Z) (s s' : MathUtilsExpr.nr_state) :
  newton_at i s ->
  MathUtilsExpr.newtonRaphson_pass E expression precision i s = Normal (Next s') ->
  newton_at (i + 1) s'
  /\ exists r, MathUtilsExpr.nr_results s' = MathUtilsExpr.nr_results s ++ [r]
               /\ newton_record i r.
Proof.
  intros (k & Hi & Hk) Hpass.
  apply expr_newton_Next in Hpass. cbv zeta in Hpass.
  destruct Hpass as (fx & fpx & approx & relErr & Hfx & Hfpx & _ & Ha & Hr & ->).
  assert (Hstep : Contract.newton_step E expression (MathUtilsExpr.nr_x s)
                  = Normal (MathUtilsExpr.nr_x s - fx / fpx)%float)
    by now apply newton_step_of_calls.
  split.
  - exists (S k). split; [lia |].
    rewrite iterate_checked_snoc, Hk. exact Hstep.
  - eexists. split; [reflexivity |].
    exists k, (MathUtilsExpr.nr_x s), (MathUtilsExpr.nr_x s - fx / fpx)%float.
    repeat split; try assumption. simpl. eauto.
Qed.

Lemma expr_newton_advance (k : nat) (sk : MathUtilsExpr.nr_state) :
  advance (MathUtilsExpr.newtonRaphson_pass E expression precision) k 1
    (MathUtilsExpr.mkNr x0 []) = Some sk ->
  Contract.iterate_checked (Contract.newton_step E expression) k x0
  = Normal (MathUtilsExpr.nr_x sk)
  /\ Datatypes.length (MathUtilsExpr.nr_results sk) = k
  /\ forall j r, nth_error (MathUtilsExpr.nr_results sk) j = Some r ->
                 newton_record (1 + Z.of_nat j) r.
Proof.
  intros Hadv.
  destruct (advance_records _ MathUtilsExpr.nr_results newton_at
              newton_record expr_newton_pass_record k 1%Z
              (MathUtilsExpr.mkNr x0 []))
    with (sk := sk) as ((k' & Hk' & Hiter) & new & Hres & Hlen & Hnew).
  - exists O. split; reflexivity.
  - assumption.
  - simpl in Hres. subst new. assert (k' = k) by lia. subst k'.
    repeat split; assumption.
Qed.

Lemma expr_newton_results (iterations : Z) (rs : list IterationResult) :
  MathUtilsExpr.newtonRaphson E expression x0 iterations precision = Normal rs ->
  exists sk,
    advance (MathUtilsExpr.newtonRaphson_pass E expression precision)
      (Datatypes.length rs) 1 (MathUtilsExpr.mkNr x0 []) = Some sk
    /\ MathUtilsExpr.nr_results sk = rs.
Proof.
  unfold MathUtilsExpr.newtonRaphson. intros H.
  destruct (for_loop _ _ _ _) as [s' | e] eqn:Hloop; [| discriminate].
  injection H as <-.
  destruct (for_loop_Normal_inv _ _ _ _ Hloop)
    as [Hall | (k & sk & Hk & Hadv & Hbrk)].
  - exists s'. split; [| reflexivity].
    destruct (expr_newton_advance _ Hall) as (_ & -> & _). assumption.
  - apply expr_newton_Break in Hbrk. subst s'.
    exists sk. split; [| reflexivity].
    destruct (expr_newton_advance _ Hadv) as (_ & -> & _). assumption.
Qed.

(** A pass that leaves the loop found the degenerate derivative. *)
Lemma expr_newton_Break_degenerate (i : Z) (s s' : MathUtilsExpr.nr_state) :
  MathUtilsExpr.newtonRaphson_pass E expression precision i s
  = Normal (Break s') ->
  s' = s
  /\ exists fx fpx,
       evaluate E expression (VNumber (MathUtilsExpr.nr_x s)) = Normal fx
       /\ as_number (MathUtilsExpr.fPrime E expression (MathUtilsExpr.nr_x s))
          = Normal fpx
       /\ (Math_abs fpx <? 1e-10)%float = true.
Proof.
  unfold MathUtilsExpr.newtonRaphson_pass. intros H. split_pass H.
  injection H as <-. split; [reflexivity |].
  destruct (@expr_newton_calls E expression _ _ _ _ Hcall Hcall0 Hcall1)
    as (b & Hb & Hb' & ->).
  exists v, b. auto.
Qed.

(** The state a returned run ended in: all passes fell through, or the
    pass after them was degenerate. *)
Lemma expr_newton_results_degenerate (iterations : Z)
  (rs : list IterationResult) :
  MathUtilsExpr.newtonRaphson E expression x0 iterations precision = Normal rs ->
  exists k sk,
    advance (MathUtilsExpr.newtonRaphson_pass E expression precision) k 1
      (MathUtilsExpr.mkNr x0 []) = Some sk
    /\ MathUtilsExpr.nr_results sk = rs
    /\ (k = Z.to_nat iterations
        \/ (k < Z.to_nat iterations)%nat
           /\ exists fx fpx,
                evaluate E expression (VNumber (MathUtilsExpr.nr_x sk))
                = Normal fx
                /\ as_number
                     (MathUtilsExpr.fPrime E expression (MathUtilsExpr.nr_x sk))
                   = Normal fpx
                /\ (Math_abs fpx <? 1e-10)%float = true).
Proof.
  unfold MathUtilsExpr.newtonRaphson. intros H.
  destruct (for_loop _ _ _ _) as [s' | e] eqn:Hloop; [| discriminate].
  injection H as <-.
  destruct (for_loop_Normal_inv _ _ _ _ Hloop)
    as [Hall | (k & sk & Hk & Hadv & Hbrk)].
  - exists (Z.to_nat iterations), s'. auto.
  - apply expr_newton_Break_degenerate in Hbrk. destruct Hbrk as (-> & Hdeg).
    exists k, sk. auto.
Qed.

(** A returned run made all its passes, or stopped at the first point
    whose symbolic derivative was degenerate. *)
Lemma expr_newton_length (iterations : Z) (rs : list IterationResult) :
  MathUtilsExpr.newtonRaphson E expression x0 iterations precision = Normal rs ->
  Datatypes.length rs = Z.to_nat iterations
  \/ (Datatypes.length rs < Z.to_nat iterations)%nat
     /\ exists xk fx fpx,
          Contract.iterate_checked (Contract.newton_step E expression)
            (Datatypes.length rs) x0 = Normal xk
          /\ evaluate E expression (VNumber xk) = Normal fx
          /\ Contract.symbolic_derivative_at E expression xk = Normal fpx
          /\ (Math_abs fpx <? 1e-10)%float = true.
Proof.
  intros Hrun. apply expr_newton_results_degenerate in Hrun.
  destruct Hrun as (k & sk & Hadv & <- & Hend).
  apply expr_newton_advance in Hadv. destruct Hadv as (Hx & Hlen & _).
  rewrite Hlen.
  destruct Hend as [-> | (Hk & fx & fpx & Hfx & Hfpx & Hdeg)]; [now left |].
  right. split; [assumption |].
  exists (MathUtilsExpr.nr_x sk), fx, fpx.
  rewrite <- fPrime_symbolic. auto.
Qed.

(** A pass from a point where [f] and the symbolic derivative have values
    and the derivative is not degenerate falls through to the next
    iterate. *)
Lemma expr_newton_step_pass (i : Z) (s : MathUtilsExpr.nr_state)
  (fx fpx : number) :
  (0 <= precision <= 100)%Z ->
  Contract.value_at E expression (MathUtilsExpr.nr_x s) = Normal fx ->
  Contract.symbolic_derivative_at E expression (MathUtilsExpr.nr_x s)
  = Normal fpx ->
  (Math_abs fpx <? 1e-10)%float = false ->
  exists s',
    MathUtilsExpr.newtonRaphson_pass E expression precision i s
    = Normal (Next s')
    /\ MathUtilsExpr.nr_x s' = (MathUtilsExpr.nr_x s - fx / fpx)%float.
Proof.
  intros Hp Hfx Hfpx Hguard.
  unfold Contract.value_at in Hfx. apply as_number_Normal in Hfx.
  destruct Hfx as (v & Hv & Ha).
  rewrite <- fPrime_symbolic in Hfpx. apply as_number_Normal in Hfpx.
  destruct Hfpx as (w & Hw & Hb).
  unfold MathUtilsExpr.newtonRaphson_pass. cbv zeta.
  rewrite Hv. simpl bind. rewrite Hw. simpl bind.
  unfold Math_abs_of. rewrite Hb. simpl bind. rewrite Hguard.
  unfold js_div. rewrite Ha, Hb. simpl bind.
  destruct (toFixed_parseFloat_total
              (MathUtilsExpr.nr_x s - fx / fpx)%float Hp) as [approx ->].
  simpl bind.
  destruct (toFixed_parseFloat_total
              (percent_change (MathUtilsExpr.nr_x s - fx / fpx)%float
                 (MathUtilsExpr.nr_x s)) Hp) as [relErr ->].
  simpl bind. eexists. split; reflexivity.
Qed.

(** As long as the steps are defined and not degenerate, the passes fall
    through. *)
Lemma expr_newton_reach (n : nat) : forall i s,
  (0 <= precision <= 100)%Z ->
  (forall k, (k < n)%nat ->
     exists xk fx fpx,
       Contract.iterate_checked (Contract.newton_step E expression) k
         (MathUtilsExpr.nr_x s) = Normal xk
       /\ Contract.value_at E expression xk = Normal fx
       /\ Contract.symbolic_derivative_at E expression xk = Normal fpx
       /\ (Math_abs fpx <? 1e-10)%float = false) ->
  exists sk,
    advance (MathUtilsExpr.newtonRaphson_pass E expression precision) n i s
    = Some sk.
Proof.
  induction n as [| n IH]; intros i s Hp Hsteps; simpl; [eauto |].
  destruct (Hsteps O) as (xk & fx & fpx & Hxk & Hfx & Hfpx & Hguard); [lia |].
  simpl in Hxk. injection Hxk as <-.
  destruct (expr_newton_step_pass i s Hp Hfx Hfpx Hguard) as (s' & -> & Hx').
  apply IH; [assumption |].
  intros k Hk.
  destruct (Hsteps (S k)) as (xk & fx' & fpx' & Hxk & Hrest); [lia |].
  exists xk, fx', fpx'. split; [| assumption].
  simpl in Hxk. unfold Contract.newton_step at 1 in Hxk.
  rewrite Hfx, Hfpx in Hxk. simpl bind in Hxk. now rewrite Hx'.
Qed.

(** So a run of [n] iterations over [n] such steps returns [n] records. *)
Lemma expr_newton_runs (n : nat) :
  (0 <= precision <= 100)%Z ->
  (forall k, (k < n)%nat ->
     exists xk fx fpx,
       Contract.iterate_checked (Contract.newton_step E expression) k x0
       = Normal xk
       /\ Contract.value_at E expression xk = Normal fx
       /\ Contract.symbolic_derivative_at E expression xk = Normal fpx
       /\ (Math_abs fpx <? 1e-10)%float = false) ->
  exists rs,
    MathUtilsExpr.newtonRaphson E expression x0 (Z.of_nat n) precision
    = Normal rs
    /\ Datatypes.length rs = n.
Proof.
  intros Hp Hsteps.
  destruct (@expr_newton_reach n 1%Z (MathUtilsExpr.mkNr x0 []) Hp Hsteps)
    as [sk Hadv].
  exists (MathUtilsExpr.nr_results sk). split.
  - unfold MathUtilsExpr.newtonRaphson. rewrite Nat2Z.id.
    now rewrite (advance_for_loop _ _ _ _ Hadv).
  - now destruct (expr_newton_advance _ Hadv) as (_ & Hlen & _).
Qed.

End ExprNewtonRecords.

Section HardWiredNewtonRecords.

Variable Math_log : number -> number.
Variable precision : Z.
Variable x0 : number.

Local Abbreviation newton_at := (hardwired_newton_at Math_log x0).
Local Abbreviation newton_record := (hardwired_newton_record Math_log precision x0).
Local Abbreviation x_ := (Contract.iterate (Contract.newton_step_ln Math_log)).

Lemma hardwired_newton_pass_record (i : Z) (s s' : MathUtils.nr_state) :
  newton_at i s ->
  MathUtils.newtonRaphson_pass Math_log precision i s = Normal (Next s') ->
  newton_at (i + 1) s'
  /\ exists r, MathUtils.nr_results s' = MathUtils.nr_results s ++ [r]
               /\ newton_record i r.
Proof.
  intros (k & Hi & Hk) Hpass.
  apply hardwired_newton_Next in Hpass. cbv zeta in Hpass.
  destruct Hpass as (approx & relErr & _ & Ha & Hr & ->).
  assert (Hstep : x_ (S k) x0
                  = (MathUtils.nr_x s
                     - MathUtils.f Math_log (MathUtils.nr_x s)
                       / MathUtils.fPrime (MathUtils.nr_x s))%float).
  { rewrite iterate_snoc, <- Hk. reflexivity. }
  split.
  - exists (S k). split; [lia |]. simpl MathUtils.nr_x. now rewrite Hstep.
  - eexists. split; [reflexivity |].
    exists k. split; [assumption |].
    rewrite Hstep, <- Hk. repeat split; try assumption. simpl. eauto.
Qed.

Lemma hardwired_newton_advance (k : nat) (sk : MathUtils.nr_state) :
  advance (MathUtils.newtonRaphson_pass Math_log precision) k 1
    (MathUtils.mkNr x0 []) = Some sk ->
  MathUtils.nr_x sk = x_ k x0
  /\ Datatypes.length (MathUtils.nr_results sk) = k
  /\ forall j r, nth_error (MathUtils.nr_results sk) j = Some r ->
                 newton_record (1 + Z.of_nat j) r.
Proof.
  intros Hadv.
  destruct (advance_records _ MathUtils.nr_results newton_at
              newton_record hardwired_newton_pass_record k 1%Z
              (MathUtils.mkNr x0 []))
    with (sk := sk) as ((k' & Hk' & Hiter) & new & Hres & Hlen & Hnew).
  - exists O. split; reflexivity.
  - assumption.
  - simpl in Hres. subst new. assert (k' = k) by lia. subst k'.
    repeat split; assumption.
Qed.

(** The returned list: the records of the passes that fell through, then the
    marker if the loop was left on a degenerate step. *)
Lemma hardwired_newton_results (iterations targetValue : _) (rs : list IterationResult) :
  MathUtils.newtonRaphson Math_log x0 iterations targetValue precision = Normal rs ->
  exists k sk,
    (k <= Z.to_nat iterations)%nat
    /\ advance (MathUtils.newtonRaphson_pass Math_log precision) k 1
         (MathUtils.mkNr x0 []) = Some sk
    /\ (rs = MathUtils.nr_results sk /\ k = Z.to_nat iterations
        \/ rs = MathUtils.nr_results sk
                ++ [degenerate_marker (1 + Z.of_nat k) (MathUtils.nr_x sk)]
           /\ (Math_abs (MathUtils.fPrime (MathUtils.nr_x sk)) <? 1e-10)%float
              = true).
Proof.
  unfold MathUtils.newtonRaphson. intros H.
  destruct (for_loop _ _ _ _) as [s' | e] eqn:Hloop; [| discriminate].
  injection H as <-.
  destruct (for_loop_Normal_inv _ _ _ _ Hloop)
    as [Hall | (k & sk & Hk & Hadv & Hbrk)].
  - exists (Z.to_nat iterations), s'. split; [lia |]. split; [assumption |].
    left. split; reflexivity.
  - apply hardwired_newton_Break in Hbrk. cbv zeta in Hbrk.
    destruct Hbrk as (Hdeg & ->).
    exists k, sk. split; [lia |]. split; [assumption |].
    right. split; [reflexivity | assumption].
Qed.

(** With a precision [toFixed] accepts the run returns; it made all its
    passes, or its list ends with the marker of the degenerate step it
    stopped at. *)
Lemma hardwired_newton_run_shape (iterations : Z) (targetValue : number) :
  (0 <= precision <= 100)%Z ->
  exists rs,
    MathUtils.newtonRaphson Math_log x0 iterations targetValue precision
    = Normal rs
    /\ (Datatypes.length rs = Z.to_nat iterations
        \/ exists k,
             Datatypes.length rs = S k
             /\ (k < Z.to_nat iterations)%nat
             /\ nth_error rs k = Some (degenerate_marker (1 + Z.of_nat k) (x_ k x0))
             /\ (Math_abs (1 / x_ k x0) <? 1e-10)%float = true).
Proof.
  intros Hp.
  destruct (hardwired_returns iterations Math_log x0 x0 targetValue Hp)
    as (_ & (rs & Hrun) & _).
  exists rs. split; [assumption |].
  unfold MathUtils.newtonRaphson in Hrun.
  destruct (for_loop _ _ _ _) as [s' | e] eqn:Hloop; [| discriminate].
  injection Hrun as <-.
  destruct (for_loop_Normal_inv _ _ _ _ Hloop)
    as [Hall | (k & sk & Hk & Hadv & Hbrk)].
  - left. now destruct (hardwired_newton_advance _ Hall) as (_ & Hlen & _).
  - right. apply hardwired_newton_Break in Hbrk. cbv zeta in Hbrk.
    destruct Hbrk as (Hdeg & ->).
    destruct (hardwired_newton_advance _ Hadv) as (Hx & Hlen & _).
    exists k. simpl MathUtils.nr_results. rewrite length_app, Hlen. simpl.
    split; [lia |]. split; [assumption |]. split.
    + rewrite nth_error_app2 by lia. rewrite Hlen, Nat.sub_diag. simpl.
      now rewrite Hx.
    + rewrite <- Hx. exact Hdeg.
Qed.

End HardWiredNewtonRecords.

(** The [k+1]-th returned record: the record of the [k+1]-th step, or, in
    last place, the marker of a degenerate step. *)
Lemma hardwired_newton_nth Math_log x0 iterations targetValue precision rs :
  MathUtils.newtonRaphson Math_log x0 iterations targetValue precision
  = Normal rs ->
  forall k r, nth_error rs k = Some r ->
    Contract.step_record precision (1 + Z.of_nat k)
      (Contract.iterate (Contract.newton_step_ln Math_log) k x0)
      (Contract.newton_step_ln Math_log
         (Contract.iterate (Contract.newton_step_ln Math_log) k x0)) r
    \/ (S k = Datatypes.length rs
        /\ r = degenerate_marker (1 + Z.of_nat k)
                 (Contract.iterate (Contract.newton_step_ln Math_log) k x0)
        /\ (Math_abs
              (1 / Contract.iterate (Contract.newton_step_ln Math_log) k x0)
            <? 1e-10)%float = true).
Proof.
  intros Hrun k r Hr.
  destruct (hardwired_newton_results _ _ _ _ _ Hrun)
    as (n & sk & _ & Hadv & Hrs).
  destruct (hardwired_newton_advance _ _ _ _ Hadv) as (Hx & Hlen & Hrecords).
  assert (Hregular : forall j r', nth_error (MathUtils.nr_results sk) j = Some r' ->
            Contract.step_record precision (1 + Z.of_nat j)
              (Contract.iterate (Contract.newton_step_ln Math_log) j x0)
              (Contract.newton_step_ln Math_log
                 (Contract.iterate (Contract.newton_step_ln Math_log) j x0)) r').
  { intros j r' Hj. destruct (Hrecords _ _ Hj) as (j' & Hj' & Hrec).
    assert (j' = j) by lia. subst j'. now rewrite iterate_snoc in Hrec. }
  destruct Hrs as [(-> & _) | (-> & Hdeg)].
  - left. now apply Hregular.
  - destruct (Nat.lt_ge_cases k n) as [Hlt | Hge].
    + left. apply Hregular. rewrite nth_error_app1 in Hr by lia. assumption.
    + right. rewrite nth_error_app2 in Hr by lia. rewrite Hlen in Hr.
      destruct (k - n)%nat as [| d] eqn:Hd; simpl in Hr;
        [| destruct d; discriminate].
      injection Hr as <-. assert (k = n) by lia. subst k.
      rewrite length_app, Hlen. simpl. rewrite <- Hx.
      repeat split; [lia | assumption].
Qed.

(** The [k+1]-th returned record is the record of the [k+1]-th step. *)
Lemma expr_newton_nth (E : engine value value) expression x0 iterations precision rs :
  MathUtilsExpr.newtonRaphson E expression x0 iterations precision = Normal rs ->
  forall k r, nth_error rs k = Some r ->
    exists xk xk1,
      Contract.iterate_checked (Contract.newton_step E expression) k x0
      = Normal xk
      /\ Contract.newton_step E expression xk = Normal xk1
      /\ Contract.step_record precision (1 + Z.of_nat k) xk xk1 r.
Proof.
  intros Hrun k r Hr.
  destruct (expr_newton_results _ _ _ _ _ Hrun) as (sk & Hadv & <-).
  destruct (expr_newton_advance _ _ _ _ _ Hadv) as (_ & _ & Hrecords).
  destruct (Hrecords _ _ Hr) as (k' & xk & xk1 & Hk' & Hxk & Hstep & Hrec).
  assert (k' = k) by lia. subst k'. eauto.
Qed.

(** C1. [newtonRaphson] obtains [f'(x)] at every step by differentiating the
    given expression symbolically and evaluating the derivative at the
    current [x], and takes [x_(k+1) = x_k - f(x_k) / f'(x_k)].  The steps are
    taken: over [n] points at which [f] and the symbolic derivative have
    values and the derivative is not degenerate, a run of [n] iterations
    returns [n] records, and a returned run stops short of [iterations]
    records only at a point whose symbolic derivative is degenerate.  Each
    step is that one: the [k+1]-th record is the record of the step from the
    unrounded iterate [x_k] of the contract.  The hard-wired variant takes
    no expression and differentiates nothing; its [f'] is the closed form
    [1 / x] of the derivative of [ln(x) - 1], evaluated at the current [x].
    It returns for every input, its steps follow the same formula, and it
    stops short only with the marker of a degenerate step in last place. *)
Theorem newton_step_by_symbolic_derivative :
  (forall (E : engine value value) expression x0 iterations precision rs,
     MathUtilsExpr.newtonRaphson E expression x0 iterations precision
     = Normal rs ->
     (forall k r, nth_error rs k = Some r ->
        exists xk xk1,
          Contract.iterate_checked (Contract.newton_step E expression) k x0
          = Normal xk
          /\ Contract.newton_step E expression xk = Normal xk1
          /\ Contract.step_record precision (1 + Z.of_nat k) xk xk1 r)
     /\ (Datatypes.length rs = Z.to_nat iterations
         \/ (Datatypes.length rs < Z.to_nat iterations)%nat
            /\ exists xk fx fpx,
                 Contract.iterate_checked (Contract.newton_step E expression)
                   (Datatypes.length rs) x0 = Normal xk
                 /\ evaluate E expression (VNumber xk) = Normal fx
                 /\ Contract.symbolic_derivative_at E expression xk
                    = Normal fpx
                 /\ (Math_abs fpx <? 1e-10)%float = true))
  /\ (forall (E : engine value value) expression x0 precision (n : nat),
        (0 <= precision <= 100)%Z ->
        (forall k, (k < n)%nat ->
           exists xk fx fpx,
             Contract.iterate_checked (Contract.newton_step E expression) k x0
             = Normal xk
             /\ Contract.value_at E expression xk = Normal fx
             /\ Contract.symbolic_derivative_at E expression xk = Normal fpx
             /\ (Math_abs fpx <? 1e-10)%float = false) ->
        exists rs,
          MathUtilsExpr.newtonRaphson E expression x0 (Z.of_nat n) precision
          = Normal rs
          /\ Datatypes.length rs = n)
  /\ (forall Math_log x0 iterations targetValue precision rs,
        MathUtils.newtonRaphson Math_log x0 iterations targetValue precision
        = Normal rs ->
        forall k r, nth_error rs k = Some r ->
          let xk := Contract.iterate (Contract.newton_step_ln Math_log) k x0 in
          Contract.step_record precision (1 + Z.of_nat k) xk
            (Contract.newton_step_ln Math_log xk) r
          \/ (S k = Datatypes.length rs
              /\ r = degenerate_marker (1 + Z.of_nat k) xk
              /\ (Math_abs (1 / xk) <? 1e-10)%float = true))
  /\ (forall Math_log x0 iterations targetValue precision,
        (0 <= precision <= 100)%Z ->
        exists rs,
          MathUtils.newtonRaphson Math_log x0 iterations targetValue precision
          = Normal rs
          /\ (Datatypes.length rs = Z.to_nat iterations
              \/ exists k,
                   Datatypes.length rs = S k
                   /\ (k < Z.to_nat iterations)%nat
                   /\ nth_error rs k
                      = Some (degenerate_marker (1 + Z.of_nat k)
                                (Contract.iterate
                                   (Contract.newton_step_ln Math_log) k x0))
                   /\ (Math_abs
                         (1 / Contract.iterate
                                (Contract.newton_step_ln Math_log) k x0)
                       <? 1e-10)%float = true)).
Proof.
  split; [| split; [| split]].
  - intros E expression x0 iterations precision rs Hrun. split.
    + intros k r Hr.
      destruct (expr_newton_nth _ _ _ _ _ Hrun _ Hr)
        as (xk & xk1 & Hxk & Hstep & Hrec).
      exists xk, xk1. repeat split; try assumption; apply Hrec.
    + now apply expr_newton_length with (precision := precision).
  - intros E expression x0 precision n Hp Hsteps.
    now apply expr_newton_runs.
  - intros Math_log x0 iterations targetValue precision rs Hrun k r Hr xk.
    subst xk. eapply hardwired_newton_nth; eassumption.
  - intros Math_log x0 iterations targetValue precision Hp.
    now apply hardwired_newton_run_shape.
Qed.

Lemma newton_step_by_symbolic_derivative_witness :
  (exists rs,
     MathUtilsExpr.newtonRaphson SampleEngine.mathjs "x^2 - 2" 1%float
       (Z.of_nat 4) 6 = Normal rs
     /\ Datatypes.length rs = 4%nat)
  /\ (exists xk xk1,
        Contract.iterate_checked
          (Contract.newton_step SampleEngine.mathjs "x^2 - 2") 1 1%float
        = Normal xk
        /\ Contract.newton_step SampleEngine.mathjs "x^2 - 2" xk = Normal xk1
        /\ Contract.step_record 6 (1 + Z.of_nat 1) xk xk1
             (mkIterationResult 2 1.416667%float (Some 5.882353%float)))
  /\ (exists rs,
        MathUtils.newtonRaphson V8.Math_log 2%float 5 0%float 6
        = Normal rs
        /\ let r := mkIterationResult 1 2.613706%float (Some 23.480289%float) in
           let xk := Contract.iterate
                       (Contract.newton_step_ln V8.Math_log) 0 2%float in
           Contract.step_record 6 (1 + Z.of_nat 0) xk
             (Contract.newton_step_ln V8.Math_log xk) r
           \/ (1%nat = Datatypes.length rs
               /\ r = degenerate_marker (1 + Z.of_nat 0) xk
               /\ (Math_abs (1 / xk) <? 1e-10)%float = true)).
Proof.
  destruct newton_step_by_symbolic_derivative
    as (Hexpr & Hruns & Hhard & _).
  split; [| split].
  - apply (Hruns SampleEngine.mathjs "x^2 - 2"%string 1%float 6%Z 4%nat).
    + lia.
    + intros k Hk.
      destruct k as [| [| [| [| k]]]]; [| | | | lia];
        do 3 eexists; (split; [vm_compute; reflexivity |]);
        (split; [vm_compute; reflexivity |]);
        (split; vm_compute; reflexivity).
  - eapply (Hexpr SampleEngine.mathjs "x^2 - 2"%string 1%float 4%Z 6%Z).
    + vm_compute. reflexivity.
    + reflexivity.
  - eexists. split; [vm_compute; reflexivity |].
    eapply (Hhard V8.Math_log 2%float 5%Z 0%float 6%Z).
    + vm_compute. reflexivity.
    + reflexivity.
Defined.

(** ** Failure of the evaluator inside Fixed-Point Iteration *)

Section ExprFixedPointFailure.

Variable E : engine value value.
Variable gExpression : string.
Variable precision : Z.
Hypothesis precision_ok : (0 <= precision <= 100)%Z.

Ltac round_step :=
  match goal with
  | |- context [bind (toFixed_parseFloat ?v precision) _] =>
      let r := fresh "r" in
      destruct (toFixed_parseFloat_total v precision_ok) as [r ->]; simpl bind
  | |- context [bind (round_nullable ?v precision) _] =>
      let r := fresh "r" in
      destruct (round_nullable_total v precision_ok) as (r & -> & _); simpl bind
  end.

(** A pass from a number at which [g] evaluates to a number falls through
    and carries that number on, unrounded. *)
Lemma expr_fixedPoint_number_pass (i : Z) (s : MathUtilsExpr.fp_state)
  (x x' : number) :
  MathUtilsExpr.fp_x s = VNumber x ->
  evaluate E gExpression (VNumber x) = Normal (VNumber x') ->
  exists s',
    MathUtilsExpr.fixedPointIteration_pass E gExpression precision i s
    = Normal (Next s')
    /\ MathUtilsExpr.fp_x s' = VNumber x'.
Proof.
  intros Hx Hg. unfold MathUtilsExpr.fixedPointIteration_pass. cbv zeta.
  rewrite Hx, Hg. simpl bind.
  destruct (MathUtilsExpr.fp_prevX s);
    cbn [bind percent_change_any js_sub js_div to_number call_toFixed];
    repeat round_step;
    (eexists; split; reflexivity).
Qed.

(** As long as [g] evaluates to numbers, the passes fall through and carry
    the unrounded iterates of [x_(k+1) = g(x_k)]. *)
Lemma expr_fixedPoint_reach (k : nat) : forall i s x xk,
  MathUtilsExpr.fp_x s = VNumber x ->
  Recurrence.number_steps (evaluate E gExpression) k x = Some xk ->
  exists sk,
    advance (MathUtilsExpr.fixedPointIteration_pass E gExpression precision)
      k i s = Some sk
    /\ MathUtilsExpr.fp_x sk = VNumber xk.
Proof.
  induction k as [| k IH]; intros i s x xk Hx; simpl.
  - intros [= <-]. eauto.
  - destruct (evaluate E gExpression (VNumber x)) as [[x' | | |] | e] eqn:Hg;
      try discriminate.
    intros Hrest.
    destruct (expr_fixedPoint_number_pass i s Hx Hg) as (s' & -> & Hx').
    apply (IH (i + 1)%Z s' x'); assumption.
Qed.

Lemma expr_fixedPoint_pass_throws (i : Z) (s : MathUtilsExpr.fp_state) (e : exn) :
  evaluate E gExpression (MathUtilsExpr.fp_x s) = Throw e ->
  MathUtilsExpr.fixedPointIteration_pass E gExpression precision i s = Throw e.
Proof.
  intros Hg. unfold MathUtilsExpr.fixedPointIteration_pass. now rewrite Hg.
Qed.

(** An evaluation of [g] that throws at a point the run gets to is thrown
    out of the expression-driven Fixed-Point Iteration. *)
Lemma expr_fixedPoint_throws x0 iterations (k : nat) xk e :
  (Z.of_nat k < iterations)%Z ->
  Recurrence.number_steps (evaluate E gExpression) k x0 = Some xk ->
  evaluate E gExpression (VNumber xk) = Throw e ->
  MathUtilsExpr.fixedPointIteration E gExpression x0 iterations precision
  = Throw e.
Proof.
  intros Hk Hreached Hfails. unfold MathUtilsExpr.fixedPointIteration.
  destruct (expr_fixedPoint_reach k 1%Z
              (MathUtilsExpr.mkFp (VNumber x0) VNull []) eq_refl Hreached)
    as (sk & Hadv & Hx).
  assert (Hloop :
            for_loop (MathUtilsExpr.fixedPointIteration_pass E gExpression precision)
              (Z.to_nat iterations) 1 (MathUtilsExpr.mkFp (VNumber x0) VNull [])
            = Throw e).
  { apply for_loop_throw with (k := k) (sk := sk); [lia | assumption |].
    apply expr_fixedPoint_pass_throws. now rewrite Hx. }
  now rewrite Hloop.
Qed.

End ExprFixedPointFailure.

(** C2, at failing inputs.  A domain error of the logarithm is no failure
    in either variant.  The hard-wired Fixed-Point Iteration never fails,
    whatever [Math.log] gives: from [0], where [Math.log] is [-Infinity],
    it returns records holding [Infinity] and [NaN].  The expression-driven
    one stores the [-Infinity] that [log(x)] evaluates to at [0] and
    returns; only the next iterate, a Complex, ends the call, and by a
    [TypeError] of [toFixed].  [safeEvaluate], of the same library, is the
    guard that answers [null] in both cases. *)
Theorem fixed_point_keeps_failed_evaluations :
  (forall Math_log x0 (iterations : nat) targetValue,
     exists rs,
       MathUtils.fixedPointIteration Math_log x0 (Z.of_nat iterations)
         targetValue 6 = Normal rs
       /\ Datatypes.length rs = iterations)
  /\ V8.Math_log 0%float = neg_infinity
  /\ MathUtils.fixedPointIteration V8.Math_log 0%float 3 0%float 6
     = Normal [mkIterationResult 1 infinity None;
               mkIterationResult 2 nan (Some nan);
               mkIterationResult 3 nan (Some nan)]
  /\ evaluate SampleEngine.mathjs "log(x)" (VNumber 0%float)
     = Normal (VNumber neg_infinity)
  /\ MathUtilsExpr.fixedPointIteration SampleEngine.mathjs "log(x)" 1%float 2 6
     = Normal [mkIterationResult 1 0%float None;
               mkIterationResult 2 neg_infinity (Some nan)]
  /\ evaluate SampleEngine.mathjs "log(x)" (VNumber neg_infinity)
     = Normal SampleEngine.complex
  /\ MathUtilsExpr.fixedPointIteration SampleEngine.mathjs "log(x)" 1%float 3 6
     = Throw (mkExn TypeErrorClass "nextX.toFixed is not a function")
  /\ MathUtils.safeEvaluate SampleEngine.untyped SampleEngine.Log 0%float
     = Normal None
  /\ MathUtils.safeEvaluate SampleEngine.untyped SampleEngine.Log neg_infinity
     = Normal None.
Proof.
  split.
  - intros Math_log x0 iterations targetValue.
    assert (Hp : (0 <= 6 <= 100)%Z) by lia.
    destruct (hardwired_returns (Z.of_nat iterations) Math_log x0 x0
                targetValue Hp) as ((rs & Hrs) & _).
    exists rs. split; [assumption |].
    apply hardwired_fixedPoint_run in Hrs; [| lia].
    destruct Hrs as [Hlen _]. lia.
  - repeat (split; [vm_compute; reflexivity |]). vm_compute. reflexivity.
Qed.

(** ** Degenerate steps *)

Section DegenerateSteps.

Variable precision : Z.

Lemma hardwired_newton_degenerate Math_log (i : Z) (s : MathUtils.nr_state) :
  (Math_abs (MathUtils.fPrime (MathUtils.nr_x s)) <? 1e-10)%float = true ->
  MathUtils.newtonRaphson_pass Math_log precision i s
  = Normal (Break (MathUtils.mkNr (MathUtils.nr_x s)
                     (MathUtils.nr_results s
                      ++ [degenerate_marker i (MathUtils.nr_x s)]))).
Proof.
  intros Hdeg. unfold MathUtils.newtonRaphson_pass. now rewrite Hdeg.
Qed.

Lemma hardwired_secant_degenerate Math_log (i : Z) (s : MathUtils.sec_state) :
  (Math_abs (MathUtils.f Math_log (MathUtils.sec_x1 s)
             - MathUtils.f Math_log (MathUtils.sec_x0 s)) <? 1e-10)%float = true ->
  MathUtils.secantMethod_pass Math_log precision i s
  = Normal (Break (MathUtils.mkSec (MathUtils.sec_x0 s) (MathUtils.sec_x1 s)
                     (MathUtils.sec_results s
                      ++ [degenerate_marker i (MathUtils.sec_x1 s)]))).
Proof.
  intros Hdeg. unfold MathUtils.secantMethod_pass. now rewrite Hdeg.
Qed.

Lemma expr_newton_degenerate (E : engine value value) expression
  (i : Z) (s : MathUtilsExpr.nr_state) (fx : value) (fpx : number) :
  evaluate E expression (VNumber (MathUtilsExpr.nr_x s)) = Normal fx ->
  as_number (MathUtilsExpr.fPrime E expression (MathUtilsExpr.nr_x s))
  = Normal fpx ->
  (Math_abs fpx <? 1e-10)%float = true ->
  MathUtilsExpr.newtonRaphson_pass E expression precision i s = Normal (Break s).
Proof.
  intros Hfx Hfpx Hdeg. unfold MathUtilsExpr.newtonRaphson_pass.
  apply as_number_Normal in Hfpx. destruct Hfpx as (fpxv & Hfpxv & Hb).
  rewrite Hfx. simpl bind. rewrite Hfpxv. simpl bind.
  unfold Math_abs_of. rewrite Hb. simpl bind. now rewrite Hdeg.
Qed.

Lemma expr_secant_degenerate (E : engine value value) expression
  (i : Z) (s : MathUtilsExpr.sec_state) (fx0 fx1 : number) :
  as_number (evaluate E expression (VNumber (MathUtilsExpr.sec_x0 s)))
  = Normal fx0 ->
  as_number (evaluate E expression (VNumber (MathUtilsExpr.sec_x1 s)))
  = Normal fx1 ->
  (Math_abs (fx1 - fx0) <? 1e-10)%float = true ->
  MathUtilsExpr.secantMethod_pass E expression precision i s = Normal (Break s).
Proof.
  intros Hfx0 Hfx1 Hdeg. unfold MathUtilsExpr.secantMethod_pass.
  apply as_number_Normal in Hfx0. destruct Hfx0 as (v0 & Hv0 & Ha).
  apply as_number_Normal in Hfx1. destruct Hfx1 as (v1 & Hv1 & Hb).
  rewrite Hv0. simpl bind. rewrite Hv1. simpl bind.
  unfold js_sub at 1. rewrite Hb. simpl bind. rewrite Ha. simpl bind.
  now rewrite Hdeg.
Qed.

(** Every pass that falls through appends one record. *)
Lemma hardwired_newton_appends Math_log (i : Z) (s s' : MathUtils.nr_state) :
  MathUtils.newtonRaphson_pass Math_log precision i s = Normal (Next s') ->
  exists r, MathUtils.nr_results s' = MathUtils.nr_results s ++ [r]
            /\ iteration r = i.
Proof.
  intros Hb. apply hardwired_newton_Next in Hb.
  destruct Hb as (approx & relErr & _ & _ & _ & ->). simpl. eauto.
Qed.

Lemma hardwired_secant_appends Math_log (i : Z) (s s' : MathUtils.sec_state) :
  MathUtils.secantMethod_pass Math_log precision i s = Normal (Next s') ->
  exists r, MathUtils.sec_results s' = MathUtils.sec_results s ++ [r]
            /\ iteration r = i.
Proof.
  intros Hb. apply hardwired_secant_Next in Hb.
  destruct Hb as (approx & relErr & _ & _ & _ & ->). simpl. eauto.
Qed.

Lemma expr_newton_appends (E : engine value value) expression
  (i : Z) (s s' : MathUtilsExpr.nr_state) :
  MathUtilsExpr.newtonRaphson_pass E expression precision i s = Normal (Next s') ->
  exists r, MathUtilsExpr.nr_results s' = MathUtilsExpr.nr_results s ++ [r]
            /\ iteration r = i.
Proof.
  intros Hb. apply expr_newton_Next in Hb.
  destruct Hb as (fx & fpx & approx & relErr & _ & _ & _ & _ & _ & ->).
  simpl. eauto.
Qed.

Lemma expr_secant_appends (E : engine value value) expression
  (i : Z) (s s' : MathUtilsExpr.sec_state) :
  MathUtilsExpr.secantMethod_pass E expression precision i s = Normal (Next s') ->
  exists r, MathUtilsExpr.sec_results s' = MathUtilsExpr.sec_results s ++ [r]
            /\ iteration r = i.
Proof.
  intros Hb. apply expr_secant_Next in Hb.
  destruct Hb as (fx0 & fx1 & approx & relErr & _ & _ & _ & _ & _ & ->).
  simpl. eauto.
Qed.

End DegenerateSteps.

(** C3. When a step of [newtonRaphson] finds [|f'(x_k)| < 1e-10], or a step
    of [secantMethod] finds [|f(x1) - f(x0)| < 1e-10], the loop is left at
    once and the call returns normally, with no exception: whatever the
    iteration count [n > k], the result is the list of the [k] records of
    the steps completed so far (what a run of exactly [k] iterations
    returns), to which the hard-wired variant appends its one marker record
    for the degenerate step. *)
Theorem degenerate_step_returns_partial_run :
  (forall Math_log x0 iterations targetValue precision k sk,
     (Z.of_nat k < iterations)%Z ->
     advance (MathUtils.newtonRaphson_pass Math_log precision) k 1
       (MathUtils.mkNr x0 []) = Some sk ->
     (Math_abs (MathUtils.fPrime (MathUtils.nr_x sk)) <? 1e-10)%float = true ->
     MathUtils.newtonRaphson Math_log x0 iterations targetValue precision
     = Normal (MathUtils.nr_results sk
               ++ [degenerate_marker (1 + Z.of_nat k) (MathUtils.nr_x sk)])
     /\ MathUtils.newtonRaphson Math_log x0 (Z.of_nat k) targetValue precision
        = Normal (MathUtils.nr_results sk)
     /\ Datatypes.length (MathUtils.nr_results sk) = k)
  /\ (forall Math_log x0 x1 iterations targetValue precision k sk,
        (Z.of_nat k < iterations)%Z ->
        advance (MathUtils.secantMethod_pass Math_log precision) k 1
          (MathUtils.mkSec x0 x1 []) = Some sk ->
        (Math_abs (MathUtils.f Math_log (MathUtils.sec_x1 sk)
                   - MathUtils.f Math_log (MathUtils.sec_x0 sk)) <? 1e-10)%float
        = true ->
        MathUtils.secantMethod Math_log x0 x1 iterations targetValue precision
        = Normal (MathUtils.sec_results sk
                  ++ [degenerate_marker (1 + Z.of_nat k) (MathUtils.sec_x1 sk)])
        /\ MathUtils.secantMethod Math_log x0 x1 (Z.of_nat k) targetValue precision
           = Normal (MathUtils.sec_results sk)
        /\ Datatypes.length (MathUtils.sec_results sk) = k)
  /\ (forall (E : engine value value) expression x0 iterations precision k sk fx fpx,
        (Z.of_nat k < iterations)%Z ->
        advance (MathUtilsExpr.newtonRaphson_pass E expression precision) k 1
          (MathUtilsExpr.mkNr x0 []) = Some sk ->
        evaluate E expression (VNumber (MathUtilsExpr.nr_x sk)) = Normal fx ->
        as_number (MathUtilsExpr.fPrime E expression (MathUtilsExpr.nr_x sk))
        = Normal fpx ->
        (Math_abs fpx <? 1e-10)%float = true ->
        MathUtilsExpr.newtonRaphson E expression x0 iterations precision
        = Normal (MathUtilsExpr.nr_results sk)
        /\ MathUtilsExpr.newtonRaphson E expression x0 (Z.of_nat k) precision
           = Normal (MathUtilsExpr.nr_results sk)
        /\ Datatypes.length (MathUtilsExpr.nr_results sk) = k)
  /\ (forall (E : engine value value) expression x0 x1 iterations precision k sk
             fx0 fx1,
        (Z.of_nat k < iterations)%Z ->
        advance (MathUtilsExpr.secantMethod_pass E expression precision) k 1
          (MathUtilsExpr.mkSec x0 x1 []) = Some sk ->
        as_number (evaluate E expression (VNumber (MathUtilsExpr.sec_x0 sk)))
        = Normal fx0 ->
        as_number (evaluate E expression (VNumber (MathUtilsExpr.sec_x1 sk)))
        = Normal fx1 ->
        (Math_abs (fx1 - fx0) <? 1e-10)%float = true ->
        MathUtilsExpr.secantMethod E expression x0 x1 iterations precision
        = Normal (MathUtilsExpr.sec_results sk)
        /\ MathUtilsExpr.secantMethod E expression x0 x1 (Z.of_nat k) precision
           = Normal (MathUtilsExpr.sec_results sk)
        /\ Datatypes.length (MathUtilsExpr.sec_results sk) = k).
Proof.
  split; [| split; [| split]].
  - intros Math_log x0 iterations targetValue precision k sk Hk Hadv Hdeg.
    unfold MathUtils.newtonRaphson. split; [| split].
    + rewrite for_loop_break with (k := k) (sk := sk)
        (s' := MathUtils.mkNr (MathUtils.nr_x sk)
                 (MathUtils.nr_results sk
                  ++ [degenerate_marker (1 + Z.of_nat k) (MathUtils.nr_x sk)]));
        [reflexivity | lia | assumption |].
      now apply hardwired_newton_degenerate.
    + rewrite Nat2Z.id, (advance_for_loop _ _ _ _ Hadv). reflexivity.
    + apply (advance_numbering _ MathUtils.nr_results) in Hadv;
        [tauto | | reflexivity].
      intros i s1 s2. apply hardwired_newton_appends.
  - intros Math_log x0 x1 iterations targetValue precision k sk Hk Hadv Hdeg.
    unfold MathUtils.secantMethod. split; [| split].
    + rewrite for_loop_break with (k := k) (sk := sk)
        (s' := MathUtils.mkSec (MathUtils.sec_x0 sk) (MathUtils.sec_x1 sk)
                 (MathUtils.sec_results sk
                  ++ [degenerate_marker (1 + Z.of_nat k) (MathUtils.sec_x1 sk)]));
        [reflexivity | lia | assumption |].
      now apply hardwired_secant_degenerate.
    + rewrite Nat2Z.id, (advance_for_loop _ _ _ _ Hadv). reflexivity.
    + apply (advance_numbering _ MathUtils.sec_results) in Hadv;
        [tauto | | reflexivity].
      intros i s1 s2. apply hardwired_secant_appends.
  - intros E expression x0 iterations precision k sk fx fpx Hk Hadv Hfx Hfpx Hdeg.
    unfold MathUtilsExpr.newtonRaphson. split; [| split].
    + rewrite for_loop_break with (k := k) (sk := sk) (s' := sk);
        [reflexivity | lia | assumption |].
      now apply expr_newton_degenerate with (fx := fx) (fpx := fpx).
    + rewrite Nat2Z.id, (advance_for_loop _ _ _ _ Hadv). reflexivity.
    + apply (advance_numbering _ MathUtilsExpr.nr_results) in Hadv;
        [tauto | | reflexivity].
      intros i s1 s2. apply expr_newton_appends.
  - intros E expression x0 x1 iterations precision k sk fx0 fx1
      Hk Hadv Hfx0 Hfx1 Hdeg.
    unfold MathUtilsExpr.secantMethod. split; [| split].
    + rewrite for_loop_break with (k := k) (sk := sk) (s' := sk);
        [reflexivity | lia | assumption |].
      now apply expr_secant_degenerate with (fx0 := fx0) (fx1 := fx1).
    + rewrite Nat2Z.id, (advance_for_loop _ _ _ _ Hadv). reflexivity.
    + apply (advance_numbering _ MathUtilsExpr.sec_results) in Hadv;
        [tauto | | reflexivity].
      intros i s1 s2. apply expr_secant_appends.
Qed.

Lemma degenerate_step_returns_partial_run_witness :
  (exists sk,
     advance (MathUtils.secantMethod_pass V8.Math_log 6) 6 1
       (MathUtils.mkSec 2%float 3%float []) = Some sk
     /\ MathUtils.secantMethod V8.Math_log 2%float 3%float 20 0%float 6
        = Normal (MathUtils.sec_results sk
                  ++ [degenerate_marker 7 (MathUtils.sec_x1 sk)])
     /\ Datatypes.length (MathUtils.sec_results sk) = 6%nat)
  /\ (MathUtilsExpr.newtonRaphson SampleEngine.mathjs "x^2 - 2" 0%float 10 6
      = Normal []
      /\ MathUtilsExpr.newtonRaphson SampleEngine.mathjs "x^2 - 2" 0%float 0 6
         = Normal [])
  /\ (exists sk,
        advance (MathUtilsExpr.secantMethod_pass SampleEngine.mathjs "x^2 - 2" 6)
          7 1 (MathUtilsExpr.mkSec 1%float 2%float []) = Some sk
        /\ MathUtilsExpr.secantMethod SampleEngine.mathjs "x^2 - 2"
             1%float 2%float 20 6
           = Normal (MathUtilsExpr.sec_results sk)
        /\ Datatypes.length (MathUtilsExpr.sec_results sk) = 7%nat).
Proof.
  destruct degenerate_step_returns_partial_run
    as (_ & Hsecant & Hnewton' & Hsecant').
  split; [| split].
  - eexists. split; [vm_compute; reflexivity |].
    edestruct (Hsecant V8.Math_log 2%float 3%float 20%Z 0%float 6%Z
                 6%nat) as (Hrun & _ & Hlen).
    + simpl. lia.
    + vm_compute. reflexivity.
    + vm_compute. reflexivity.
    + split; [exact Hrun | exact Hlen].
  - edestruct (Hnewton' SampleEngine.mathjs "x^2 - 2"%string 0%float 10%Z 6%Z
                 0%nat (MathUtilsExpr.mkNr 0%float [])) as (Hrun & Hshort & _).
    + simpl. lia.
    + reflexivity.
    + vm_compute. reflexivity.
    + vm_compute. reflexivity.
    + vm_compute. reflexivity.
    + split; [exact Hrun | exact Hshort].
  - eexists. split; [vm_compute; reflexivity |].
    edestruct (Hsecant' SampleEngine.mathjs "x^2 - 2"%string 1%float 2%float
                 20%Z 6%Z 7%nat) as (Hrun & _ & Hlen).
    + simpl. lia.
    + vm_compute. reflexivity.
    + vm_compute. reflexivity.
    + vm_compute. reflexivity.
    + vm_compute. reflexivity.
    + split; [exact Hrun | exact Hlen].
Defined.

(** ** Relative errors *)

(** Division rounds the magnitude independently of the signs. *)
Lemma abs_div (a b : number) : abs (a / b) = (abs a / abs b)%float.
Proof.
  apply Prim2SF_inj. rewrite abs_spec, !div_spec, !abs_spec.
  unfold SF64div.
  destruct (Prim2SF a) as [sa | sa | | sa ma ea],
           (Prim2SF b) as [sb | sb | | sb mb eb]; try reflexivity.
  simpl SFabs. unfold SFdiv.
  destruct (SFdiv_core_binary prec emax (Z.pos ma) ea (Z.pos mb) eb)
    as [[mz ez] lz].
  unfold binary_round_aux.
  destruct (shr_fexp prec emax mz ez lz) as [mrs' e'].
  destruct (shr_fexp prec emax _ e' loc_Exact) as [mrs'' e''].
  destruct (shr_m mrs'') as [| m | m]; try reflexivity.
  destruct (e'' <=? emax - prec)%Z; reflexivity.
Qed.

Lemma percent_change_relative_error (next prev : number) :
  percent_change next prev = Contract.relative_error_percent next prev.
Proof.
  unfold percent_change, Contract.relative_error_percent, Math_abs.
  now rewrite abs_div.
Qed.

Section HardWiredFixedPointErrors.

Variable Math_log : number -> number.
Variable precision : Z.

Lemma hardwired_fixedPoint_pass_error (i : Z) (s s' : MathUtils.fp_state) :
  first_pass_only i (MathUtils.fp_prevX s) ->
  MathUtils.fixedPointIteration_pass Math_log precision i s = Normal (Next s') ->
  first_pass_only (i + 1) (MathUtils.fp_prevX s')
  /\ exists r, MathUtils.fp_results s' = MathUtils.fp_results s ++ [r]
               /\ null_on_first_only i r.
Proof.
  intros Hfirst Hpass. apply hardwired_fixedPoint_Next in Hpass. cbv zeta in Hpass.
  destruct Hpass as (approx & relErr & _ & Hr & ->). simpl.
  split.
  - right. split; [destruct Hfirst as [[-> _] | [Hi _]]; lia | discriminate].
  - eexists. split; [reflexivity |]. unfold null_on_first_only. simpl.
    apply round_nullable_Normal in Hr.
    destruct Hfirst as [[-> Hprev] | [Hi Hprev]].
    + rewrite Hprev in Hr. destruct relErr; [contradiction | tauto].
    + destruct (MathUtils.fp_prevX s); [| contradiction].
      destruct relErr; [| contradiction]. split; [discriminate | lia].
Qed.

Lemma hardwired_fixedPoint_errors x0 iterations targetValue rs :
  MathUtils.fixedPointIteration Math_log x0 iterations targetValue precision
  = Normal rs ->
  Datatypes.length rs = Z.to_nat iterations
  /\ forall k r, nth_error rs k = Some r -> (relativeError r = None <-> k = O).
Proof.
  unfold MathUtils.fixedPointIteration. intros H.
  destruct (for_loop _ _ _ _) as [s' | e] eqn:Hloop; [| discriminate].
  injection H as <-.
  destruct (for_loop_Normal_inv _ _ _ _ Hloop)
    as [Hall | (j & sj & _ & _ & Hbrk)];
    [| now apply hardwired_fixedPoint_no_Break in Hbrk].
  destruct (advance_records _ MathUtils.fp_results
              (fun i s => first_pass_only i (MathUtils.fp_prevX s))
              null_on_first_only hardwired_fixedPoint_pass_error
              (Z.to_nat iterations) 1%Z (MathUtils.mkFp x0 None []))
    with (sk := s') as (_ & new & Hres & Hlen & Hnew).
  - left. split; reflexivity.
  - assumption.
  - simpl in Hres. subst new. split; [assumption |]. intros k r Hr.
    apply Hnew in Hr. unfold null_on_first_only in Hr. rewrite Hr. lia.
Qed.

End HardWiredFixedPointErrors.

Section ExprFixedPointErrors.

Variable E : engine value value.
Variable gExpression : string.
Variable precision : Z.

Lemma expr_fixedPoint_pass_error (i : Z) (s s' : MathUtilsExpr.fp_state) :
  first_pass_only_any i s ->
  MathUtilsExpr.fixedPointIteration_pass E gExpression precision i s
  = Normal (Next s') ->
  first_pass_only_any (i + 1) s'
  /\ exists r, MathUtilsExpr.fp_results s' = MathUtilsExpr.fp_results s ++ [r]
               /\ null_on_first_only i r.
Proof.
  intros [Hfirst Hx] Hpass. apply expr_fixedPoint_Next in Hpass.
  destruct Hpass
    as (nextX & approx & relativeError & relErr & _ & Herr & Ha & Hr & ->).
  simpl. split.
  - split.
    + right. simpl. split; [destruct Hfirst as [[-> _] | [Hi _]]; lia | assumption].
    + simpl. now apply call_toFixed_not_null in Ha.
  - eexists. split; [reflexivity |]. unfold null_on_first_only. simpl.
    apply round_nullable_Normal in Hr.
    destruct Hfirst as [[-> Hprev] | [Hi Hprev]].
    + rewrite Hprev in Herr. injection Herr as <-.
      destruct relErr; [contradiction | tauto].
    + assert (Hsome : exists e, relativeError = Some e).
      { destruct (MathUtilsExpr.fp_prevX s); try contradiction;
          destruct (percent_change_any nextX (MathUtilsExpr.fp_x s));
          simpl in Herr; try discriminate; injection Herr as <-; eauto. }
      destruct Hsome as [e ->].
      destruct relErr; [| contradiction]. split; [discriminate | lia].
Qed.

Lemma expr_fixedPoint_errors x0 iterations rs :
  MathUtilsExpr.fixedPointIteration E gExpression x0 iterations precision
  = Normal rs ->
  Datatypes.length rs = Z.to_nat iterations
  /\ forall k r, nth_error rs k = Some r -> (relativeError r = None <-> k = O).
Proof.
  unfold MathUtilsExpr.fixedPointIteration. intros H.
  destruct (for_loop _ _ _ _) as [s' | e] eqn:Hloop; [| discriminate].
  injection H as <-.
  destruct (for_loop_Normal_inv _ _ _ _ Hloop)
    as [Hall | (j & sj & _ & _ & Hbrk)];
    [| now apply expr_fixedPoint_no_Break in Hbrk].
  destruct (advance_records _ MathUtilsExpr.fp_results
              first_pass_only_any
              null_on_first_only expr_fixedPoint_pass_error
              (Z.to_nat iterations) 1%Z
              (MathUtilsExpr.mkFp (VNumber x0) VNull []))
    with (sk := s') as (_ & new & Hres & Hlen & Hnew).
  - split; [left; split; reflexivity | discriminate].
  - assumption.
  - simpl in Hres. subst new. split; [assumption |]. intros k r Hr.
    apply Hnew in Hr. unfold null_on_first_only in Hr. rewrite Hr. lia.
Qed.

End ExprFixedPointErrors.

(** C8. A [fixedPointIteration] run returns [iterations] records, of which
    the first has a null [relativeError] and every later one a number;
    [newtonRaphson] stores on every step it completes, the first one
    included, the (rounded) relative error
    [|x_(k+1) - x_k| / |x_(k+1)| * 100].  The records exist: with a
    precision [toFixed] accepts the functions of [src/lib/math-utils.ts]
    return for every input, Fixed-Point Iteration with [iterations]
    records and Newton-Raphson with [iterations] records unless it stopped
    at a degenerate step, whose marker, in last place, is its only record
    without an error.  The expression-driven Fixed-Point Iteration returns
    [iterations] records wherever it returns, which it does when every
    evaluation gives a number. *)
Theorem relative_error_first_record :
  (forall Math_log x0 iterations targetValue precision rs,
     MathUtils.fixedPointIteration Math_log x0 iterations targetValue precision
     = Normal rs ->
     forall k r, nth_error rs k = Some r ->
       (relativeError r = None <-> k = O))
  /\ (forall Math_log x0 iterations targetValue precision,
        (0 <= precision <= 100)%Z ->
        exists rs,
          MathUtils.fixedPointIteration Math_log x0 iterations targetValue
            precision = Normal rs
          /\ Datatypes.length rs = Z.to_nat iterations)
  /\ (forall (E : engine value value) gExpression x0 iterations precision rs,
        MathUtilsExpr.fixedPointIteration E gExpression x0 iterations precision
        = Normal rs ->
        Datatypes.length rs = Z.to_nat iterations
        /\ forall k r, nth_error rs k = Some r ->
             (relativeError r = None <-> k = O))
  /\ (forall (E : engine value value) gExpression x0 iterations precision,
        (0 <= precision <= 100)%Z ->
        (forall x, exists v,
           evaluate E gExpression (VNumber x) = Normal (VNumber v)) ->
        exists rs,
          MathUtilsExpr.fixedPointIteration E gExpression x0 iterations
            precision = Normal rs
          /\ Datatypes.length rs = Z.to_nat iterations)
  /\ (forall (E : engine value value) expression x0 iterations precision rs,
        MathUtilsExpr.newtonRaphson E expression x0 iterations precision
        = Normal rs ->
        (forall k r, nth_error rs k = Some r ->
           exists xk xk1 relErr,
             Contract.iterate_checked (Contract.newton_step E expression) k x0
             = Normal xk
             /\ Contract.newton_step E expression xk = Normal xk1
             /\ toFixed_parseFloat (Contract.relative_error_percent xk1 xk)
                  precision = Normal relErr
             /\ relativeError r = Some relErr)
        /\ (Datatypes.length rs = Z.to_nat iterations
            \/ (Datatypes.length rs < Z.to_nat iterations)%nat
               /\ exists xk fx fpx,
                    Contract.iterate_checked (Contract.newton_step E expression)
                      (Datatypes.length rs) x0 = Normal xk
                    /\ evaluate E expression (VNumber xk) = Normal fx
                    /\ Contract.symbolic_derivative_at E expression xk
                       = Normal fpx
                    /\ (Math_abs fpx <? 1e-10)%float = true))
  /\ (forall Math_log x0 iterations targetValue precision rs,
        MathUtils.newtonRaphson Math_log x0 iterations targetValue precision
        = Normal rs ->
        forall k r, nth_error rs k = Some r ->
          let xk := Contract.iterate (Contract.newton_step_ln Math_log) k x0 in
          let xk1 := Contract.newton_step_ln Math_log xk in
          (exists relErr,
             toFixed_parseFloat (Contract.relative_error_percent xk1 xk)
               precision = Normal relErr
             /\ relativeError r = Some relErr)
          \/ (S k = Datatypes.length rs
              /\ r = degenerate_marker (1 + Z.of_nat k) xk))
  /\ (forall Math_log x0 iterations targetValue precision,
        (0 <= precision <= 100)%Z ->
        exists rs,
          MathUtils.newtonRaphson Math_log x0 iterations targetValue precision
          = Normal rs
          /\ (Datatypes.length rs = Z.to_nat iterations
              \/ exists k,
                   Datatypes.length rs = S k
                   /\ (k < Z.to_nat iterations)%nat
                   /\ nth_error rs k
                      = Some (degenerate_marker (1 + Z.of_nat k)
                                (Contract.iterate
                                   (Contract.newton_step_ln Math_log) k x0))
                   /\ (Math_abs
                         (1 / Contract.iterate
                                (Contract.newton_step_ln Math_log) k x0)
                       <? 1e-10)%float = true)).
Proof.
  split; [| split; [| split; [| split; [| split; [| split]]]]].
  - intros Math_log x0 iterations targetValue precision rs Hrun.
    now destruct (hardwired_fixedPoint_errors _ _ _ _ _ Hrun).
  - intros Math_log x0 iterations targetValue precision Hp.
    destruct (hardwired_returns iterations Math_log x0 x0 targetValue Hp)
      as ((rs & Hrun) & _).
    exists rs. split; [assumption |].
    now destruct (hardwired_fixedPoint_errors _ _ _ _ _ Hrun).
  - intros E gExpression x0 iterations precision rs Hrun.
    exact (expr_fixedPoint_errors _ _ _ _ _ Hrun).
  - intros E gExpression x0 iterations precision Hp Htotal.
    destruct (expr_returns iterations E gExpression x0 x0 Hp Htotal)
      as ((rs & Hrun) & _).
    exists rs. split; [assumption |].
    now destruct (expr_fixedPoint_errors _ _ _ _ _ Hrun).
  - intros E expression x0 iterations precision rs Hrun. split.
    + intros k r Hr.
      destruct (expr_newton_nth _ _ _ _ _ Hrun _ Hr)
        as (xk & xk1 & Hxk & Hstep & _ & _ & relErr & Hrel & Hstored).
      exists xk, xk1, relErr. rewrite <- percent_change_relative_error. auto.
    + now apply expr_newton_length with (precision := precision).
  - intros Math_log x0 iterations targetValue precision rs Hrun k r Hr xk xk1.
    destruct (hardwired_newton_nth _ _ _ _ _ Hrun _ Hr)
      as [(_ & _ & relErr & Hrel & Hstored) | (Hlast & Hmarker & _)].
    + left. exists relErr. subst xk xk1.
      rewrite <- percent_change_relative_error. auto.
    + right. auto.
  - intros Math_log x0 iterations targetValue precision Hp.
    now apply hardwired_newton_run_shape.
Qed.

Lemma relative_error_first_record_witness :
  (exists rs,
     MathUtils.fixedPointIteration V8.Math_log 2%float 5 0%float 6
     = Normal rs
     /\ Datatypes.length rs = Z.to_nat 5
     /\ (forall k r, nth_error rs k = Some r ->
           (relativeError r = None <-> k = O)))
  /\ (exists rs,
        MathUtils.newtonRaphson V8.Math_log 2%float 5 0%float 6 = Normal rs
        /\ (Datatypes.length rs = Z.to_nat 5
            \/ exists k,
                 Datatypes.length rs = S k
                 /\ (k < Z.to_nat 5)%nat
                 /\ nth_error rs k
                    = Some (degenerate_marker (1 + Z.of_nat k)
                              (Contract.iterate
                                 (Contract.newton_step_ln V8.Math_log) k
                                 2%float))
                 /\ (Math_abs
                       (1 / Contract.iterate
                              (Contract.newton_step_ln V8.Math_log) k 2%float)
                     <? 1e-10)%float = true))
  /\ (exists xk xk1 relErr,
        Contract.iterate_checked
          (Contract.newton_step SampleEngine.mathjs "x^2 - 2") 0 1%float
        = Normal xk
        /\ Contract.newton_step SampleEngine.mathjs "x^2 - 2" xk = Normal xk1
        /\ toFixed_parseFloat (Contract.relative_error_percent xk1 xk) 6
           = Normal relErr
        /\ relativeError (mkIterationResult 1 1.5%float (Some 33.333333%float))
           = Some relErr).
Proof.
  destruct relative_error_first_record
    as (Hfixed & Hfixed_runs & _ & _ & Hnewton & _ & Hnewton_runs).
  assert (Hp : (0 <= 6 <= 100)%Z) by lia.
  split; [| split].
  - destruct (Hfixed_runs V8.Math_log 2%float 5%Z 0%float 6%Z Hp)
      as (rs & Hrun & Hlen).
    exists rs. split; [assumption |]. split; [assumption |].
    exact (Hfixed _ _ _ _ _ _ Hrun).
  - exact (Hnewton_runs V8.Math_log 2%float 5%Z 0%float 6%Z Hp).
  - eapply (Hnewton SampleEngine.mathjs "x^2 - 2"%string 1%float 4%Z 6%Z).
    + vm_compute. reflexivity.
    + reflexivity.
Defined.

(** ** The unused [targetValue] *)

(** C9. The three root finders of [src/lib/math-utils.ts] are hard-wired to
    [G(x) = x - ln(x) + 1], [f(x) = ln(x) - 1] and [f'(x) = 1 / x] (a run of
    one iteration shows them at work) and never read [targetValue]: two
    calls that differ in [targetValue] only have the same outcome. *)
Theorem target_value_is_never_read
  (Math_log : number -> number) (x0 x1 : number) (iterations precision : Z)
  (targetValue targetValue' : number) :
  (MathUtils.fixedPointIteration Math_log x0 iterations targetValue precision
   = MathUtils.fixedPointIteration Math_log x0 iterations targetValue' precision
   /\ MathUtils.newtonRaphson Math_log x0 iterations targetValue precision
      = MathUtils.newtonRaphson Math_log x0 iterations targetValue' precision
   /\ MathUtils.secantMethod Math_log x0 x1 iterations targetValue precision
      = MathUtils.secantMethod Math_log x0 x1 iterations targetValue' precision)
  /\ (MathUtils.fixedPointIteration Math_log x0 1 targetValue precision
      = (approx <- toFixed_parseFloat (x0 - Math_log x0 + 1)%float precision ;;
         Normal [mkIterationResult 1 approx None])
      /\ MathUtils.newtonRaphson Math_log x0 1 targetValue precision
         = (if (Math_abs (1 / x0) <? 1e-10)%float
            then Normal [degenerate_marker 1 x0]
            else
              let nextX := (x0 - (Math_log x0 - 1) / (1 / x0))%float in
              approx <- toFixed_parseFloat nextX precision ;;
              relErr <- toFixed_parseFloat (percent_change nextX x0) precision ;;
              Normal [mkIterationResult 1 approx (Some relErr)])
      /\ MathUtils.secantMethod Math_log x0 x1 1 targetValue precision
         = (if (Math_abs (Math_log x1 - 1 - (Math_log x0 - 1)) <? 1e-10)%float
            then Normal [degenerate_marker 1 x1]
            else
              let nextX :=
                (x1 - (Math_log x1 - 1) * (x1 - x0)
                      / (Math_log x1 - 1 - (Math_log x0 - 1)))%float in
              approx <- toFixed_parseFloat nextX precision ;;
              relErr <- toFixed_parseFloat (percent_change nextX x1) precision ;;
              Normal [mkIterationResult 1 approx (Some relErr)])).
Proof.
  split.
  - repeat split.
  - unfold MathUtils.fixedPointIteration, MathUtils.newtonRaphson,
      MathUtils.secantMethod.
    change (Z.to_nat 1) with 1%nat. cbn [for_loop].
    unfold MathUtils.fixedPointIteration_pass, MathUtils.newtonRaphson_pass,
      MathUtils.secantMethod_pass, MathUtils.G, MathUtils.f, MathUtils.fPrime.
    cbn [MathUtils.fp_x MathUtils.fp_prevX MathUtils.fp_results MathUtils.nr_x
         MathUtils.nr_results MathUtils.sec_x0 MathUtils.sec_x1
         MathUtils.sec_results round_nullable app].
    split; [| split].
    + destruct (toFixed_parseFloat _ precision); reflexivity.
    + destruct (Math_abs (1 / x0) <? 1e-10)%float; [reflexivity |].
      cbv zeta.
      destruct (toFixed_parseFloat _ precision); [| reflexivity]. cbn [bind].
      destruct (toFixed_parseFloat _ precision); reflexivity.
    + destruct (Math_abs _ <? 1e-10)%float; [reflexivity |].
      cbv zeta.
      destruct (toFixed_parseFloat _ precision); [| reflexivity]. cbn [bind].
      destruct (toFixed_parseFloat _ precision); reflexivity.
Qed.

(** ** [approximateDerivative] of [src/lib/math-utils.ts] *)

Section GuardedCalls.

Variable E : engine number any.

Lemma safeEvaluate_never_throws (node : MathNode E) (x : number) :
  exists r, MathUtils.safeEvaluate E node x = Normal r.
Proof.
  unfold MathUtils.safeEvaluate.
  destruct (node_evaluate E node x) as [[r |] | e]; simpl; eauto.
  destruct (isFinite r); simpl; eauto.
Qed.

(** What [safeEvaluate] lets through is a finite number the node evaluated
    to; a throw, a non-number and a non-finite number all give [null]. *)
Lemma safeEvaluate_Some (node : MathNode E) (x v : number) :
  MathUtils.safeEvaluate E node x = Normal (Some v)
  <-> node_evaluate E node x = Normal (Num v) /\ isFinite v = true.
Proof.
  unfold MathUtils.safeEvaluate.
  destruct (node_evaluate E node x) as [[r |] | e]; simpl.
  - destruct (isFinite r) eqn:Hfin; simpl.
    + split.
      * intros [= <-]. auto.
      * intros [[= <-] _]. reflexivity.
    + split; [discriminate |]. intros [[= <-] Hv]. congruence.
  - split; [discriminate | intros [[=] _]].
  - split; [discriminate | intros [[=] _]].
Qed.

Lemma safeEvaluate_None (node : MathNode E) (x : number) :
  MathUtils.safeEvaluate E node x = Normal None
  <-> (exists e, node_evaluate E node x = Throw e)
      \/ node_evaluate E node x = Normal NotNum
      \/ (exists v, node_evaluate E node x = Normal (Num v)
                    /\ isFinite v = false).
Proof.
  unfold MathUtils.safeEvaluate.
  destruct (node_evaluate E node x) as [[r |] | e]; simpl.
  - destruct (isFinite r) eqn:Hfin; simpl.
    + split; [discriminate |].
      intros [(e & [=]) | [[=] | (v & [= <-] & Hv)]]. congruence.
    + split; [| reflexivity]. intros _. right. right. eauto.
  - split; [| reflexivity]. intros _. right. now left.
  - split; [| reflexivity]. intros _. left. eauto.
Qed.

Lemma safeDerivative_never_throws (expression variable : string) :
  exists r, MathUtils.safeDerivative E expression variable = Normal r.
Proof.
  unfold MathUtils.safeDerivative.
  destruct (derivative E expression variable); simpl; eauto.
Qed.

Lemma approximateDerivative_catch_never_throws (error : exn) :
  exists message,
    MathUtils.approximateDerivative_catch error = Normal (ErrorObject message).
Proof.
  unfold MathUtils.approximateDerivative_catch.
  destruct (instanceof_Error error && includes (exn_message error) "Undefined symbol");
    [eauto |].
  destruct (instanceof_SyntaxError error); eauto.
Qed.

End GuardedCalls.

(** C10. [approximateDerivative] of [src/lib/math-utils.ts] never throws,
    whatever the expression, the numbers and the engine do: it returns a
    [DerivativeResult] or an object [{ error }].  The evaluations and the
    differentiation are caught by [safeEvaluate] and [safeDerivative], which
    never throw themselves, and anything else thrown in the body ([compile],
    [toFixed]) is turned into an error object by the handler of the
    enclosing [try], which cannot throw either. *)
Theorem approximateDerivative_never_throws
  (E : engine number any) (expression : string) (guessValue h : number)
  (precision : Z) :
  (exists outcome,
     MathUtils.approximateDerivative E expression guessValue h precision
     = Normal outcome)
  /\ (forall node x, exists r, MathUtils.safeEvaluate E node x = Normal r)
  /\ (forall variable,
        exists r, MathUtils.safeDerivative E expression variable = Normal r)
  /\ (forall error, exists message,
        MathUtils.approximateDerivative_catch error
        = Normal (ErrorObject message)).
Proof.
  split; [| split; [| split]].
  - unfold MathUtils.approximateDerivative.
    match goal with
    | |- exists outcome, try_catch ?body _ = _ => destruct body as [r | e]
    end; simpl.
    + eauto.
    + destruct (approximateDerivative_catch_never_throws e) as [message ->].
      eauto.
  - intros node x. apply safeEvaluate_never_throws.
  - intros variable. apply safeDerivative_never_throws.
  - intros error. apply approximateDerivative_catch_never_throws.
Qed.

(** ** Comparisons of doubles that are not NaN *)

Lemma SFcompare_antisym (x y : spec_float) :
  SFcompare y x = option_map CompOpp (SFcompare x y).
Proof.
  destruct x as [sx | sx | | sx mx ex], y as [sy | sy | | sy my ey];
    try reflexivity;
    try (destruct sx; reflexivity);
    try (destruct sy; reflexivity);
    try (destruct sx, sy; reflexivity).
  simpl. destruct sx, sy; try reflexivity.
  - rewrite (Z.compare_antisym ex ey).
    destruct (ex ?= ey)%Z; simpl; try reflexivity.
    now rewrite (Pos.compare_cont_antisym mx my Eq).
  - rewrite (Z.compare_antisym ex ey).
    destruct (ex ?= ey)%Z; simpl; try reflexivity.
    now rewrite (Pos.compare_cont_antisym mx my Eq).
Qed.








Lemma sub_nan (a : number) : (a - nan)%float = nan.
Proof.
  apply Prim2SF_inj. rewrite sub_spec. change (Prim2SF nan) with S754_nan.
  unfold SF64sub, SFsub. now destruct (Prim2SF a) as [[] | [] | | [] m e].
Qed.

(** On a symbolic value that is NaN the guard of [calcError] does not
    fire, and the error is NaN. *)
Lemma calcError_nan (approx : number) :
  MathUtilsExpr.calcError approx (VNumber nan) = Normal (Some nan).
Proof.
  unfold MathUtilsExpr.calcError.
  cbn [Math_abs_of js_sub js_div to_number bind].
  change (Math_abs nan <? 1e-10)%float with false. cbv iota.
  now rewrite sub_nan.
Qed.

Section GuardedApproximateDerivative.

Variable E : engine number any.
Variable expression : string.
Variables guessValue h : number.
Variable precision : Z.

(** The symbolic reference value: null when the differentiation or the
    evaluation of the derivative fails, a finite number otherwise. *)
Lemma symbolic_value_finite (node : option (MathNode E)) (exact : option number) :
  match node with
  | Some n => MathUtils.safeEvaluate E n guessValue
  | None => Normal None
  end = Normal exact ->
  forall v, exact = Some v -> isFinite v = true.
Proof.
  intros Hexact v ->. destruct node as [n |]; [| discriminate].
  now apply safeEvaluate_Some in Hexact.
Qed.

(** A returned [DerivativeResult], field by field. *)
Lemma approximateDerivative_Result (r : DerivativeResult) :
  MathUtils.approximateDerivative E expression guessValue h precision
  = Normal (Result r) ->
  exists compiledExpr f_x f_x_plus_h f_x_minus_h exact,
    compile E expression = Normal compiledExpr
    /\ MathUtils.safeEvaluate E compiledExpr guessValue = Normal (Some f_x)
    /\ MathUtils.safeEvaluate E compiledExpr (guessValue + h)%float
       = Normal (Some f_x_plus_h)
    /\ MathUtils.safeEvaluate E compiledExpr (guessValue - h)%float
       = Normal (Some f_x_minus_h)
    /\ (forall v, exact = Some v -> isFinite v = true)
    /\ toFixed_parseFloat ((f_x_plus_h - f_x) / h)%float precision
       = Normal (forward r)
    /\ toFixed_parseFloat ((f_x - f_x_minus_h) / h)%float precision
       = Normal (backward r)
    /\ toFixed_parseFloat ((f_x_plus_h - f_x_minus_h) / (2 * h))%float precision
       = Normal (centered r)
    /\ round_nullable
         (MathUtils.calculateError ((f_x_plus_h - f_x) / h)%float exact)
         precision = Normal (forwardError r)
    /\ round_nullable
         (MathUtils.calculateError ((f_x - f_x_minus_h) / h)%float exact)
         precision = Normal (backwardError r)
    /\ round_nullable
         (MathUtils.calculateError
            ((f_x_plus_h - f_x_minus_h) / (2 * h))%float exact)
         precision = Normal (centeredError r)
    /\ round_nullable exact precision = Normal (symbolic r).
Proof.
  unfold MathUtils.approximateDerivative. intros H.
  match type of H with
  | try_catch ?body _ = _ => destruct body as [outcome | e] eqn:Hbody
  end; simpl in H.
  2: { destruct (approximateDerivative_catch_never_throws e) as [message Hm].
       rewrite Hm in H. discriminate. }
  injection H as ->.
  destruct (compile E expression) as [compiledExpr | e]; [| discriminate].
  simpl bind in Hbody.
  destruct (MathUtils.safeEvaluate E compiledExpr guessValue)
    as [[f_x |] | e] eqn:Hfx; simpl bind in Hbody; try discriminate.
  all: destruct (MathUtils.safeEvaluate E compiledExpr (guessValue + h)%float)
    as [[f_x_plus_h |] | e] eqn:Hfp; simpl bind in Hbody; try discriminate.
  all: destruct (MathUtils.safeEvaluate E compiledExpr (guessValue - h)%float)
    as [[f_x_minus_h |] | e] eqn:Hfm; simpl bind in Hbody; try discriminate.
  destruct (MathUtils.safeDerivative E expression "x") as [node | e];
    simpl bind in Hbody; [| discriminate].
  match type of Hbody with
  | bind ?c _ = _ => destruct c as [exact | e] eqn:Hexact
  end; simpl bind in Hbody; [| discriminate].
  split_pass Hbody. injection Hbody as <-.
  exists compiledExpr, f_x, f_x_plus_h, f_x_minus_h, exact. simpl.
  repeat split; try assumption; try reflexivity.
  exact (symbolic_value_finite _ Hexact).
Qed.

(** A parse error, or a failed evaluation at one of the three points, makes
    the call answer with an error object. *)
Lemma approximateDerivative_failure :
  (exists e, compile E expression = Throw e)
  \/ (exists compiledExpr,
        compile E expression = Normal compiledExpr
        /\ (MathUtils.safeEvaluate E compiledExpr guessValue = Normal None
            \/ MathUtils.safeEvaluate E compiledExpr (guessValue + h)%float
               = Normal None
            \/ MathUtils.safeEvaluate E compiledExpr (guessValue - h)%float
               = Normal None)) ->
  exists message,
    MathUtils.approximateDerivative E expression guessValue h precision
    = Normal (ErrorObject message).
Proof.
  unfold MathUtils.approximateDerivative.
  intros [(e & Hcompile) | (compiledExpr & Hcompile & Hnull)]; rewrite Hcompile.
  - simpl. apply approximateDerivative_catch_never_throws.
  - simpl bind.
    destruct (safeEvaluate_never_throws E compiledExpr guessValue) as [f_x Hx].
    destruct (safeEvaluate_never_throws E compiledExpr (guessValue + h)%float)
      as [f_p Hp].
    destruct (safeEvaluate_never_throws E compiledExpr (guessValue - h)%float)
      as [f_m Hm].
    rewrite Hx, Hp, Hm. simpl bind.
    destruct f_x as [f_x |], f_p as [f_p |], f_m as [f_m |];
      try (eexists; reflexivity).
    destruct Hnull as [Hn | [Hn | Hn]]; congruence.
Qed.

End GuardedApproximateDerivative.


Section UnguardedApproximateDerivative.

Variable E : engine value value.
Variable expression : string.
Variables guessValue h : number.
Variable precision : Z.

(** A returned [DerivativeResult] of the expression-driven variant. *)
Lemma expr_approximateDerivative_Result (r : DerivativeResult) :
  MathUtilsExpr.approximateDerivative E expression guessValue h precision
  = Normal (Result r) ->
  exists compiledExpr f_x f_x_plus_h f_x_minus_h
         forwardStep backwardStep centeredStep exact sym,
    compile E expression = Normal compiledExpr
    /\ node_evaluate E compiledExpr (VNumber guessValue) = Normal f_x
    /\ node_evaluate E compiledExpr (VNumber (guessValue + h)%float)
       = Normal f_x_plus_h
    /\ node_evaluate E compiledExpr (VNumber (guessValue - h)%float)
       = Normal f_x_minus_h
    /\ js_sub f_x_plus_h f_x = Normal forwardStep
    /\ js_sub f_x f_x_minus_h = Normal backwardStep
    /\ js_sub f_x_plus_h f_x_minus_h = Normal centeredStep
    /\ MathUtilsExpr.fPrime E expression guessValue = Normal exact
    /\ toFixed_parseFloat (forwardStep / h)%float precision = Normal (forward r)
    /\ toFixed_parseFloat (backwardStep / h)%float precision
       = Normal (backward r)
    /\ toFixed_parseFloat (centeredStep / (2 * h))%float precision
       = Normal (centered r)
    /\ MathUtilsExpr.calcError (forwardStep / h)%float exact
       = Normal (forwardError r)
    /\ MathUtilsExpr.calcError (backwardStep / h)%float exact
       = Normal (backwardError r)
    /\ MathUtilsExpr.calcError (centeredStep / (2 * h))%float exact
       = Normal (centeredError r)
    /\ call_toFixed "symbolicDerivativeValue" exact precision = Normal sym
    /\ symbolic r = Some sym.
Proof.
  unfold MathUtilsExpr.approximateDerivative. intros H.
  match type of H with
  | try_catch ?body _ = _ => destruct body as [outcome | e] eqn:Hbody
  end; simpl in H; [| discriminate].
  injection H as ->.
  split_pass Hbody. injection Hbody as <-. simpl.
  unfold MathUtilsExpr.fPrime. rewrite Hcall6. simpl bind.
  repeat eexists; eassumption.
Qed.

(** Whenever the calls into the engine return and the values they return
    can be used as numbers, finite or not, a [DerivativeResult] is
    returned. *)
Lemma unguarded_approximateDerivative_accepts
  compiledExpr f_x f_x_plus_h f_x_minus_h a b c exact d sym :
  (0 <= precision <= 100)%Z ->
  compile E expression = Normal compiledExpr ->
  node_evaluate E compiledExpr (VNumber guessValue) = Normal f_x ->
  node_evaluate E compiledExpr (VNumber (guessValue + h)%float)
  = Normal f_x_plus_h ->
  node_evaluate E compiledExpr (VNumber (guessValue - h)%float)
  = Normal f_x_minus_h ->
  to_number f_x = Normal a ->
  to_number f_x_plus_h = Normal b ->
  to_number f_x_minus_h = Normal c ->
  MathUtilsExpr.fPrime E expression guessValue = Normal exact ->
  to_number exact = Normal d ->
  call_toFixed "symbolicDerivativeValue" exact precision = Normal sym ->
  exists r,
    MathUtilsExpr.approximateDerivative E expression guessValue h precision
    = Normal (Result r).
Proof.
  intros Hp Hcompile Hx Hplus Hminus Ha Hb Hc Hexact Hd Hsym.
  unfold MathUtilsExpr.approximateDerivative.
  rewrite Hcompile. simpl bind. rewrite Hx. simpl bind.
  rewrite Hplus. simpl bind. rewrite Hminus. simpl bind.
  unfold js_sub at 1 2 3. rewrite Ha, Hb, Hc. simpl bind.
  unfold MathUtilsExpr.fPrime in Hexact.
  destruct (derivative E expression "x") as [node | e]; simpl bind in Hexact |- *;
    [| discriminate].
  rewrite Hexact. simpl bind.
  repeat match goal with
    | |- context [bind (toFixed_parseFloat ?v precision) _] =>
        let r := fresh "r" in
        destruct (toFixed_parseFloat_total v Hp) as [r ->]; simpl bind
    end.
  assert (Herror : forall approx, exists e,
            MathUtilsExpr.calcError approx exact = Normal e).
  { clear Hexact Hsym. intros approx.
    unfold MathUtilsExpr.calcError, Math_abs_of, js_sub, js_div.
    destruct exact; try (eexists; reflexivity);
      rewrite Hd; cbn [bind to_number];
      destruct (Math_abs d <? 1e-10)%float; try (eexists; reflexivity);
      rewrite ?Hd; cbn [bind]; eexists; reflexivity. }
  repeat match goal with
    | |- context [bind (MathUtilsExpr.calcError ?v exact) _] =>
        let e := fresh "e" in
        destruct (Herror v) as [e ->]; simpl bind
    end.
  rewrite Hsym. simpl. eauto.
Qed.

End UnguardedApproximateDerivative.



(** C6, at a failing input.  The derivative of [abs(x)] is [abs(x) / x],
    which is [0 / 0] at [0], while [abs] is finite around it.  The
    expression-driven [approximateDerivative] returns three errors that
    hold NaN, where the rule of the claim gives null, [|NaN| >= 1e-10]
    being false: the test [Math.abs(exact) < 1e-10] of [calcError] does not
    hold of NaN either, and nothing checks the symbolic value.  The guarded
    variant answers null for the symbolic value and for the three errors. *)
Theorem unguarded_errors_of_NaN_symbolic :
  MathUtilsExpr.fPrime SampleEngine.mathjs "abs(x)" 0%float
  = Normal (VNumber nan)
  /\ MathUtilsExpr.approximateDerivative SampleEngine.mathjs "abs(x)" 0%float
       0.01%float 6
     = Normal (Result (mkDerivativeResult 1%float (-1)%float 0%float
                         (Some nan) (Some nan) (Some nan) (Some nan)))
  /\ (forall approx,
        MathUtilsExpr.calcError approx (VNumber nan) = Normal (Some nan))
  /\ (forall approx, Contract.error_or_null approx (Some nan) = None)
  /\ MathUtils.approximateDerivative SampleEngine.untyped "abs(x)" 0%float
       0.01%float 6
     = Normal (Result (mkDerivativeResult 1%float (-1)%float 0%float
                         None None None None)).
Proof.
  split; [vm_compute; reflexivity |].
  split; [vm_compute; reflexivity |].
  split; [exact calcError_nan |].
  split; [intros approx; reflexivity |].
  vm_compute. reflexivity.
Qed.

(** ** Rounding of the stored fields *)

Lemma round_nullable_rounded (precision : Z) (v r : option number) :
  round_nullable v precision = Normal r -> Contract.rounded_or_null precision r.
Proof.
  intros H. apply round_nullable_Normal in H.
  destruct v as [x |], r as [y |]; simpl; try contradiction; [| exact I].
  now exists x.
Qed.

(** Where the rounding is applied throughout: the records of the
    expression-driven Newton-Raphson ... *)
Lemma expr_newton_fields_rounded (E : engine value value) expression x0 iterations
  precision rs :
  MathUtilsExpr.newtonRaphson E expression x0 iterations precision = Normal rs ->
  forall r, In r rs ->
    Contract.rounded_to precision (approximation r)
    /\ Contract.rounded_or_null precision (relativeError r).
Proof.
  intros Hrun r Hin. apply In_nth_error in Hin. destruct Hin as [k Hk].
  destruct (expr_newton_nth _ _ _ _ _ Hrun _ Hk)
    as (xk & xk1 & _ & _ & _ & Happrox & relErr & Hrel & ->).
  split; [now exists xk1 |]. simpl. eexists. exact Hrel.
Qed.

(** ... and the seven fields of the guarded [approximateDerivative]. *)
Lemma guarded_derivative_fields_rounded (E : engine number any) expression guessValue h
  precision r :
  MathUtils.approximateDerivative E expression guessValue h precision
  = Normal (Result r) ->
  Contract.rounded_to precision (forward r)
  /\ Contract.rounded_to precision (backward r)
  /\ Contract.rounded_to precision (centered r)
  /\ Contract.rounded_or_null precision (forwardError r)
  /\ Contract.rounded_or_null precision (backwardError r)
  /\ Contract.rounded_or_null precision (centeredError r)
  /\ Contract.rounded_or_null precision (symbolic r).
Proof.
  intros Hrun.
  destruct (approximateDerivative_Result _ _ _ _ _ Hrun)
    as (compiledExpr & f_x & f_p & f_m & exact & _ & _ & _ & _ & _
        & Hfwd & Hbwd & Hctr & HfwdE & HbwdE & HctrE & Hsym).
  repeat split;
    try (eexists; eassumption);
    eapply round_nullable_rounded; eassumption.
Qed.

(** The guarded variant does reject every failed evaluation: a parse error,
    and a throw, a non-number or a non-finite number at [x], [x + h] or
    [x - h], all end in an error object. *)
Lemma guarded_approximateDerivative_rejects
  (E : engine number any) expression guessValue h precision :
  (exists e, compile E expression = Throw e)
  \/ (exists compiledExpr x,
        compile E expression = Normal compiledExpr
        /\ (x = guessValue \/ x = (guessValue + h)%float
            \/ x = (guessValue - h)%float)
        /\ ((exists e, node_evaluate E compiledExpr x = Throw e)
            \/ node_evaluate E compiledExpr x = Normal NotNum
            \/ (exists v, node_evaluate E compiledExpr x = Normal (Num v)
                          /\ isFinite v = false))) ->
  exists message,
    MathUtils.approximateDerivative E expression guessValue h precision
    = Normal (ErrorObject message).
Proof.
  intros [Hparse | (compiledExpr & x & Hcompile & Hx & Hfails)];
    apply approximateDerivative_failure; [now left |].
  right. exists compiledExpr. split; [assumption |].
  apply safeEvaluate_None in Hfails.
  destruct Hx as [-> | [-> | ->]]; auto.
Qed.

(** C5, at a failing input of the expression-driven variant.  For [1 / x]
    at [x = 0] with [h = 0.01] the evaluation at [x] is infinite; the
    guarded variant answers with its error object, the expression-driven
    one returns a [DerivativeResult] holding infinities and NaN. *)
Theorem unguarded_approximateDerivative_returns_non_finite :
  node_evaluate SampleEngine.mathjs SampleEngine.Reciprocal (VNumber 0%float)
  = Normal (VNumber infinity)
  /\ isFinite infinity = false
  /\ MathUtilsExpr.approximateDerivative SampleEngine.mathjs "1 / x"
       0%float 0.01%float 6
     = Normal (Result (mkDerivativeResult neg_infinity infinity 10000%float
                         (Some nan) (Some nan) (Some nan) (Some neg_infinity)))
  /\ MathUtils.approximateDerivative SampleEngine.untyped "1 / x"
       0%float 0.01%float 6
     = Normal (ErrorObject MathUtils.evaluation_failed_message).
Proof.
  split; [vm_compute; reflexivity |].
  split; [vm_compute; reflexivity |].
  split; vm_compute; reflexivity.
Qed.

(** No double is below itself. *)
Lemma ltb_irrefl (x : number) : (x <? x)%float = false.
Proof.
  rewrite ltb_spec. unfold SFltb.
  assert (Hrefl : SFcompare (Prim2SF x) (Prim2SF x) = None
                  \/ SFcompare (Prim2SF x) (Prim2SF x) = Some Eq).
  { destruct (Prim2SF x) as [s | s | | s m e]; simpl; auto.
    - destruct s; auto.
    - destruct s; rewrite Z.compare_refl, Pos.compare_cont_refl; auto. }
  destruct Hrefl as [-> | ->]; reflexivity.
Qed.

(** C7, at failing inputs.  The marker record the hard-wired root finders
    append on a degenerate step stores the current point as it is: Newton's
    from a large first guess whatever [Math.log] is, the secant method's
    once its two points have met.  The expression-driven
    [approximateDerivative] stores its three errors as computed.  In each
    case rounding the stored value to the precision gives another number. *)
Theorem unrounded_fields_are_stored :
  (forall Math_log,
     MathUtils.newtonRaphson Math_log 20000000000.123%float 5 0%float 2
     = Normal [mkIterationResult 1 20000000000.123%float None])
  /\ toFixed_parseFloat 20000000000.123%float 2 = Normal 20000000000.12%float
  /\ 20000000000.123%float <> 20000000000.12%float
  /\ (exists rs,
        MathUtils.secantMethod V8.Math_log 2%float 3%float 20
          0%float 6 = Normal rs
        /\ nth_error rs 6
           = Some (mkIterationResult 7 2.7182818284590455%float None))
  /\ toFixed_parseFloat 2.7182818284590455%float 6 = Normal 2.718282%float
  /\ 2.7182818284590455%float <> 2.718282%float
  /\ (exists r,
        MathUtilsExpr.approximateDerivative SampleEngine.mathjs
          "x^2 + 3*x + 2" 1%float 0.01%float 6 = Normal (Result r)
        /\ forward r = 5.01%float
        /\ forwardError r = Some 0.20000000000095497%float)
  /\ toFixed_parseFloat 0.20000000000095497%float 6 = Normal 0.2%float
  /\ 0.20000000000095497%float <> 0.2%float.
Proof.
  assert (Hneq : forall x y : number, PrimFloat.ltb x y = true -> y <> x)
    by (intros x y Hlt ->; rewrite ltb_irrefl in Hlt; discriminate).
  split; [intros Math_log; vm_compute; reflexivity |].
  split; [vm_compute; reflexivity |].
  split; [apply Hneq; vm_compute; reflexivity |].
  split; [eexists; split; vm_compute; reflexivity |].
  split; [vm_compute; reflexivity |].
  split; [apply not_eq_sym, Hneq; vm_compute; reflexivity |].
  split; [eexists; split; [vm_compute; reflexivity | split; reflexivity] |].
  split; [vm_compute; reflexivity |].
  apply Hneq; vm_compute; reflexivity.
Qed.

(** * Beyond the claims *)

(** ** A run of the loop against a recurrence *)

Lemma steps_snoc {A : Type} (step : A -> completion A) (k : nat) (a : A) :
  Recurrence.steps step (S k) a
  = (ak <- Recurrence.steps step k a ;; step ak).
Proof.
  revert a. induction k as [| k IH]; intros a.
  - simpl. now destruct (step a).
  - change (Recurrence.steps step (S (S k)) a)
      with (a' <- step a ;; Recurrence.steps step (S k) a').
    change (Recurrence.steps step (S k) a)
      with (a' <- step a ;; Recurrence.steps step k a').
    destruct (step a) as [a' | e]; [| reflexivity].
    exact (IH a').
Qed.

Section LoopTrace.

Context {S A : Type} (body : Z -> S -> completion (pass S)).
Variable results : S -> list IterationResult.
Variable point : S -> A.
Variable step : A -> completion A.
Variable J : Z -> S -> Prop.
Variable Rec : Z -> A -> A -> IterationResult -> Prop.

Hypothesis Hpass : forall i s s',
  J i s -> body i s = Normal (Next s') ->
  J (i + 1)%Z s'
  /\ step (point s) = Normal (point s')
  /\ exists r, results s' = results s ++ [r] /\ Rec i (point s) (point s') r.

(** After [k] passes that fell through, the loop stands at the [k]-th point
    of the recurrence and has appended the records of its first [k] steps. *)
Lemma advance_trace (k : nat) (s0 sk : S) :
  J 1%Z s0 -> results s0 = [] -> advance body k 1 s0 = Some sk ->
  J (1 + Z.of_nat k)%Z sk
  /\ Recurrence.steps step k (point s0) = Normal (point sk)
  /\ Datatypes.length (results sk) = k
  /\ forall j r, nth_error (results sk) j = Some r ->
       exists a a',
         Recurrence.steps step j (point s0) = Normal a
         /\ step a = Normal a'
         /\ Rec (1 + Z.of_nat j)%Z a a' r.
Proof.
  intros HJ Hempty Hadv.
  pose (Inv := fun (i : Z) (s : S) =>
                 J i s
                 /\ exists n, i = (1 + Z.of_nat n)%Z
                              /\ Recurrence.steps step n (point s0)
                                 = Normal (point s)).
  pose (P := fun (i : Z) (r : IterationResult) =>
               exists n a a',
                 i = (1 + Z.of_nat n)%Z
                 /\ Recurrence.steps step n (point s0) = Normal a
                 /\ step a = Normal a'
                 /\ Rec i a a' r).
  assert (Hnext : forall i s s', Inv i s -> body i s = Normal (Next s') ->
            Inv (i + 1)%Z s'
            /\ exists r, results s' = results s ++ [r] /\ P i r).
  { intros i s s' (HJs & n & Hi & Hn) Hb.
    destruct (Hpass HJs Hb) as (HJ' & Hstep & r & Hres & Hrec).
    split; [split; [assumption |] |].
    - exists (Datatypes.S n). split; [lia |]. now rewrite steps_snoc, Hn.
    - exists r. split; [assumption |].
      exists n, (point s), (point s'). auto. }
  destruct (advance_records body results Inv P Hnext k 1%Z s0)
    with (sk := sk) as ((HJk & n & Hin & Hn) & new & Hres & Hlen & Hnew).
  - split; [assumption |]. exists O. split; reflexivity.
  - assumption.
  - rewrite Hempty in Hres. simpl in Hres. subst new.
    assert (n = k) by lia. subst n.
    repeat split; try assumption.
    intros j r Hj. destruct (Hnew _ _ Hj) as (n & a & a' & Hi & Ha & Hs & Hr).
    assert (n = j) by lia. subst n. eauto.
Qed.

End LoopTrace.

Lemma steps_total {A : Type} (f : A -> A) (k : nat) (a : A) :
  exists ak, Recurrence.steps (Recurrence.total f) k a = Normal ak.
Proof.
  revert a. induction k as [| k IH]; intros a; simpl; eauto.
Qed.

(** ** What the records of Fixed-Point Iteration hold *)

Section FixedPointRecords.

Variable precision : Z.

Lemma fixed_point_record_of_pass (i : Z) (prevX : option number)
  (x nextX approx : number) (relErr : option number) :
  first_pass_only i prevX ->
  toFixed_parseFloat nextX precision = Normal approx ->
  round_nullable
    (match prevX with
     | Some _ => Some (percent_change nextX x)
     | None => None
     end) precision = Normal relErr ->
  Recurrence.fixed_point_record precision (Z.to_nat (i - 1)) x nextX
    (mkIterationResult i approx relErr).
Proof.
  intros Hfirst Happrox Herr. unfold Recurrence.fixed_point_record.
  cbn [iteration approximation relativeError].
  destruct Hfirst as [[-> ->] | [Hi Hprev]].
  - simpl. auto.
  - destruct prevX as [prev |]; [| contradiction].
    split; [lia |]. split; [assumption |].
    destruct (Z.to_nat (i - 1)) as [| n] eqn:Hn; [lia | assumption].
Qed.

Lemma expr_fixedPoint_trace_pass (E : engine value value) gExpression
  (i : Z) (s s' : MathUtilsExpr.fp_state) :
  first_pass_only_any i s ->
  MathUtilsExpr.fixedPointIteration_pass E gExpression precision i s
  = Normal (Next s') ->
  first_pass_only_any (i + 1) s'
  /\ evaluate E gExpression (MathUtilsExpr.fp_x s)
     = Normal (MathUtilsExpr.fp_x s')
  /\ exists r,
       MathUtilsExpr.fp_results s' = MathUtilsExpr.fp_results s ++ [r]
       /\ Recurrence.fixed_point_record_any precision (Z.to_nat (i - 1))
            (MathUtilsExpr.fp_x s) (MathUtilsExpr.fp_x s') r.
Proof.
  intros [Hfirst Hx] Hpass. apply expr_fixedPoint_Next in Hpass.
  destruct Hpass
    as (nextX & approx & relE & relErr & Hg & Herr & Ha & Hr & ->).
  simpl. split; [| split; [assumption |]].
  - split; simpl.
    + right. split; [destruct Hfirst as [[-> _] | [Hi _]]; lia | assumption].
    + now apply call_toFixed_not_null in Ha.
  - eexists. split; [reflexivity |].
    unfold Recurrence.fixed_point_record_any.
    cbn [iteration approximation relativeError].
    destruct Hfirst as [[-> Hprev] | [Hi Hprev]].
    + rewrite Hprev in Herr. injection Herr as <-.
      simpl in Hr. injection Hr as <-. simpl. auto.
    + split; [lia |]. split; [assumption |].
      destruct (Z.to_nat (i - 1)) as [| n] eqn:Hn; [lia |].
      assert (Hsome : exists change,
                percent_change_any nextX (MathUtilsExpr.fp_x s) = Normal change
                /\ relE = Some change).
      { destruct (MathUtilsExpr.fp_prevX s); try contradiction;
          destruct (percent_change_any nextX (MathUtilsExpr.fp_x s));
          simpl in Herr; try discriminate; injection Herr as <-; eauto. }
      destruct Hsome as (change & Hchange & ->). eauto.
Qed.

Lemma hardwired_fixedPoint_trace_pass Math_log
  (i : Z) (s s' : MathUtils.fp_state) :
  first_pass_only i (MathUtils.fp_prevX s) ->
  MathUtils.fixedPointIteration_pass Math_log precision i s = Normal (Next s') ->
  first_pass_only (i + 1) (MathUtils.fp_prevX s')
  /\ Recurrence.total (MathUtils.G Math_log) (MathUtils.fp_x s)
     = Normal (MathUtils.fp_x s')
  /\ exists r,
       MathUtils.fp_results s' = MathUtils.fp_results s ++ [r]
       /\ Recurrence.fixed_point_record precision (Z.to_nat (i - 1))
            (MathUtils.fp_x s) (MathUtils.fp_x s') r.
Proof.
  intros Hfirst Hpass. apply hardwired_fixedPoint_Next in Hpass.
  cbv zeta in Hpass.
  destruct Hpass as (approx & relErr & Ha & Hr & ->). simpl.
  split; [| split; [reflexivity |]].
  - right. split; [destruct Hfirst as [[-> _] | [Hi _]]; lia | discriminate].
  - eexists. split; [reflexivity |].
    now apply fixed_point_record_of_pass with (prevX := MathUtils.fp_prevX s).
Qed.

End FixedPointRecords.

Lemma expr_fixedPoint_nth (E : engine value value) gExpression x0 iterations
  precision rs :
  MathUtilsExpr.fixedPointIteration E gExpression x0 iterations precision
  = Normal rs ->
  Datatypes.length rs = Z.to_nat iterations
  /\ forall k r, nth_error rs k = Some r ->
       exists xk xk1,
         Recurrence.steps (evaluate E gExpression) k (VNumber x0) = Normal xk
         /\ evaluate E gExpression xk = Normal xk1
         /\ Recurrence.fixed_point_record_any precision k xk xk1 r.
Proof.
  intros Hrun.
  unfold MathUtilsExpr.fixedPointIteration in Hrun.
  destruct (for_loop _ _ _ _) as [s' | e] eqn:Hloop; [| discriminate].
  injection Hrun as <-.
  destruct (for_loop_Normal_inv _ _ _ _ Hloop)
    as [Hall | (j & sj & _ & _ & Hbrk)];
    [| now apply expr_fixedPoint_no_Break in Hbrk].
  destruct (advance_trace _ MathUtilsExpr.fp_results MathUtilsExpr.fp_x
              (evaluate E gExpression)
              first_pass_only_any
              (fun i => Recurrence.fixed_point_record_any precision
                          (Z.to_nat (i - 1)))
              (@expr_fixedPoint_trace_pass precision E gExpression)
              (Z.to_nat iterations)
              (MathUtilsExpr.mkFp (VNumber x0) VNull []))
    with (sk := s') as (_ & _ & Hlen & Hrecords);
    [split; [left; split; reflexivity | discriminate] | reflexivity
     | assumption |].
  split; [assumption |].
  intros k r Hr.
  destruct (Hrecords _ _ Hr) as (xk & xk1 & Hxk & Hstep & Hrec).
  assert (Hk : Z.to_nat (1 + Z.of_nat k - 1) = k) by lia.
  rewrite Hk in Hrec. simpl in Hxk.
  exists xk, xk1. split; [assumption |]. split; assumption.
Qed.

Lemma hardwired_fixedPoint_nth Math_log x0 iterations targetValue precision rs :
  MathUtils.fixedPointIteration Math_log x0 iterations targetValue precision
  = Normal rs ->
  forall k r, nth_error rs k = Some r ->
    exists xk,
      Recurrence.steps (Recurrence.total (MathUtils.G Math_log)) k x0
      = Normal xk
      /\ Recurrence.fixed_point_record precision k xk
           (xk - Math_log xk + 1)%float r.
Proof.
  intros Hrun k r Hr.
  unfold MathUtils.fixedPointIteration in Hrun.
  destruct (for_loop _ _ _ _) as [s' | e] eqn:Hloop; [| discriminate].
  injection Hrun as <-.
  destruct (for_loop_Normal_inv _ _ _ _ Hloop)
    as [Hall | (j & sj & _ & _ & Hbrk)];
    [| now apply hardwired_fixedPoint_no_Break in Hbrk].
  destruct (advance_trace _ MathUtils.fp_results MathUtils.fp_x
              (Recurrence.total (MathUtils.G Math_log))
              (fun i s => first_pass_only i (MathUtils.fp_prevX s))
              (fun i => Recurrence.fixed_point_record precision (Z.to_nat (i - 1)))
              (@hardwired_fixedPoint_trace_pass precision Math_log)
              (Z.to_nat iterations) (MathUtils.mkFp x0 None []))
    with (sk := s') as (_ & _ & _ & Hrecords);
    [left; split; reflexivity | reflexivity | assumption |].
  destruct (Hrecords _ _ Hr) as (xk & xk1 & Hxk & Hstep & Hrec).
  assert (Hk : Z.to_nat (1 + Z.of_nat k - 1) = k) by lia.
  rewrite Hk in Hrec. simpl in Hxk.
  exists xk. split; [assumption |].
  injection Hstep as <-. exact Hrec.
Qed.

(** X1. Fixed-Point Iteration follows [x_(k+1) = g(x_k)] on the unrounded
    points: the [k+1]-th record a run returns is numbered [k+1], holds the
    rounding of [g(x_k)], and holds no error for [k = 0] and the rounding of
    [|(x_(k+1) - x_k) / x_(k+1)| * 100] after that.  In the hard-wired
    variant [g] is [G(x) = x - ln(x) + 1]; in the expression-driven one the
    points are the values the engine returned, used as numbers. *)
Theorem fixed_point_records_follow_recurrence :
  (forall (E : engine value value) gExpression x0 iterations precision rs,
     MathUtilsExpr.fixedPointIteration E gExpression x0 iterations precision
     = Normal rs ->
     forall k r, nth_error rs k = Some r ->
       exists xk xk1,
         Recurrence.steps (evaluate E gExpression) k (VNumber x0) = Normal xk
         /\ evaluate E gExpression xk = Normal xk1
         /\ Recurrence.fixed_point_record_any precision k xk xk1 r)
  /\ (forall Math_log x0 iterations targetValue precision rs,
        MathUtils.fixedPointIteration Math_log x0 iterations targetValue
          precision = Normal rs ->
        forall k r, nth_error rs k = Some r ->
          exists xk,
            Recurrence.steps (Recurrence.total (MathUtils.G Math_log)) k x0
            = Normal xk
            /\ Recurrence.fixed_point_record precision k xk
                 (xk - Math_log xk + 1)%float r).
Proof.
  split.
  - intros E gExpression x0 iterations precision rs Hrun k r Hr.
    apply expr_fixedPoint_nth in Hrun. destruct Hrun as [_ Hrecords].
    exact (Hrecords k r Hr).
  - intros Math_log x0 iterations targetValue precision rs Hrun k r Hr.
    eapply hardwired_fixedPoint_nth; eassumption.
Qed.

(** ** What the records of the secant method hold *)

Section SecantRecords.

Variable precision : Z.

Lemma expr_secant_trace_pass (E : engine value value) expression
  (i : Z) (s s' : MathUtilsExpr.sec_state) :
  True ->
  MathUtilsExpr.secantMethod_pass E expression precision i s = Normal (Next s') ->
  True
  /\ Recurrence.secant_step (Contract.value_at E expression)
       (MathUtilsExpr.sec_x0 s, MathUtilsExpr.sec_x1 s)
     = Normal (MathUtilsExpr.sec_x0 s', MathUtilsExpr.sec_x1 s')
  /\ exists r,
       MathUtilsExpr.sec_results s' = MathUtilsExpr.sec_results s ++ [r]
       /\ Contract.step_record precision i (MathUtilsExpr.sec_x1 s)
            (MathUtilsExpr.sec_x1 s') r.
Proof.
  intros _ Hpass. apply expr_secant_Next in Hpass. cbv zeta in Hpass.
  destruct Hpass as (fx0 & fx1 & approx & relErr & H0 & H1 & _ & Ha & Hr & ->).
  split; [exact I |]. split.
  - unfold Recurrence.secant_step, Contract.value_at. simpl fst. simpl snd.
    now rewrite H0, H1.
  - eexists. split; [reflexivity |].
    unfold Contract.step_record. simpl. eauto.
Qed.

Lemma hardwired_secant_trace_pass Math_log
  (i : Z) (s s' : MathUtils.sec_state) :
  True ->
  MathUtils.secantMethod_pass Math_log precision i s = Normal (Next s') ->
  True
  /\ Recurrence.secant_step (Recurrence.total (MathUtils.f Math_log))
       (MathUtils.sec_x0 s, MathUtils.sec_x1 s)
     = Normal (MathUtils.sec_x0 s', MathUtils.sec_x1 s')
  /\ exists r,
       MathUtils.sec_results s' = MathUtils.sec_results s ++ [r]
       /\ Contract.step_record precision i (MathUtils.sec_x1 s)
            (MathUtils.sec_x1 s') r.
Proof.
  intros _ Hpass. apply hardwired_secant_Next in Hpass. cbv zeta in Hpass.
  destruct Hpass as (approx & relErr & _ & Ha & Hr & ->).
  split; [exact I |]. split; [reflexivity |].
  eexists. split; [reflexivity |].
  unfold Contract.step_record. simpl. eauto.
Qed.

(** A pass that leaves the loop found the degenerate denominator. *)
Lemma expr_secant_Break_degenerate (E : engine value value) expression
  (i : Z) (s s' : MathUtilsExpr.sec_state) :
  MathUtilsExpr.secantMethod_pass E expression precision i s
  = Normal (Break s') ->
  s' = s
  /\ exists fx0 fx1,
       Contract.value_at E expression (MathUtilsExpr.sec_x0 s) = Normal fx0
       /\ Contract.value_at E expression (MathUtilsExpr.sec_x1 s) = Normal fx1
       /\ (Math_abs (fx1 - fx0) <? 1e-10)%float = true.
Proof.
  unfold MathUtilsExpr.secantMethod_pass. intros H. split_pass H.
  injection H as <-. split; [reflexivity |].
  apply js_sub_Normal in Hcall1. destruct Hcall1 as (b & a & Hb & Ha & ->).
  exists a, b. unfold Contract.value_at.
  repeat split; try assumption; try (apply as_number_Normal; eauto).
Qed.

(** The state a returned run of the expression-driven secant method ended
    in: all passes fell through, or the pass after them was degenerate. *)
Lemma expr_secant_results (E : engine value value) expression guess1 guess2
  iterations rs :
  MathUtilsExpr.secantMethod E expression guess1 guess2 iterations precision
  = Normal rs ->
  exists k sk,
    advance (MathUtilsExpr.secantMethod_pass E expression precision) k 1
      (MathUtilsExpr.mkSec guess1 guess2 []) = Some sk
    /\ MathUtilsExpr.sec_results sk = rs
    /\ (k = Z.to_nat iterations
        \/ (k < Z.to_nat iterations)%nat
           /\ exists fx0 fx1,
                Contract.value_at E expression (MathUtilsExpr.sec_x0 sk)
                = Normal fx0
                /\ Contract.value_at E expression (MathUtilsExpr.sec_x1 sk)
                   = Normal fx1
                /\ (Math_abs (fx1 - fx0) <? 1e-10)%float = true).
Proof.
  unfold MathUtilsExpr.secantMethod. intros H.
  destruct (for_loop _ _ _ _) as [s' | e] eqn:Hloop; [| discriminate].
  injection H as <-.
  destruct (for_loop_Normal_inv _ _ _ _ Hloop)
    as [Hall | (k & sk & Hk & Hadv & Hbrk)].
  - exists (Z.to_nat iterations), s'. auto.
  - apply expr_secant_Break_degenerate in Hbrk. destruct Hbrk as (-> & Hdeg).
    exists k, sk. auto.
Qed.

Lemma hardwired_secant_results Math_log guess1 guess2 iterations targetValue rs :
  MathUtils.secantMethod Math_log guess1 guess2 iterations targetValue precision
  = Normal rs ->
  exists k sk,
    advance (MathUtils.secantMethod_pass Math_log precision) k 1
      (MathUtils.mkSec guess1 guess2 []) = Some sk
    /\ (rs = MathUtils.sec_results sk /\ k = Z.to_nat iterations
        \/ (k < Z.to_nat iterations)%nat
           /\ rs = MathUtils.sec_results sk
                   ++ [degenerate_marker (1 + Z.of_nat k) (MathUtils.sec_x1 sk)]
           /\ (Math_abs (MathUtils.f Math_log (MathUtils.sec_x1 sk)
                         - MathUtils.f Math_log (MathUtils.sec_x0 sk))
               <? 1e-10)%float = true).
Proof.
  unfold MathUtils.secantMethod. intros H.
  destruct (for_loop _ _ _ _) as [s' | e] eqn:Hloop; [| discriminate].
  injection H as <-.
  destruct (for_loop_Normal_inv _ _ _ _ Hloop)
    as [Hall | (k & sk & Hk & Hadv & Hbrk)].
  - exists (Z.to_nat iterations), s'. auto.
  - apply hardwired_secant_Break in Hbrk. cbv zeta in Hbrk.
    destruct Hbrk as (Hdeg & ->).
    exists k, sk. split; [assumption |]. right. auto.
Qed.

End SecantRecords.

(** X2. The secant method follows its recurrence on the unrounded pair
    [(x0, x1)]: the [k+1]-th record of a run holds the rounding of
    [x_next = x1 - f(x1) * (x1 - x0) / (f(x1) - f(x0))] computed from the
    pair reached after [k] steps, and the rounding of
    [|(x_next - x1) / x_next| * 100].  The hard-wired variant may end its
    list with the marker of a degenerate step instead, which holds [x1]
    unrounded. *)
Theorem secant_records_follow_recurrence :
  (forall (E : engine value value) expression guess1 guess2 iterations precision rs,
     MathUtilsExpr.secantMethod E expression guess1 guess2 iterations precision
     = Normal rs ->
     forall k r, nth_error rs k = Some r ->
       exists points points',
         Recurrence.steps
           (Recurrence.secant_step (Contract.value_at E expression)) k
           (guess1, guess2) = Normal points
         /\ Recurrence.secant_step (Contract.value_at E expression) points
            = Normal points'
         /\ Contract.step_record precision (1 + Z.of_nat k)
              (snd points) (snd points') r)
  /\ (forall Math_log guess1 guess2 iterations targetValue precision rs,
        MathUtils.secantMethod Math_log guess1 guess2 iterations targetValue
          precision = Normal rs ->
        forall k r, nth_error rs k = Some r ->
          exists points,
            Recurrence.steps
              (Recurrence.secant_step (Recurrence.total (MathUtils.f Math_log)))
              k (guess1, guess2) = Normal points
            /\ ((exists points',
                   Recurrence.secant_step
                     (Recurrence.total (MathUtils.f Math_log)) points
                   = Normal points'
                   /\ Contract.step_record precision (1 + Z.of_nat k)
                        (snd points) (snd points') r)
                \/ (S k = Datatypes.length rs
                    /\ r = degenerate_marker (1 + Z.of_nat k) (snd points)
                    /\ (Math_abs (MathUtils.f Math_log (snd points)
                                  - MathUtils.f Math_log (fst points))
                        <? 1e-10)%float = true))).
Proof.
  split.
  - intros E expression guess1 guess2 iterations precision rs Hrun k r Hr.
    apply expr_secant_results in Hrun. destruct Hrun as (n & sk & Hadv & <- & _).
    destruct (advance_trace _ MathUtilsExpr.sec_results
                (fun s => (MathUtilsExpr.sec_x0 s, MathUtilsExpr.sec_x1 s))
                (Recurrence.secant_step (Contract.value_at E expression))
                (fun _ _ => True)
                (fun i a a' => Contract.step_record precision i (snd a) (snd a'))
                (@expr_secant_trace_pass precision E expression)
                n (MathUtilsExpr.mkSec guess1 guess2 []))
      with (sk := sk) as (_ & _ & _ & Hrecords);
      [exact I | reflexivity | assumption |].
    exact (Hrecords _ _ Hr).
  - intros Math_log guess1 guess2 iterations targetValue precision rs Hrun k r Hr.
    apply hardwired_secant_results in Hrun. destruct Hrun as (n & sk & Hadv & Hrs).
    destruct (advance_trace _ MathUtils.sec_results
                (fun s => (MathUtils.sec_x0 s, MathUtils.sec_x1 s))
                (Recurrence.secant_step (Recurrence.total (MathUtils.f Math_log)))
                (fun _ _ => True)
                (fun i a a' => Contract.step_record precision i (snd a) (snd a'))
                (@hardwired_secant_trace_pass precision Math_log)
                n (MathUtils.mkSec guess1 guess2 []))
      with (sk := sk) as (_ & Hpoint & Hlen & Hrecords);
      [exact I | reflexivity | assumption |].
    simpl in Hpoint.
    destruct Hrs as [(-> & _) | (_ & -> & Hdeg)].
    + destruct (Hrecords _ _ Hr) as (a & a' & Ha & Hstep & Hrec).
      exists a. split; [assumption |]. left. eauto.
    + destruct (Nat.lt_ge_cases k n) as [Hlt | Hge].
      * rewrite nth_error_app1 in Hr by lia.
        destruct (Hrecords _ _ Hr) as (a & a' & Ha & Hstep & Hrec).
        exists a. split; [assumption |]. left. eauto.
      * rewrite nth_error_app2 in Hr by lia. rewrite Hlen in Hr.
        destruct (k - n)%nat as [| d] eqn:Hd; simpl in Hr;
          [| destruct d; discriminate].
        injection Hr as <-. assert (k = n) by lia. subst k.
        exists (MathUtils.sec_x0 sk, MathUtils.sec_x1 sk).
        split; [assumption |]. right.
        rewrite length_app, Hlen. simpl.
        repeat split; [lia | assumption].
Qed.

(** X3. Newton-Raphson and the secant method return fewer records than
    [iterations] only when a step was degenerate.  In the expression-driven
    variant a list of [k < iterations] records means that the step from the
    [k]-th point found [|f'(x_k)| < 1e-10], resp.
    [|f(x1) - f(x0)| < 1e-10]; in the hard-wired variant a short list ends
    with the marker of that step. *)
Theorem short_run_means_degenerate_step :
  (forall (E : engine value value) expression x0 iterations precision rs,
     MathUtilsExpr.newtonRaphson E expression x0 iterations precision
     = Normal rs ->
     (Z.of_nat (Datatypes.length rs) < iterations)%Z ->
     exists xk fx fpx,
       Contract.iterate_checked (Contract.newton_step E expression)
         (Datatypes.length rs) x0 = Normal xk
       /\ evaluate E expression (VNumber xk) = Normal fx
       /\ as_number (MathUtilsExpr.fPrime E expression xk) = Normal fpx
       /\ (Math_abs fpx <? 1e-10)%float = true)
  /\ (forall (E : engine value value) expression guess1 guess2 iterations precision
             rs,
        MathUtilsExpr.secantMethod E expression guess1 guess2 iterations
          precision = Normal rs ->
        (Z.of_nat (Datatypes.length rs) < iterations)%Z ->
        exists points fx0 fx1,
          Recurrence.steps
            (Recurrence.secant_step (Contract.value_at E expression))
            (Datatypes.length rs) (guess1, guess2) = Normal points
          /\ Contract.value_at E expression (fst points) = Normal fx0
          /\ Contract.value_at E expression (snd points) = Normal fx1
          /\ (Math_abs (fx1 - fx0) <? 1e-10)%float = true)
  /\ (forall Math_log x0 iterations targetValue precision rs,
        MathUtils.newtonRaphson Math_log x0 iterations targetValue precision
        = Normal rs ->
        (Z.of_nat (Datatypes.length rs) < iterations)%Z ->
        exists k,
          Datatypes.length rs = S k
          /\ nth_error rs k
             = Some (degenerate_marker (1 + Z.of_nat k)
                       (Contract.iterate (Contract.newton_step_ln Math_log) k x0))
          /\ (Math_abs
                (1 / Contract.iterate (Contract.newton_step_ln Math_log) k x0)
              <? 1e-10)%float = true)
  /\ (forall Math_log guess1 guess2 iterations targetValue precision rs,
        MathUtils.secantMethod Math_log guess1 guess2 iterations targetValue
          precision = Normal rs ->
        (Z.of_nat (Datatypes.length rs) < iterations)%Z ->
        exists k points,
          Datatypes.length rs = S k
          /\ Recurrence.steps
               (Recurrence.secant_step (Recurrence.total (MathUtils.f Math_log)))
               k (guess1, guess2) = Normal points
          /\ nth_error rs k
             = Some (degenerate_marker (1 + Z.of_nat k) (snd points))
          /\ (Math_abs (MathUtils.f Math_log (snd points)
                        - MathUtils.f Math_log (fst points))
              <? 1e-10)%float = true).
Proof.
  split; [| split; [| split]].
  - intros E expression x0 iterations precision rs Hrun Hshort.
    apply expr_newton_results_degenerate in Hrun.
    destruct Hrun as (k & sk & Hadv & <- & Hend).
    apply expr_newton_advance in Hadv. destruct Hadv as (Hx & Hlen & _).
    rewrite Hlen in *.
    destruct Hend as [-> | (_ & fx & fpx & Hfx & Hfpx & Hdeg)]; [lia |].
    exists (MathUtilsExpr.nr_x sk), fx, fpx. auto.
  - intros E expression guess1 guess2 iterations precision rs Hrun Hshort.
    apply expr_secant_results in Hrun.
    destruct Hrun as (k & sk & Hadv & <- & Hend).
    destruct (advance_trace _ MathUtilsExpr.sec_results
                (fun s => (MathUtilsExpr.sec_x0 s, MathUtilsExpr.sec_x1 s))
                (Recurrence.secant_step (Contract.value_at E expression))
                (fun _ _ => True)
                (fun i a a' => Contract.step_record precision i (snd a) (snd a'))
                (@expr_secant_trace_pass precision E expression)
                k (MathUtilsExpr.mkSec guess1 guess2 []))
      with (sk := sk) as (_ & Hpoint & Hlen & _);
      [exact I | reflexivity | assumption |].
    simpl in Hpoint. rewrite Hlen in *.
    destruct Hend as [-> | (_ & fx0 & fx1 & H0 & H1 & Hdeg)]; [lia |].
    exists (MathUtilsExpr.sec_x0 sk, MathUtilsExpr.sec_x1 sk), fx0, fx1. auto.
  - intros Math_log x0 iterations targetValue precision rs Hrun Hshort.
    apply hardwired_newton_results in Hrun.
    destruct Hrun as (k & sk & _ & Hadv & Hend).
    apply hardwired_newton_advance in Hadv. destruct Hadv as (Hx & Hlen & _).
    destruct Hend as [(-> & ->) | (-> & Hdeg)]; [rewrite Hlen in Hshort; lia |].
    exists k. rewrite length_app, Hlen. simpl. split; [lia |].
    rewrite nth_error_app2 by lia. rewrite Hlen, Nat.sub_diag. simpl.
    rewrite <- Hx. split; [reflexivity | assumption].
  - intros Math_log guess1 guess2 iterations targetValue precision rs Hrun Hshort.
    apply hardwired_secant_results in Hrun.
    destruct Hrun as (k & sk & Hadv & Hend).
    destruct (advance_trace _ MathUtils.sec_results
                (fun s => (MathUtils.sec_x0 s, MathUtils.sec_x1 s))
                (Recurrence.secant_step (Recurrence.total (MathUtils.f Math_log)))
                (fun _ _ => True)
                (fun i a a' => Contract.step_record precision i (snd a) (snd a'))
                (@hardwired_secant_trace_pass precision Math_log)
                k (MathUtils.mkSec guess1 guess2 []))
      with (sk := sk) as (_ & Hpoint & Hlen & _);
      [exact I | reflexivity | assumption |].
    simpl in Hpoint.
    destruct Hend as [(-> & ->) | (_ & -> & Hdeg)];
      [rewrite Hlen in Hshort; lia |].
    exists k, (MathUtils.sec_x0 sk, MathUtils.sec_x1 sk).
    rewrite length_app, Hlen. simpl. split; [lia |]. split; [assumption |].
    rewrite nth_error_app2 by lia. rewrite Hlen, Nat.sub_diag. simpl.
    split; [reflexivity | assumption].
Qed.

(** ** More on [approximateDerivative] *)

(** X4. [safeEvaluate] returns a number exactly when the node evaluated to
    a finite number, which it passes on unchanged; it returns null exactly
    when the evaluation threw, gave something that is not a number, or gave
    NaN or an infinity. *)
Theorem safeEvaluate_contract (E : engine number any) (node : MathNode E)
  (x : number) :
  (forall v,
     MathUtils.safeEvaluate E node x = Normal (Some v)
     <-> node_evaluate E node x = Normal (Num v) /\ isFinite v = true)
  /\ (MathUtils.safeEvaluate E node x = Normal None
      <-> (exists e, node_evaluate E node x = Throw e)
          \/ node_evaluate E node x = Normal NotNum
          \/ (exists v, node_evaluate E node x = Normal (Num v)
                        /\ isFinite v = false)).
Proof.
  split.
  - intros v. apply safeEvaluate_Some.
  - apply safeEvaluate_None.
Qed.

Section SymbolicFailure.

Variable precision : Z.
Hypothesis precision_ok : (0 <= precision <= 100)%Z.

Ltac round_field :=
  match goal with
  | |- context [bind (toFixed_parseFloat ?v precision) _] =>
      let r := fresh "r" in
      let Hr := fresh "Hr" in
      destruct (toFixed_parseFloat_total v precision_ok) as [r Hr];
      rewrite Hr; simpl bind
  end.

(** Without a symbolic value the guarded variant still returns its three
    estimates. *)
Lemma guarded_without_symbolic (E : engine number any) expression guessValue h
  compiledExpr f_x f_x_plus_h f_x_minus_h :
  compile E expression = Normal compiledExpr ->
  MathUtils.safeEvaluate E compiledExpr guessValue = Normal (Some f_x) ->
  MathUtils.safeEvaluate E compiledExpr (guessValue + h)%float
  = Normal (Some f_x_plus_h) ->
  MathUtils.safeEvaluate E compiledExpr (guessValue - h)%float
  = Normal (Some f_x_minus_h) ->
  ((exists e, derivative E expression "x" = Throw e)
   \/ (exists node,
         derivative E expression "x" = Normal node
         /\ MathUtils.safeEvaluate E node guessValue = Normal None)) ->
  exists fwd bwd ctr,
    toFixed_parseFloat ((f_x_plus_h - f_x) / h)%float precision = Normal fwd
    /\ toFixed_parseFloat ((f_x - f_x_minus_h) / h)%float precision = Normal bwd
    /\ toFixed_parseFloat ((f_x_plus_h - f_x_minus_h) / (2 * h))%float precision
       = Normal ctr
    /\ MathUtils.approximateDerivative E expression guessValue h precision
       = Normal (Result (mkDerivativeResult fwd bwd ctr None None None None)).
Proof.
  intros Hcompile Hx Hplus Hminus Hsymbolic.
  unfold MathUtils.approximateDerivative.
  rewrite Hcompile. simpl bind. rewrite Hx. simpl bind.
  rewrite Hplus. simpl bind. rewrite Hminus. simpl bind.
  assert (Hnone :
            (symbolicDerivativeNode <- MathUtils.safeDerivative E expression "x" ;;
             match symbolicDerivativeNode with
             | Some node => MathUtils.safeEvaluate E node guessValue
             | None => Normal None
             end) = Normal None).
  { unfold MathUtils.safeDerivative.
    destruct Hsymbolic as [(e & ->) | (node & -> & Hnode)]; simpl;
      [reflexivity | assumption]. }
  destruct (MathUtils.safeDerivative E expression "x") as [dnode | e];
    simpl bind in Hnone |- *; [| discriminate].
  rewrite Hnone. simpl bind. cbn [MathUtils.calculateError round_nullable].
  repeat round_field. simpl.
  exists r, r0, r1. auto.
Qed.

End SymbolicFailure.

(** X5. A failed symbolic differentiation is not fatal to the guarded
    [approximateDerivative]: when [f] evaluates to finite numbers at [x],
    [x + h] and [x - h] but [derivative] throws, or the derivative does not
    evaluate to a finite number at [x], the call returns the three rounded
    difference quotients with [symbolic] and the three errors null.  In the
    expression-driven variant the same throw makes the whole call answer
    with its error object. *)
Theorem symbolic_failure_is_not_fatal :
  (forall (E : engine number any) expression guessValue h precision
          compiledExpr f_x f_x_plus_h f_x_minus_h,
     (0 <= precision <= 100)%Z ->
     compile E expression = Normal compiledExpr ->
     MathUtils.safeEvaluate E compiledExpr guessValue = Normal (Some f_x) ->
     MathUtils.safeEvaluate E compiledExpr (guessValue + h)%float
     = Normal (Some f_x_plus_h) ->
     MathUtils.safeEvaluate E compiledExpr (guessValue - h)%float
     = Normal (Some f_x_minus_h) ->
     ((exists e, derivative E expression "x" = Throw e)
      \/ (exists node,
            derivative E expression "x" = Normal node
            /\ MathUtils.safeEvaluate E node guessValue = Normal None)) ->
     exists fwd bwd ctr,
       toFixed_parseFloat ((f_x_plus_h - f_x) / h)%float precision = Normal fwd
       /\ toFixed_parseFloat ((f_x - f_x_minus_h) / h)%float precision
          = Normal bwd
       /\ toFixed_parseFloat ((f_x_plus_h - f_x_minus_h) / (2 * h))%float
            precision = Normal ctr
       /\ MathUtils.approximateDerivative E expression guessValue h precision
          = Normal (Result (mkDerivativeResult fwd bwd ctr
                              None None None None)))
  /\ (forall (E : engine value value) expression guessValue h precision
             compiledExpr f_x f_x_plus_h f_x_minus_h e,
        compile E expression = Normal compiledExpr ->
        node_evaluate E compiledExpr (VNumber guessValue) = Normal f_x ->
        node_evaluate E compiledExpr (VNumber (guessValue + h)%float)
        = Normal f_x_plus_h ->
        node_evaluate E compiledExpr (VNumber (guessValue - h)%float)
        = Normal f_x_minus_h ->
        derivative E expression "x" = Throw e ->
        MathUtilsExpr.approximateDerivative E expression guessValue h precision
        = Normal (ErrorObject "An error occurred during derivative calculation.")).
Proof.
  split.
  - intros E expression guessValue h precision compiledExpr f_x f_p f_m
      Hp Hcompile Hx Hplus Hminus Hsymbolic.
    now apply guarded_without_symbolic with (compiledExpr := compiledExpr).
  - intros E expression guessValue h precision compiledExpr f_x f_p f_m e
      Hcompile Hx Hplus Hminus Hderivative.
    unfold MathUtilsExpr.approximateDerivative.
    rewrite Hcompile. simpl bind. rewrite Hx. simpl bind.
    rewrite Hplus. simpl bind. rewrite Hminus. simpl bind.
    destruct (js_sub f_p f_x); simpl bind; [| reflexivity].
    destruct (js_sub f_x f_m); simpl bind; [| reflexivity].
    destruct (js_sub f_p f_m); simpl bind; [| reflexivity].
    rewrite Hderivative. reflexivity.
Qed.

(** X6. Which message the guarded [approximateDerivative] answers with.
    Whenever the expression compiles and [safeEvaluate] gives null at [x],
    [x + h] or [x - h], the answer is the fixed "Failed to evaluate" text,
    whatever was thrown: an [Undefined symbol] error raised by the
    evaluation never reaches the handler that would report it as an invalid
    expression.  An error thrown by [compile] is reported by that handler:
    as an invalid expression when it is an [Error] whose message includes
    [Undefined symbol], else as a syntax error when it is a [SyntaxError],
    else by the general text. *)
Theorem approximateDerivative_messages
  (E : engine number any) (expression : string) (guessValue h : number)
  (precision : Z) :
  (forall compiledExpr,
     compile E expression = Normal compiledExpr ->
     MathUtils.safeEvaluate E compiledExpr guessValue = Normal None
     \/ MathUtils.safeEvaluate E compiledExpr (guessValue + h)%float
        = Normal None
     \/ MathUtils.safeEvaluate E compiledExpr (guessValue - h)%float
        = Normal None ->
     MathUtils.approximateDerivative E expression guessValue h precision
     = Normal (ErrorObject MathUtils.evaluation_failed_message))
  /\ (forall compiledExpr message,
        compile E expression = Normal compiledExpr ->
        node_evaluate E compiledExpr guessValue
        = Throw (mkExn PlainErrorClass message) ->
        forall reported,
          MathUtils.approximateDerivative E expression guessValue h precision
          = Normal (ErrorObject reported) ->
          reported = MathUtils.evaluation_failed_message
          /\ String.prefix "Invalid expression: " reported = false)
  /\ (forall e,
        compile E expression = Throw e ->
        MathUtils.approximateDerivative E expression guessValue h precision
        = Normal (ErrorObject
                    (if instanceof_Error e
                        && includes (exn_message e) "Undefined symbol"
                     then "Invalid expression: " ++ exn_message e
                          ++ ". Ensure all variables and functions are defined."
                     else if instanceof_SyntaxError e
                     then "Syntax error in expression: " ++ exn_message e
                     else "An error occurred during derivative calculation. Please check the expression and inputs."))).
Proof.
  assert (Hfailed : forall compiledExpr,
            compile E expression = Normal compiledExpr ->
            MathUtils.safeEvaluate E compiledExpr guessValue = Normal None
            \/ MathUtils.safeEvaluate E compiledExpr (guessValue + h)%float
               = Normal None
            \/ MathUtils.safeEvaluate E compiledExpr (guessValue - h)%float
               = Normal None ->
            MathUtils.approximateDerivative E expression guessValue h precision
            = Normal (ErrorObject MathUtils.evaluation_failed_message)).
  { intros compiledExpr Hcompile Hnull.
    unfold MathUtils.approximateDerivative. rewrite Hcompile. simpl bind.
    destruct (safeEvaluate_never_throws E compiledExpr guessValue) as [f_x Hx].
    destruct (safeEvaluate_never_throws E compiledExpr (guessValue + h)%float)
      as [f_p Hp].
    destruct (safeEvaluate_never_throws E compiledExpr (guessValue - h)%float)
      as [f_m Hm].
    rewrite Hx, Hp, Hm. simpl bind.
    destruct f_x as [f_x |], f_p as [f_p |], f_m as [f_m |];
      try reflexivity.
    destruct Hnull as [Hn | [Hn | Hn]]; congruence. }
  split; [exact Hfailed |]. split.
  - intros compiledExpr message Hcompile Hthrow reported Hreported.
    assert (Hnull : MathUtils.safeEvaluate E compiledExpr guessValue
                    = Normal None)
      by (apply safeEvaluate_None; left; eauto).
    rewrite (Hfailed compiledExpr Hcompile (or_introl Hnull)) in Hreported.
    injection Hreported as <-. split; reflexivity.
  - intros e Hcompile.
    unfold MathUtils.approximateDerivative. rewrite Hcompile. simpl.
    unfold MathUtils.approximateDerivative_catch.
    destruct (instanceof_Error e && includes (exn_message e) "Undefined symbol");
      [reflexivity |].
    destruct (instanceof_SyntaxError e); reflexivity.
Qed.

(** X7. The expression-driven [approximateDerivative] never throws and has
    one error text.  With a precision [toFixed] accepts it returns a
    [DerivativeResult] exactly when [compile], the three evaluations,
    [derivative] and the evaluation of the printed derivative all return,
    the four values they return can be used as numbers (whatever numbers,
    finite or not), and the value of the derivative has a method [toFixed]
    that returns.  So a value that is no number, a Complex say, is accepted
    as a value of [f] and ends in the error text as the value of the
    derivative. *)
Theorem unguarded_approximateDerivative_outcome
  (E : engine value value) (expression : string) (guessValue h : number)
  (precision : Z) :
  (exists outcome,
     MathUtilsExpr.approximateDerivative E expression guessValue h precision
     = Normal outcome)
  /\ (forall message,
        MathUtilsExpr.approximateDerivative E expression guessValue h precision
        = Normal (ErrorObject message) ->
        message = "An error occurred during derivative calculation."%string)
  /\ ((0 <= precision <= 100)%Z ->
      ((exists r,
          MathUtilsExpr.approximateDerivative E expression guessValue h
            precision = Normal (Result r))
       <-> exists compiledExpr f_x f_x_plus_h f_x_minus_h a b c exact d sym,
             compile E expression = Normal compiledExpr
             /\ node_evaluate E compiledExpr (VNumber guessValue) = Normal f_x
             /\ node_evaluate E compiledExpr (VNumber (guessValue + h)%float)
                = Normal f_x_plus_h
             /\ node_evaluate E compiledExpr (VNumber (guessValue - h)%float)
                = Normal f_x_minus_h
             /\ to_number f_x = Normal a
             /\ to_number f_x_plus_h = Normal b
             /\ to_number f_x_minus_h = Normal c
             /\ MathUtilsExpr.fPrime E expression guessValue = Normal exact
             /\ to_number exact = Normal d
             /\ call_toFixed "symbolicDerivativeValue" exact precision
                = Normal sym)).
Proof.
  split; [| split].
  - unfold MathUtilsExpr.approximateDerivative.
    match goal with
    | |- exists outcome, try_catch ?body _ = _ => destruct body as [r | e]
    end; simpl; eauto.
  - unfold MathUtilsExpr.approximateDerivative. intros message H.
    match type of H with
    | try_catch ?body _ = _ => destruct body as [outcome | e] eqn:Hbody
    end; simpl in H.
    + injection H as ->. split_pass Hbody.
    + now injection H as <-.
  - intros Hp. split.
    + intros [r Hr]. apply expr_approximateDerivative_Result in Hr.
      destruct Hr as (compiledExpr & f_x & f_p & f_m & fs & bs & cs & exact
                      & sym & H1 & H2 & H3 & H4 & Hf & Hb & _ & Hexact
                      & _ & _ & _ & Herr & _ & _ & Hsym & _).
      apply js_sub_Normal in Hf. destruct Hf as (b & a & Hfp & Hfx & _).
      apply js_sub_Normal in Hb. destruct Hb as (a' & c & _ & Hfm & _).
      assert (Hd : exists d, to_number exact = Normal d).
      { pose proof Hsym as Hnull. apply call_toFixed_not_null in Hnull.
        unfold MathUtilsExpr.calcError, Math_abs_of in Herr.
        destruct (to_number exact) as [d | e] eqn:Hd; [eauto |].
        destruct exact; try discriminate; try contradiction. }
      destruct Hd as [d Hd].
      exists compiledExpr, f_x, f_p, f_m, a, b, c, exact, d, sym. auto 12.
    + intros (compiledExpr & f_x & f_p & f_m & a & b & c & exact & d & sym
              & H1 & H2 & H3 & H4 & Ha & Hb & Hc & Hexact & Hd & Hsym).
      now apply unguarded_approximateDerivative_accepts
        with (compiledExpr := compiledExpr) (f_x := f_x) (f_x_plus_h := f_p)
             (f_x_minus_h := f_m) (a := a) (b := b) (c := c) (exact := exact)
             (d := d) (sym := sym).
Qed.

(** ** A precision [toFixed] refuses *)

Lemma toFixed_parseFloat_out_of_range (x : number) (p : Z) :
  (p < 0)%Z \/ (100 < p)%Z ->
  toFixed_parseFloat x p = Throw toFixed_range_error.
Proof.
  intros Hp. unfold toFixed_parseFloat.
  replace ((p <? 0)%Z || (100 <? p)%Z) with true; [reflexivity |].
  symmetry. apply orb_true_iff.
  destruct Hp; [left; now apply Z.ltb_lt | right; now apply Z.ltb_lt].
Qed.

(** X8. With a precision outside [0..100] and at least one iteration, the
    first rounding throws [toFixed]'s [RangeError] out of the root finders:
    Fixed-Point Iteration throws it (in the expression-driven variant once
    [g] has evaluated at the first guess), and so does the hard-wired
    Newton-Raphson unless its first step is degenerate, in which case it
    returns the unrounded marker without ever rounding.  The guarded
    [approximateDerivative] catches the same error and answers with its
    general error text. *)
Theorem precision_out_of_range
  (precision iterations : Z)
  (Hprecision : (precision < 0)%Z \/ (100 < precision)%Z)
  (Hiterations : (1 <= iterations)%Z) :
  (forall Math_log x0 targetValue,
     MathUtils.fixedPointIteration Math_log x0 iterations targetValue precision
     = Throw toFixed_range_error)
  /\ (forall (E : engine value value) gExpression x0 v,
        evaluate E gExpression (VNumber x0) = Normal (VNumber v) ->
        MathUtilsExpr.fixedPointIteration E gExpression x0 iterations precision
        = Throw toFixed_range_error)
  /\ (forall Math_log x0 targetValue,
        MathUtils.newtonRaphson Math_log x0 iterations targetValue precision
        = if (Math_abs (1 / x0) <? 1e-10)%float
          then Normal [degenerate_marker 1 x0]
          else Throw toFixed_range_error)
  /\ (forall (E : engine number any) expression guessValue h
             compiledExpr f_x f_x_plus_h f_x_minus_h,
        compile E expression = Normal compiledExpr ->
        MathUtils.safeEvaluate E compiledExpr guessValue = Normal (Some f_x) ->
        MathUtils.safeEvaluate E compiledExpr (guessValue + h)%float
        = Normal (Some f_x_plus_h) ->
        MathUtils.safeEvaluate E compiledExpr (guessValue - h)%float
        = Normal (Some f_x_minus_h) ->
        MathUtils.approximateDerivative E expression guessValue h precision
        = Normal (ErrorObject
                    "An error occurred during derivative calculation. Please check the expression and inputs.")).
Proof.
  assert (Hn : exists n, Z.to_nat iterations = S n)
    by (exists (Z.to_nat (iterations - 1)); lia).
  destruct Hn as [n Hn].
  split; [| split; [| split]].
  - intros Math_log x0 targetValue.
    unfold MathUtils.fixedPointIteration. rewrite Hn. simpl for_loop.
    unfold MathUtils.fixedPointIteration_pass at 1.
    now rewrite toFixed_parseFloat_out_of_range.
  - intros E gExpression x0 v Hg.
    unfold MathUtilsExpr.fixedPointIteration. rewrite Hn. simpl for_loop.
    unfold MathUtilsExpr.fixedPointIteration_pass at 1. simpl MathUtilsExpr.fp_x.
    rewrite Hg. simpl bind. unfold call_toFixed.
    now rewrite toFixed_parseFloat_out_of_range.
  - intros Math_log x0 targetValue.
    unfold MathUtils.newtonRaphson. rewrite Hn. simpl for_loop.
    unfold MathUtils.newtonRaphson_pass at 1. simpl MathUtils.nr_x.
    unfold MathUtils.fPrime at 1.
    destruct (Math_abs (1 / x0) <? 1e-10)%float; [reflexivity |].
    now rewrite toFixed_parseFloat_out_of_range.
  - intros E expression guessValue h compiledExpr f_x f_p f_m
      Hcompile Hx Hplus Hminus.
    unfold MathUtils.approximateDerivative.
    rewrite Hcompile. simpl bind. rewrite Hx. simpl bind.
    rewrite Hplus. simpl bind. rewrite Hminus. simpl bind.
    destruct (safeDerivative_never_throws E expression "x") as [node ->].
    simpl bind.
    assert (Hexact : exists exact,
              match node with
              | Some n => MathUtils.safeEvaluate E n guessValue
              | None => Normal None
              end = Normal exact).
    { destruct node as [n0 |]; [apply safeEvaluate_never_throws | eauto]. }
    destruct Hexact as [exact ->]. simpl bind.
    now rewrite toFixed_parseFloat_out_of_range.
Qed.

(** ** The forms *)

Lemma guarded_approximateDerivative_returns (E : engine number any) expression
  guessValue h precision :
  exists outcome,
    MathUtils.approximateDerivative E expression guessValue h precision
    = Normal outcome.
Proof.
  unfold MathUtils.approximateDerivative.
  match goal with
  | |- exists outcome, try_catch ?body _ = _ => destruct body as [r | e]
  end; simpl; [eauto |].
  destruct (approximateDerivative_catch_never_throws e) as [message ->]. eauto.
Qed.

Lemma unguarded_approximateDerivative_returns (E : engine value value) expression
  guessValue h precision :
  exists outcome,
    MathUtilsExpr.approximateDerivative E expression guessValue h precision
    = Normal outcome.
Proof.
  unfold MathUtilsExpr.approximateDerivative.
  match goal with
  | |- exists outcome, try_catch ?body _ = _ => destruct body as [r | e]
  end; simpl; eauto.
Qed.

(** X9. A submission of the expression-driven [ApproximateE] form never
    throws and leaves exactly one of [results] and [error] set.  An
    expression that does not compile, a secant run without a second guess,
    and an evaluation of [g] that throws in the middle of a Fixed-Point
    run all end in the text [Calculation failed: ...] with no table at all.
    With each of the three methods, a run the library returns is shown as
    it is, and whatever the library throws, the [TypeError] of a result
    without [toFixed] included, ends in that text with the message
    thrown. *)
Theorem approximate_e_submission
  (E : engine value value) (values : Forms.FormData) :
  (exists v,
     Forms.onSubmit E values = Normal v
     /\ (Forms.results v = None <-> Forms.error v <> None))
  /\ (forall e,
        compile E (Forms.functionExpression values) = Throw e ->
        Forms.onSubmit E values
        = Normal (Forms.mkView None
                    (Some ("Calculation failed: " ++ Forms.message_or_unknown e)%string)
                    [Forms.mkToast true "Calculation Error"
                       ("Failed to calculate approximation: "
                        ++ Forms.message_or_unknown e)%string]))
  /\ (forall compiledExpr,
        compile E (Forms.functionExpression values) = Normal compiledExpr ->
        Forms.form_method values = Forms.secant ->
        Forms.initialGuess2 values = None ->
        Forms.onSubmit E values
        = Normal (Forms.mkView None
                    (Some "Calculation failed: Second initial guess (x1) is required for Secant method"%string)
                    [Forms.mkToast true "Calculation Error"
                       "Failed to calculate approximation: Second initial guess (x1) is required for Secant method"]))
  /\ (forall compiledExpr (k : nat) xk e,
        compile E (Forms.functionExpression values) = Normal compiledExpr ->
        Forms.form_method values = Forms.fixed_point ->
        (0 <= Forms.form_precision values <= 100)%Z ->
        (Z.of_nat k < Forms.form_iterations values)%Z ->
        Recurrence.number_steps
          (evaluate E (Forms.functionExpression values)) k
          (Forms.initialGuess1 values) = Some xk ->
        evaluate E (Forms.functionExpression values) (VNumber xk) = Throw e ->
        Forms.onSubmit E values
        = Normal (Forms.mkView None
                    (Some ("Calculation failed: " ++ Forms.message_or_unknown e)%string)
                    [Forms.mkToast true "Calculation Error"
                       ("Failed to calculate approximation: "
                        ++ Forms.message_or_unknown e)%string]))
  /\ (forall compiledExpr,
        compile E (Forms.functionExpression values) = Normal compiledExpr ->
        Forms.form_method values = Forms.fixed_point ->
        Forms.onSubmit E values
        = match
            MathUtilsExpr.fixedPointIteration E (Forms.functionExpression values)
              (Forms.initialGuess1 values) (Forms.form_iterations values)
              (Forms.form_precision values)
          with
          | Normal rs => Normal (Forms.mkView (Some rs) None [])
          | Throw e =>
              Normal (Forms.mkView None
                        (Some ("Calculation failed: "
                               ++ Forms.message_or_unknown e)%string)
                        [Forms.mkToast true "Calculation Error"
                           ("Failed to calculate approximation: "
                            ++ Forms.message_or_unknown e)%string])
          end)
  /\ (forall compiledExpr,
        compile E (Forms.functionExpression values) = Normal compiledExpr ->
        Forms.form_method values = Forms.newton_raphson ->
        Forms.onSubmit E values
        = match
            MathUtilsExpr.newtonRaphson E (Forms.functionExpression values)
              (Forms.initialGuess1 values) (Forms.form_iterations values)
              (Forms.form_precision values)
          with
          | Normal rs => Normal (Forms.mkView (Some rs) None [])
          | Throw e =>
              Normal (Forms.mkView None
                        (Some ("Calculation failed: "
                               ++ Forms.message_or_unknown e)%string)
                        [Forms.mkToast true "Calculation Error"
                           ("Failed to calculate approximation: "
                            ++ Forms.message_or_unknown e)%string])
          end)
  /\ (forall compiledExpr guess2,
        compile E (Forms.functionExpression values) = Normal compiledExpr ->
        Forms.form_method values = Forms.secant ->
        Forms.initialGuess2 values = Some guess2 ->
        Forms.onSubmit E values
        = match
            MathUtilsExpr.secantMethod E (Forms.functionExpression values)
              (Forms.initialGuess1 values) guess2 (Forms.form_iterations values)
              (Forms.form_precision values)
          with
          | Normal rs => Normal (Forms.mkView (Some rs) None [])
          | Throw e =>
              Normal (Forms.mkView None
                        (Some ("Calculation failed: "
                               ++ Forms.message_or_unknown e)%string)
                        [Forms.mkToast true "Calculation Error"
                           ("Failed to calculate approximation: "
                            ++ Forms.message_or_unknown e)%string])
          end).
Proof.
  split; [| split; [| split; [| split; [| split; [| split]]]]].
  - unfold Forms.onSubmit.
    match goal with
    | |- exists v, try_catch ?body _ = _ /\ _ =>
        destruct body as [v | e] eqn:Hbody
    end; simpl.
    + exists v. split; [reflexivity |].
      cbv zeta in Hbody. split_pass Hbody. injection Hbody as <-. simpl.
      split; [discriminate | intros H; now contradiction H].
    + eexists. split; [reflexivity |]. simpl.
      split; [discriminate | reflexivity].
  - intros e Hcompile. unfold Forms.onSubmit. cbv zeta.
    rewrite Hcompile. reflexivity.
  - intros compiledExpr Hcompile Hmethod Hguess. unfold Forms.onSubmit. cbv zeta.
    rewrite Hcompile, Hmethod, Hguess. reflexivity.
  - intros compiledExpr k xk e Hcompile Hmethod Hp Hk Hreached Hfails.
    unfold Forms.onSubmit. cbv zeta. rewrite Hcompile, Hmethod. simpl bind.
    rewrite (@expr_fixedPoint_throws E (Forms.functionExpression values)
               (Forms.form_precision values) Hp (Forms.initialGuess1 values)
               (Forms.form_iterations values) k xk e Hk Hreached Hfails).
    reflexivity.
  - intros compiledExpr Hcompile Hmethod.
    unfold Forms.onSubmit. cbv zeta. rewrite Hcompile, Hmethod. simpl bind.
    now destruct (MathUtilsExpr.fixedPointIteration _ _ _ _ _).
  - intros compiledExpr Hcompile Hmethod.
    unfold Forms.onSubmit. cbv zeta. rewrite Hcompile, Hmethod. simpl bind.
    now destruct (MathUtilsExpr.newtonRaphson _ _ _ _ _).
  - intros compiledExpr guess2 Hcompile Hmethod Hguess.
    unfold Forms.onSubmit. cbv zeta. rewrite Hcompile, Hmethod, Hguess.
    simpl bind.
    now destruct (MathUtilsExpr.secantMethod _ _ _ _ _ _).
Qed.

(** X10. A submission of the hard-wired [ApproximateE] form with a
    precision in [0..100] never shows [Calculation failed]: the hard-wired
    root finders cannot throw, so the form ends with the table of the run,
    or, for the secant method without a second guess, with its own text and
    no call into the library. *)
Theorem approximate_e_hardwired_submission
  (Math_log : number -> number) (values : Forms.FormDataE) :
  (0 <= Forms.e_precision values <= 100)%Z ->
  exists v,
    Forms.onSubmitE Math_log values = Normal v
    /\ ((exists rs, v = Forms.mkView (Some rs) None [])
        \/ (Forms.e_method values = Forms.secant
            /\ Forms.e_initialGuess2 values = None
            /\ v = Forms.mkView None
                     (Some "Invalid method or missing input for Secant method."%string)
                     [])).
Proof.
  intros Hp. unfold Forms.onSubmitE. cbv zeta.
  destruct (Forms.e_method values) eqn:Hmethod.
  - destruct (hardwired_returns (Forms.e_iterations values) Math_log
                (Forms.e_initialGuess1 values) 0%float 0%float Hp)
      as ((rs & Hrs) & _).
    destruct (Forms.e_initialGuess2 values);
      rewrite Hrs; simpl; eauto.
  - destruct (hardwired_returns (Forms.e_iterations values) Math_log
                (Forms.e_initialGuess1 values) 0%float 0%float Hp)
      as (_ & (rs & Hrs) & _).
    destruct (Forms.e_initialGuess2 values);
      rewrite Hrs; simpl; eauto.
  - destruct (Forms.e_initialGuess2 values) as [guess2 |] eqn:Hguess.
    + destruct (hardwired_returns (Forms.e_iterations values) Math_log
                  (Forms.e_initialGuess1 values) guess2 0%float Hp)
        as (_ & _ & (rs & Hrs)).
      rewrite Hrs. simpl. eauto.
    + simpl. eexists. split; [reflexivity |]. right. auto.
Qed.

(** X11. A submission of the [ApproximateDerivative] form never takes its
    own [catch] branch, with either variant of the library: the library
    call returns, and the form shows the result, or the library's own error
    text, unprefixed, in the state and in one toast. *)
Theorem approximate_derivative_submission (values : Forms.FormDataD) :
  (forall E : engine number any,
     exists outcome,
       MathUtils.approximateDerivative E (Forms.d_expression values)
         (Forms.d_guessValue values) (Forms.d_h values)
         (Forms.d_precision values) = Normal outcome
       /\ Forms.onSubmitD (MathUtils.approximateDerivative E) values
          = Normal match outcome with
                   | Result r => Forms.mkView (Some r) None []
                   | ErrorObject message =>
                       Forms.mkView None (Some message)
                         [Forms.mkToast true "Calculation Error" message]
                   end)
  /\ (forall E : engine value value,
        exists outcome,
          MathUtilsExpr.approximateDerivative E (Forms.d_expression values)
            (Forms.d_guessValue values) (Forms.d_h values)
            (Forms.d_precision values) = Normal outcome
          /\ Forms.onSubmitD (MathUtilsExpr.approximateDerivative E) values
             = Normal match outcome with
                      | Result r => Forms.mkView (Some r) None []
                      | ErrorObject message =>
                          Forms.mkView None (Some message)
                            [Forms.mkToast true "Calculation Error" message]
                      end).
Proof.
  split; intros E.
  - destruct (guarded_approximateDerivative_returns E (Forms.d_expression values)
                (Forms.d_guessValue values) (Forms.d_h values)
                (Forms.d_precision values)) as [outcome Hout].
    exists outcome. split; [assumption |].
    unfold Forms.onSubmitD. rewrite Hout. now destruct outcome.
  - destruct (unguarded_approximateDerivative_returns E (Forms.d_expression values)
                (Forms.d_guessValue values) (Forms.d_h values)
                (Forms.d_precision values)) as [outcome Hout].
    exists outcome. split; [assumption |].
    unfold Forms.onSubmitD. rewrite Hout. now destruct outcome.
Qed.

(** ** The figure under the table *)

Lemma hardwired_fixedPoint_length Math_log x0 iterations targetValue precision
  rs :
  MathUtils.fixedPointIteration Math_log x0 iterations targetValue precision
  = Normal rs ->
  Datatypes.length rs = Z.to_nat iterations.
Proof.
  intros Hrun.
  unfold MathUtils.fixedPointIteration in Hrun.
  destruct (for_loop _ _ _ _) as [s' | e] eqn:Hloop; [| discriminate].
  injection Hrun as <-.
  destruct (for_loop_Normal_inv _ _ _ _ Hloop)
    as [Hall | (j & sj & _ & _ & Hbrk)];
    [| now apply hardwired_fixedPoint_no_Break in Hbrk].
  destruct (advance_trace _ MathUtils.fp_results MathUtils.fp_x
              (Recurrence.total (MathUtils.G Math_log))
              (fun i s => first_pass_only i (MathUtils.fp_prevX s))
              (fun i => Recurrence.fixed_point_record precision (Z.to_nat (i - 1)))
              (@hardwired_fixedPoint_trace_pass precision Math_log)
              (Z.to_nat iterations) (MathUtils.mkFp x0 None []))
    with (sk := s') as (_ & _ & Hlen & _);
    [left; split; reflexivity | reflexivity | assumption |].
  exact Hlen.
Qed.

Lemma finalApproximation_last (rs : list IterationResult) (n : nat) r :
  Datatypes.length rs = S n ->
  nth_error rs n = Some r ->
  Forms.finalApproximation (Some rs) = Some (approximation r).
Proof.
  intros Hlen Hr. unfold Forms.finalApproximation. rewrite Hlen.
  simpl Nat.ltb. cbv iota.
  replace (S n - 1)%nat with n by lia. now rewrite Hr.
Qed.

Lemma nth_error_last_defined {A : Type} (l : list A) (n : nat) :
  Datatypes.length l = S n -> exists a, nth_error l n = Some a.
Proof.
  intros Hlen. destruct (nth_error l n) as [a |] eqn:Hnth; [eauto |].
  apply nth_error_None in Hnth. lia.
Qed.

(** X12. The final approximation the form prints under a Fixed-Point table
    is the rounding of the [iterations]-th iterate of [g] from the initial
    guess, computed on the unrounded points; with no iteration to run the
    table is empty and the figure is null. *)
Theorem final_approximation_of_fixed_point :
  (forall (E : engine value value) gExpression x0 iterations precision rs,
     MathUtilsExpr.fixedPointIteration E gExpression x0 iterations precision
     = Normal rs ->
     ((iterations <= 0)%Z ->
      rs = [] /\ Forms.finalApproximation (Some rs) = None)
     /\ ((1 <= iterations)%Z ->
         exists xn a,
           Recurrence.steps (evaluate E gExpression) (Z.to_nat iterations)
             (VNumber x0) = Normal xn
           /\ call_toFixed "nextX" xn precision = Normal a
           /\ Forms.finalApproximation (Some rs) = Some a))
  /\ (forall Math_log x0 iterations targetValue precision rs,
        MathUtils.fixedPointIteration Math_log x0 iterations targetValue
          precision = Normal rs ->
        ((iterations <= 0)%Z ->
         rs = [] /\ Forms.finalApproximation (Some rs) = None)
        /\ ((1 <= iterations)%Z ->
            exists xn a,
              Recurrence.steps (Recurrence.total (MathUtils.G Math_log))
                (Z.to_nat iterations) x0 = Normal xn
              /\ toFixed_parseFloat xn precision = Normal a
              /\ Forms.finalApproximation (Some rs) = Some a)).
Proof.
  split.
  - intros E gExpression x0 iterations precision rs Hrun.
    apply expr_fixedPoint_nth in Hrun. destruct Hrun as [Hlen Hrecords].
    split.
    + intros Hnone. replace (Z.to_nat iterations) with O in Hlen by lia.
      destruct rs; [| discriminate]. split; reflexivity.
    + intros Hsome.
      destruct (Z.to_nat iterations) as [| n] eqn:Hn; [lia |].
      destruct (nth_error_last_defined rs Hlen) as [r Hr].
      destruct (Hrecords _ _ Hr) as (xk & xk1 & Hxk & Hstep & _ & Ha & _).
      exists xk1, (approximation r).
      split; [rewrite steps_snoc, Hxk; exact Hstep |].
      split; [assumption |].
      now apply finalApproximation_last with (n := n).
  - intros Math_log x0 iterations targetValue precision rs Hrun.
    pose proof (hardwired_fixedPoint_length _ _ _ _ _ Hrun) as Hlen.
    pose proof (hardwired_fixedPoint_nth _ _ _ _ _ Hrun) as Hrecords.
    split.
    + intros Hnone. replace (Z.to_nat iterations) with O in Hlen by lia.
      destruct rs; [| discriminate]. split; reflexivity.
    + intros Hsome.
      destruct (Z.to_nat iterations) as [| n] eqn:Hn; [lia |].
      destruct (nth_error_last_defined rs Hlen) as [r Hr].
      destruct (Hrecords _ _ Hr) as (xk & Hxk & _ & Ha & _).
      exists (xk - Math_log xk + 1)%float, (approximation r).
      split; [rewrite steps_snoc, Hxk; reflexivity |].
      split; [assumption |].
      now apply finalApproximation_last with (n := n).
Qed.

(** ** The colour of an error *)

(** X13. [getErrorColor] never prints a number in the colour of a missing
    error, paints an error below 1 green, one from 1 up to 10 yellow and
    one from 10 up red; an error that is NaN, which is below nothing, is
    painted red as well. *)
Theorem error_colour_buckets (e : number) :
  getErrorColor (Some e) <> getErrorColor None
  /\ ((e <? 1)%float = true -> getErrorColor (Some e) = "text-green-600"%string)
  /\ ((1 <=? e)%float = true -> (e <? 10)%float = true ->
      getErrorColor (Some e) = "text-yellow-600"%string)
  /\ ((10 <=? e)%float = true -> getErrorColor (Some e) = "text-red-600"%string)
  /\ (is_nan e = true -> getErrorColor (Some e) = "text-red-600"%string).
Proof.
  assert (Hnan : forall y, is_nan e = true -> (e <? y)%float = false).
  { intros y He. rewrite ltb_spec.
    assert (Hsf : Prim2SF e = S754_nan).
    { unfold is_nan in He. rewrite eqb_spec in He. unfold SFeqb in He.
      destruct (Prim2SF e) as [s | s | | s m x]; [| | reflexivity |];
        exfalso; simpl in He.
      - discriminate.
      - destruct s; discriminate.
      - destruct s; rewrite Z.compare_refl, Pos.compare_cont_refl in He;
          discriminate. }
    now rewrite Hsf. }
  assert (Hle : forall y, (y <=? e)%float = true -> (e <? y)%float = false).
  { intros y. rewrite ltb_spec, leb_spec. unfold SFltb, SFleb.
    rewrite (SFcompare_antisym (Prim2SF e) (Prim2SF y)).
    destruct (SFcompare (Prim2SF e) (Prim2SF y)) as [[] |]; simpl;
      intros; try reflexivity; discriminate. }
  unfold getErrorColor.
  split; [| split; [| split; [| split]]].
  - destruct (e <? 1)%float; [discriminate |].
    destruct (e <? 10)%float; discriminate.
  - now intros ->.
  - intros H1 H10. now rewrite (Hle _ H1), H10.
  - intros H10.
    assert (H1 : (e <? 1)%float = false).
    { destruct (e <? 1)%float eqn:Hlt; [| reflexivity].
      exfalso. revert Hlt H10. rewrite ltb_spec, leb_spec.
      change (Prim2SF 1) with (S754_finite false 4503599627370496 (-52)).
      change (Prim2SF 10) with (S754_finite false 5629499534213120 (-49)).
      generalize 4503599627370496%positive, 5629499534213120%positive.
      intros m1 m10. unfold SFltb, SFleb, SFcompare.
      destruct (Prim2SF e) as [s | s | | s m x]; try discriminate;
        destruct s; try discriminate.
      destruct (Z.compare_spec x (-52)) as [-> | Hx | Hx]; try discriminate.
      intros _. destruct (Z.compare_spec (-49) x); try discriminate; lia. }
    now rewrite H1, (Hle _ H10).
  - intros He. now rewrite (Hnan 1%float He), (Hnan 10%float He).
Qed.

(** ** Raising the iteration count *)

Section LoopPrefix.

Variable S : Type.
Variable body : Z -> S -> completion (pass S).
Variable results : S -> list IterationResult.

Hypothesis body_extends :
  forall i s r, body i s = Normal r ->
    exists more,
      results (match r with Next s' | Break s' => s' end) = results s ++ more.

Lemma for_loop_extends (n : nat) (i : Z) (s s1 : S) :
  for_loop body n i s = Normal s1 ->
  exists more, results s1 = results s ++ more.
Proof.
  revert i s. induction n as [| n IH]; intros i s Hrun; simpl in Hrun.
  - injection Hrun as <-. exists []. now rewrite app_nil_r.
  - destruct (body i s) as [r | e] eqn:Hbody; [| discriminate].
    simpl in Hrun. destruct (body_extends Hbody) as [l Hl].
    destruct r as [s' | s'].
    + destruct (IH _ _ Hrun) as [l' Hl'].
      exists (l ++ l'). now rewrite Hl', Hl, app_assoc.
    + injection Hrun as <-. eauto.
Qed.

Lemma for_loop_prefix (n n' : nat) (i : Z) (s s1 s2 : S) :
  (n <= n')%nat ->
  for_loop body n i s = Normal s1 ->
  for_loop body n' i s = Normal s2 ->
  exists more, results s2 = results s1 ++ more.
Proof.
  revert n' i s. induction n as [| n IH]; intros n' i s Hle Hshort Hlong.
  - simpl in Hshort. injection Hshort as <-.
    exact (for_loop_extends _ _ _ Hlong).
  - destruct n' as [| n']; [lia |]. simpl in Hshort, Hlong.
    destruct (body i s) as [r | e]; [| discriminate].
    simpl in Hshort, Hlong. destruct r as [s' | s'].
    + apply (IH n' (i + 1)%Z s'); [lia | assumption | assumption].
    + injection Hshort as <-. injection Hlong as <-.
      exists []. now rewrite app_nil_r.
Qed.

End LoopPrefix.

Section PassesExtend.

Variable precision : Z.

Lemma hardwired_fixedPoint_extends Math_log i s r :
  MathUtils.fixedPointIteration_pass Math_log precision i s = Normal r ->
  exists more,
    MathUtils.fp_results (match r with Next s' | Break s' => s' end)
    = MathUtils.fp_results s ++ more.
Proof.
  intros Hpass. destruct r as [s' | s'].
  - apply hardwired_fixedPoint_Next in Hpass.
    destruct Hpass as (approx & relErr & _ & _ & ->). simpl. eauto.
  - now apply hardwired_fixedPoint_no_Break in Hpass.
Qed.

Lemma hardwired_newton_extends Math_log i s r :
  MathUtils.newtonRaphson_pass Math_log precision i s = Normal r ->
  exists more,
    MathUtils.nr_results (match r with Next s' | Break s' => s' end)
    = MathUtils.nr_results s ++ more.
Proof.
  intros Hpass. destruct r as [s' | s'].
  - apply hardwired_newton_Next in Hpass.
    destruct Hpass as (approx & relErr & _ & _ & _ & ->). simpl. eauto.
  - apply hardwired_newton_Break in Hpass.
    destruct Hpass as (_ & ->). simpl. eauto.
Qed.

Lemma hardwired_secant_extends Math_log i s r :
  MathUtils.secantMethod_pass Math_log precision i s = Normal r ->
  exists more,
    MathUtils.sec_results (match r with Next s' | Break s' => s' end)
    = MathUtils.sec_results s ++ more.
Proof.
  intros Hpass. destruct r as [s' | s'].
  - apply hardwired_secant_Next in Hpass.
    destruct Hpass as (approx & relErr & _ & _ & _ & ->). simpl. eauto.
  - apply hardwired_secant_Break in Hpass.
    destruct Hpass as (_ & ->). simpl. eauto.
Qed.

Lemma expr_fixedPoint_extends (E : engine value value) expression i s r :
  MathUtilsExpr.fixedPointIteration_pass E expression precision i s = Normal r ->
  exists more,
    MathUtilsExpr.fp_results (match r with Next s' | Break s' => s' end)
    = MathUtilsExpr.fp_results s ++ more.
Proof.
  intros Hpass. destruct r as [s' | s'].
  - apply expr_fixedPoint_Next in Hpass.
    destruct Hpass as (nextX & approx & relE & relErr & _ & _ & _ & _ & ->).
    simpl. eauto.
  - now apply expr_fixedPoint_no_Break in Hpass.
Qed.

Lemma expr_newton_extends (E : engine value value) expression i s r :
  MathUtilsExpr.newtonRaphson_pass E expression precision i s = Normal r ->
  exists more,
    MathUtilsExpr.nr_results (match r with Next s' | Break s' => s' end)
    = MathUtilsExpr.nr_results s ++ more.
Proof.
  intros Hpass. destruct r as [s' | s'].
  - apply expr_newton_Next in Hpass.
    destruct Hpass as (fx & fpx & approx & relErr & _ & _ & _ & _ & _ & ->).
    simpl. eauto.
  - apply expr_newton_Break in Hpass. subst s'.
    exists []. now rewrite app_nil_r.
Qed.

Lemma expr_secant_extends (E : engine value value) expression i s r :
  MathUtilsExpr.secantMethod_pass E expression precision i s = Normal r ->
  exists more,
    MathUtilsExpr.sec_results (match r with Next s' | Break s' => s' end)
    = MathUtilsExpr.sec_results s ++ more.
Proof.
  intros Hpass. destruct r as [s' | s'].
  - apply expr_secant_Next in Hpass.
    destruct Hpass as (fx0 & fx1 & approx & relErr & _ & _ & _ & _ & _ & ->).
    simpl. eauto.
  - apply expr_secant_Break in Hpass. subst s'.
    exists []. now rewrite app_nil_r.
Qed.

End PassesExtend.

Ltac two_runs Hshort Hlong extends :=
  match type of Hshort with
  | context [for_loop ?body ?n ?i ?s] =>
      let s1 := fresh "s1" in
      let Hs1 := fresh "Hs1" in
      destruct (for_loop body n i s) as [s1 | ?] eqn:Hs1;
      simpl in Hshort; [| discriminate];
      injection Hshort as <-;
      match type of Hlong with
      | context [for_loop ?body' ?n' ?i' ?s'] =>
          let s2 := fresh "s2" in
          let Hs2 := fresh "Hs2" in
          destruct (for_loop body' n' i' s') as [s2 | ?] eqn:Hs2;
          simpl in Hlong; [| discriminate];
          injection Hlong as <-;
          eapply (for_loop_prefix _ _ extends); [| exact Hs1 | exact Hs2]; lia
      end
  end.

(** X14. Raising the iteration count only adds rows.  Whenever a run with
    [n] iterations and a run with [n' >= n] iterations from the same inputs
    both return, the table of the shorter run is the beginning of the table
    of the longer one, for the three root finders in both variants. *)
Theorem longer_run_extends_shorter (n n' : Z) (Hn : (n <= n')%Z) :
  (forall Math_log x0 targetValue precision rs rs',
     MathUtils.fixedPointIteration Math_log x0 n targetValue precision
     = Normal rs ->
     MathUtils.fixedPointIteration Math_log x0 n' targetValue precision
     = Normal rs' ->
     exists more, rs' = rs ++ more)
  /\ (forall Math_log x0 targetValue precision rs rs',
        MathUtils.newtonRaphson Math_log x0 n targetValue precision
        = Normal rs ->
        MathUtils.newtonRaphson Math_log x0 n' targetValue precision
        = Normal rs' ->
        exists more, rs' = rs ++ more)
  /\ (forall Math_log guess1 guess2 targetValue precision rs rs',
        MathUtils.secantMethod Math_log guess1 guess2 n targetValue precision
        = Normal rs ->
        MathUtils.secantMethod Math_log guess1 guess2 n' targetValue precision
        = Normal rs' ->
        exists more, rs' = rs ++ more)
  /\ (forall (E : engine value value) gExpression x0 precision rs rs',
        MathUtilsExpr.fixedPointIteration E gExpression x0 n precision
        = Normal rs ->
        MathUtilsExpr.fixedPointIteration E gExpression x0 n' precision
        = Normal rs' ->
        exists more, rs' = rs ++ more)
  /\ (forall (E : engine value value) expression x0 precision rs rs',
        MathUtilsExpr.newtonRaphson E expression x0 n precision = Normal rs ->
        MathUtilsExpr.newtonRaphson E expression x0 n' precision = Normal rs' ->
        exists more, rs' = rs ++ more)
  /\ (forall (E : engine value value) expression guess1 guess2 precision rs rs',
        MathUtilsExpr.secantMethod E expression guess1 guess2 n precision
        = Normal rs ->
        MathUtilsExpr.secantMethod E expression guess1 guess2 n' precision
        = Normal rs' ->
        exists more, rs' = rs ++ more).
Proof.
  split; [| split; [| split; [| split; [| split]]]].
  - intros Math_log x0 targetValue precision rs rs' Hshort Hlong.
    unfold MathUtils.fixedPointIteration in Hshort, Hlong.
    two_runs Hshort Hlong (@hardwired_fixedPoint_extends precision Math_log).
  - intros Math_log x0 targetValue precision rs rs' Hshort Hlong.
    unfold MathUtils.newtonRaphson in Hshort, Hlong.
    two_runs Hshort Hlong (@hardwired_newton_extends precision Math_log).
  - intros Math_log guess1 guess2 targetValue precision rs rs' Hshort Hlong.
    unfold MathUtils.secantMethod in Hshort, Hlong.
    two_runs Hshort Hlong (@hardwired_secant_extends precision Math_log).
  - intros E gExpression x0 precision rs rs' Hshort Hlong.
    unfold MathUtilsExpr.fixedPointIteration in Hshort, Hlong.
    two_runs Hshort Hlong (@expr_fixedPoint_extends precision E gExpression).
  - intros E expression x0 precision rs rs' Hshort Hlong.
    unfold MathUtilsExpr.newtonRaphson in Hshort, Hlong.
    two_runs Hshort Hlong (@expr_newton_extends precision E expression).
  - intros E expression guess1 guess2 precision rs rs' Hshort Hlong.
    unfold MathUtilsExpr.secantMethod in Hshort, Hlong.
    two_runs Hshort Hlong (@expr_secant_extends precision E expression).
Qed.

(** ** An evaluation that throws *)

(** X15. An evaluation of [g] that throws at an iterate the run gets to is
    thrown out of the expression-driven [fixedPointIteration], which has no
    handler: the call returns no list, neither the records of the passes
    before it nor any other. *)
Theorem fixed_point_evaluator_throw_propagates
  (E : engine value value) (gExpression : string) (x0 : number)
  (iterations precision : Z) (k : nat) (xk : number) (e : exn) :
  (0 <= precision <= 100)%Z ->
  (Z.of_nat k < iterations)%Z ->
  Recurrence.number_steps (evaluate E gExpression) k x0 = Some xk ->
  evaluate E gExpression (VNumber xk) = Throw e ->
  MathUtilsExpr.fixedPointIteration E gExpression x0 iterations precision
  = Throw e
  /\ forall rs,
       MathUtilsExpr.fixedPointIteration E gExpression x0 iterations precision
       <> Normal rs.
Proof.
  intros Hp Hk Hreached Hfails.
  assert (Hthrows :
            MathUtilsExpr.fixedPointIteration E gExpression x0 iterations
              precision = Throw e)
    by (eapply expr_fixedPoint_throws; eassumption).
  split; [assumption |]. intros rs Hrs. rewrite Hthrows in Hrs. discriminate.
Qed.

(** ** The facts above on sample runs *)

Lemma fixed_point_records_follow_recurrence_witness :
  exists xk xk1,
    Recurrence.steps (evaluate SampleEngine.mathjs "x / 2 + 1") 1
      (VNumber 1%float) = Normal xk
    /\ evaluate SampleEngine.mathjs "x / 2 + 1" xk = Normal xk1
    /\ Recurrence.fixed_point_record_any 6 1 xk xk1
         (mkIterationResult 2%Z 1.75%float (Some 14.285714%float)).
Proof.
  destruct fixed_point_records_follow_recurrence as [Hexpr _].
  apply (Hexpr SampleEngine.mathjs "x / 2 + 1"%string 1%float 3%Z 6%Z
           [mkIterationResult 1%Z 1.5%float None;
            mkIterationResult 2%Z 1.75%float (Some 14.285714%float);
            mkIterationResult 3%Z 1.875%float (Some 6.666667%float)]).
  - vm_compute. reflexivity.
  - reflexivity.
Defined.

Lemma secant_records_follow_recurrence_witness :
  exists points points',
    Recurrence.steps
      (Recurrence.secant_step
         (Contract.value_at SampleEngine.mathjs "x^2 - 2")) 1
      (1%float, 2%float) = Normal points
    /\ Recurrence.secant_step
         (Contract.value_at SampleEngine.mathjs "x^2 - 2") points
       = Normal points'
    /\ Contract.step_record 6 (1 + Z.of_nat 1) (snd points) (snd points')
         (mkIterationResult 2%Z 1.4%float (Some 4.761905%float)).
Proof.
  destruct secant_records_follow_recurrence as [Hexpr _].
  apply (Hexpr SampleEngine.mathjs "x^2 - 2"%string 1%float 2%float 3%Z 6%Z
           [mkIterationResult 1%Z 1.333333%float (Some 50%float);
            mkIterationResult 2%Z 1.4%float (Some 4.761905%float);
            mkIterationResult 3%Z 1.414634%float (Some 1.034483%float)]).
  - vm_compute. reflexivity.
  - reflexivity.
Defined.

Lemma short_run_means_degenerate_step_witness :
  exists k,
    Datatypes.length [degenerate_marker 1%Z 1e11%float] = S k
    /\ nth_error [degenerate_marker 1%Z 1e11%float] k
       = Some (degenerate_marker (1 + Z.of_nat k)
                 (Contract.iterate
                    (Contract.newton_step_ln V8.Math_log) k 1e11%float))
    /\ (Math_abs
          (1 / Contract.iterate
                 (Contract.newton_step_ln V8.Math_log) k 1e11%float)
        <? 1e-10)%float = true.
Proof.
  destruct short_run_means_degenerate_step as (_ & _ & Hnewton & _).
  apply (Hnewton V8.Math_log 1e11%float 5%Z 0%float 6%Z).
  - vm_compute. reflexivity.
  - simpl. lia.
Defined.

Lemma safeEvaluate_contract_witness :
  MathUtils.safeEvaluate SampleEngine.untyped SampleEngine.Reciprocal 0%float
  = Normal None.
Proof.
  apply (safeEvaluate_contract SampleEngine.untyped SampleEngine.Reciprocal
           0%float).
  right. right. exists infinity. split; vm_compute; reflexivity.
Defined.

Lemma symbolic_failure_is_not_fatal_witness :
  exists fwd bwd ctr,
    toFixed_parseFloat ((0.1 - 0) / 0.1)%float 6 = Normal fwd
    /\ toFixed_parseFloat ((0 - 0.1) / 0.1)%float 6 = Normal bwd
    /\ toFixed_parseFloat ((0.1 - 0.1) / (2 * 0.1))%float 6 = Normal ctr
    /\ MathUtils.approximateDerivative SampleEngine.untyped "abs(x)"
         0%float 0.1%float 6
       = Normal (Result (mkDerivativeResult fwd bwd ctr None None None None)).
Proof.
  destruct symbolic_failure_is_not_fatal as [Hguarded _].
  apply (Hguarded SampleEngine.untyped "abs(x)"%string 0%float 0.1%float
           6%Z SampleEngine.Abs 0%float 0.1%float 0.1%float).
  - lia.
  - reflexivity.
  - vm_compute. reflexivity.
  - vm_compute. reflexivity.
  - vm_compute. reflexivity.
  - right. exists SampleEngine.AbsD. split; vm_compute; reflexivity.
Defined.

Lemma approximateDerivative_messages_witness :
  MathUtils.approximateDerivative SampleEngine.untyped "log(x)" 0%float
    0.1%float 6
  = Normal (ErrorObject MathUtils.evaluation_failed_message).
Proof.
  destruct (approximateDerivative_messages SampleEngine.untyped "log(x)"%string
              0%float 0.1%float 6%Z) as [Hfailed _].
  apply (Hfailed SampleEngine.Log).
  - reflexivity.
  - left. vm_compute. reflexivity.
Defined.

Lemma unguarded_approximateDerivative_outcome_witness :
  exists r,
    MathUtilsExpr.approximateDerivative SampleEngine.mathjs "1 / x" 0%float
      0.1%float 6 = Normal (Result r).
Proof.
  destruct (unguarded_approximateDerivative_outcome SampleEngine.mathjs
              "1 / x"%string 0%float 0.1%float 6%Z) as (_ & _ & Hresult).
  apply Hresult; [lia |].
  exists SampleEngine.Reciprocal, (VNumber infinity), (VNumber 10%float),
    (VNumber (-10)%float), infinity, 10%float, (-10)%float,
    (VNumber neg_infinity), neg_infinity, neg_infinity.
  split; [reflexivity |].
  split; [vm_compute; reflexivity |].
  split; [vm_compute; reflexivity |].
  split; [vm_compute; reflexivity |].
  split; [reflexivity |].
  split; [reflexivity |].
  split; [reflexivity |].
  split; [vm_compute; reflexivity |].
  split; [reflexivity |].
  vm_compute; reflexivity.
Defined.

Lemma precision_out_of_range_witness :
  MathUtils.fixedPointIteration V8.Math_log 2%float 1 0%float 101
  = Throw toFixed_range_error.
Proof.
  assert (Hprecision : (101 < 0)%Z \/ (100 < 101)%Z) by (right; lia).
  assert (Hiterations : (1 <= 1)%Z) by lia.
  destruct (precision_out_of_range Hprecision Hiterations) as [Hfixed _].
  apply Hfixed.
Defined.

Lemma approximate_e_submission_witness :
  Forms.onSubmit SampleEngine.mathjs
    (Forms.mkFormData Forms.fixed_point "log(x)" 2%float None 5 6)
  = Normal (Forms.mkView None
              (Some "Calculation failed: nextX.toFixed is not a function"%string)
              [Forms.mkToast true "Calculation Error"
                 "Failed to calculate approximation: nextX.toFixed is not a function"]).
Proof.
  destruct (approximate_e_submission SampleEngine.mathjs
              (Forms.mkFormData Forms.fixed_point "log(x)" 2%float None 5 6))
    as (_ & _ & _ & _ & Hshown & _).
  etransitivity.
  - apply (Hshown SampleEngine.Log); reflexivity.
  - vm_compute. reflexivity.
Defined.

Lemma fixed_point_evaluator_throw_propagates_witness :
  MathUtilsExpr.fixedPointIteration SampleEngine.mathjs "y + 1" 2%float 5 6
  = Throw (mkExn PlainErrorClass "Undefined symbol y")
  /\ forall rs,
       MathUtilsExpr.fixedPointIteration SampleEngine.mathjs "y + 1" 2%float 5 6
       <> Normal rs.
Proof.
  apply (@fixed_point_evaluator_throw_propagates SampleEngine.mathjs
           "y + 1"%string 2%float 5%Z 6%Z 0%nat 2%float
           (mkExn PlainErrorClass "Undefined symbol y")).
  - lia.
  - simpl. lia.
  - reflexivity.
  - vm_compute. reflexivity.
Defined.

Lemma approximate_e_hardwired_submission_witness :
  exists v,
    Forms.onSubmitE V8.Math_log
      (Forms.mkFormDataE Forms.secant 2%float None 5 6) = Normal v
    /\ ((exists rs, v = Forms.mkView (Some rs) None [])
        \/ (Forms.secant = Forms.secant
            /\ @None number = None
            /\ v = Forms.mkView None
                     (Some "Invalid method or missing input for Secant method."%string)
                     [])).
Proof.
  apply (@approximate_e_hardwired_submission V8.Math_log
           (Forms.mkFormDataE Forms.secant 2%float None 5 6)).
  simpl. lia.
Defined.

Lemma final_approximation_of_fixed_point_witness :
  exists xn a,
    Recurrence.steps (evaluate SampleEngine.mathjs "x / 2 + 1") (Z.to_nat 3)
      (VNumber 1%float) = Normal xn
    /\ call_toFixed "nextX" xn 6 = Normal a
    /\ Forms.finalApproximation
         (Some [mkIterationResult 1%Z 1.5%float None;
                mkIterationResult 2%Z 1.75%float (Some 14.285714%float);
                mkIterationResult 3%Z 1.875%float (Some 6.666667%float)])
       = Some a.
Proof.
  destruct final_approximation_of_fixed_point as [Hexpr _].
  apply (Hexpr SampleEngine.mathjs "x / 2 + 1"%string 1%float 3%Z 6%Z).
  - vm_compute. reflexivity.
  - lia.
Defined.

Lemma error_colour_buckets_witness :
  getErrorColor (Some 5%float) = "text-yellow-600"%string.
Proof.
  destruct (error_colour_buckets 5%float) as (_ & _ & Hyellow & _).
  apply Hyellow; vm_compute; reflexivity.
Defined.

Lemma longer_run_extends_shorter_witness :
  exists more,
    [mkIterationResult 1%Z 1.5%float None;
     mkIterationResult 2%Z 1.75%float (Some 14.285714%float);
     mkIterationResult 3%Z 1.875%float (Some 6.666667%float)]
    = [mkIterationResult 1%Z 1.5%float None;
       mkIterationResult 2%Z 1.75%float (Some 14.285714%float)] ++ more.
Proof.
  assert (Hn : (2 <= 3)%Z) by lia.
  destruct (longer_run_extends_shorter Hn) as (_ & _ & _ & Hfixed & _).
  apply (Hfixed SampleEngine.mathjs "x / 2 + 1"%string 1%float 6%Z).
  - vm_compute. reflexivity.
  - vm_compute. reflexivity.
Defined.
